(** * 1min-relay-worker: chunked translation pipeline

    A shallow embedding of [utils/chunking.ts] (TextChunker, SubtitleChunker),
    [utils/logger.ts] (TranslationLogger) and the chat completions handler
    (ChatHandler),
    followed by the properties of the specification that concern them.

    Conventions.
    - A JavaScript string is the list of its UTF-16 code units ([jsstring]);
      [length], [substring] and indexing therefore count code units, as in
      the source.
    - Lengths and positions are [nat].  Where the source clamps a difference
      at zero ([Math.max(0, a - b)]) the truncated subtraction of [nat] is
      the same number.
    - The single floating-point computation of the chunker,
      [startIndex + maxChunkSize * 0.7], is evaluated on binary64 floats. *)

From Stdlib Require Import ZArith NArith List Lia Ascii String DecimalString Sorted.
From Stdlib Require Import Floats.PrimFloat Numbers.Cyclic.Int63.Uint63.
From stdpp Require Import base option list gmap sorting.

Set Default Proof Using "Type".
Local Open Scope nat_scope.

(** ** JavaScript strings *)

Module JS.

(** A string is its sequence of UTF-16 code units. *)
Definition jsstring : Type := list N.

(** A literal of the source (ASCII only). *)
Definition lit (s : string) : jsstring := N_of_ascii <$> list_ascii_of_string s.

(** Template-literal interpolation of a non-negative integer. *)
Definition of_number (n : nat) : jsstring :=
  lit (NilZero.string_of_uint (Nat.to_uint n)).

Definition LF : N := 10.
Definition CR : N := 13.

(** [s.substring(a, b)]: both arguments are clamped to the length and
    swapped when [a > b]. *)
Definition substring (s : jsstring) (a b : nat) : jsstring :=
  let a' := a `min` length s in
  let b' := b `min` length s in
  take (a' `max` b' - a' `min` b') (drop (a' `min` b') s).

(** [s.substring(a)]. *)
Definition substring_from (s : jsstring) (a : nat) : jsstring :=
  drop (a `min` length s) s.

(** [arr.includes(c)] on an array of one-unit strings. *)
Definition includes (l : list N) (c : N) : bool := existsb (N.eqb c) l.

(** Truthiness of a string: only the empty string is falsy. *)
Definition truthy (s : jsstring) : bool :=
  match s with [] => false | _ :: _ => true end.

(** [a || b] on strings that may be [undefined]. *)
Definition or_else (a : option jsstring) (b : jsstring) : jsstring :=
  match a with
  | Some s => if truthy s then s else b
  | None => b
  end.

(** The code units removed by [String.prototype.trim]: WhiteSpace and
    LineTerminator of ECMAScript. *)
Definition is_trim_space (c : N) : bool :=
  (existsb (N.eqb c)
     [9; 10; 11; 12; 13; 32; 160; 0x1680; 0x2028; 0x2029; 0x202F; 0x205F;
      0x3000; 0xFEFF]
   || ((0x2000 <=? c) && (c <=? 0x200A)))%N.

Fixpoint dropWhile {A} (p : A → bool) (l : list A) : list A :=
  match l with
  | [] => []
  | x :: l' => if p x then dropWhile p l' else l
  end.

Fixpoint takeWhile {A} (p : A → bool) (l : list A) : list A :=
  match l with
  | [] => []
  | x :: l' => if p x then x :: takeWhile p l' else []
  end.

(** [s.trim()]. *)
Definition trim (s : jsstring) : jsstring :=
  rev (dropWhile is_trim_space (rev (dropWhile is_trim_space s))).

(** [arr.join(sep)] on an array of strings. *)
Fixpoint join (sep : jsstring) (l : list jsstring) : jsstring :=
  match l with
  | [] => []
  | [s] => s
  | s :: l' => s ++ sep ++ join sep l'
  end.

(** A JavaScript number holding a length or a position; the conversion is
    exact below 2^53, which no string length reaches. *)
Definition number (n : nat) : float :=
  PrimFloat.of_uint63 (Uint63.of_Z (Z.of_nat n)).

End JS.

Import JS.

(** ** utils/chunking.ts *)

Record TextChunk : Type := mkTextChunk {
  id : jsstring;
  content : jsstring;
  index : nat;
  totalChunks : nat;
  originalLength : nat
}.

(** [chunks.forEach(chunk => { chunk.totalChunks = chunks.length })]. *)
Definition update_totalChunks (chunks : list TextChunk) : list TextChunk :=
  (λ chunk, mkTextChunk (id chunk) (content chunk) (index chunk)
                        (length chunks) (originalLength chunk)) <$> chunks.

Module TextChunker.

Definition MAX_CHUNK_SIZE : nat := 2000.
Definition OVERLAP_SIZE : nat := 100.

Definition sentenceEnders : list N :=
  [46; 33; 63; 10; 0x3002; 0xFF01; 0xFF1F]%N.

(** [calculateBreakScore]: [Math.max(0, 100 - Math.abs(position - target))]. *)
Definition calculateBreakScore (position target : nat) : nat :=
  let distance := (position - target) + (target - position) in
  100 - distance.

(** One turn of the backward scan of [findSentenceBreak], at offset [i]
    of [searchText]; the state is [(bestBreak, bestScore)]. *)
Definition scan_step (searchText : jsstring) (start target : nat)
    (best : nat * nat) (i : nat) : nat * nat :=
  match searchText !! i with
  | Some char =>
      if includes sentenceEnders char then
        let position := start + i + 1 in
        let score := calculateBreakScore position target in
        if best.2 <? score then (position, score) else best
      else best
  | None => best
  end.

(** [findSentenceBreak]: the offsets run from [searchText.length - 1]
    down to [Math.max(0, target - start - 200)]. *)
Definition findSentenceBreak (text : jsstring) (start target : nat) : nat :=
  let searchText := substring text start (target + 200) in
  let lowest := target - start - 200 in
  let offsets := rev (seq lowest (length searchText - lowest)) in
  (foldl (scan_step searchText start target) (target, 0) offsets).1.

(** The test [sentenceEnd > startIndex + maxChunkSize * 0.7], in binary64
    arithmetic; the literal is the double nearest to 0.7. *)
Definition beyond_threshold (sentenceEnd startIndex maxChunkSize : nat) : bool :=
  (number startIndex + number maxChunkSize * 0x1.6666666666666p-1
     <? number sentenceEnd)%float.

(** The [while (startIndex < text.length)] loop of [chunkText].  Every turn
    that advances [startIndex] advances it by at least one, so
    [text.length] turns are enough for any run that ends; [None] stands
    for a run that never leaves the loop. *)
Fixpoint chunkText_loop (fuel : nat) (text : jsstring) (maxChunkSize : nat)
    (startIndex chunkIndex : nat) : option (list TextChunk) :=
  if length text <=? startIndex then Some []
  else
    match fuel with
    | 0 => None
    | S fuel' =>
        let endIndex := (startIndex + maxChunkSize) `min` length text in
        let endIndex :=
          if endIndex <? length text then
            let sentenceEnd := findSentenceBreak text startIndex endIndex in
            if beyond_threshold sentenceEnd startIndex maxChunkSize
            then sentenceEnd else endIndex
          else endIndex in
        let chunkContent := substring text startIndex endIndex in
        let chunk :=
          {| id := lit "chunk-" ++ of_number chunkIndex;
             content := chunkContent;
             index := chunkIndex;
             totalChunks := 0;
             originalLength := length text |} in
        let startIndex' := (endIndex - OVERLAP_SIZE) `max` endIndex in
        (chunk ::.) <$>
          chunkText_loop fuel' text maxChunkSize startIndex' (S chunkIndex)
    end.

Definition chunkText (text : jsstring) (maxChunkSize : nat)
    : option (list TextChunk) :=
  if length text <=? maxChunkSize then
    Some [ {| id := lit "chunk-0";
              content := text;
              index := 0;
              totalChunks := 1;
              originalLength := length text |} ]
  else
    update_totalChunks <$>
      chunkText_loop (length text) text maxChunkSize 0 0.

(** [findOverlap]: the candidates run from [maxOverlap] down to 1. *)
Fixpoint findOverlap_loop (text1 text2 : jsstring) (i : nat) : nat :=
  match i with
  | 0 => 0
  | S i' =>
      let suffix := substring_from text1 (length text1 - i) in
      let prefix := substring text2 0 i in
      if decide (suffix = prefix) then i
      else findOverlap_loop text1 text2 i'
  end.

Definition findOverlap (text1 text2 : jsstring) : nat :=
  let maxOverlap := (OVERLAP_SIZE * 2) `min` (length text1 `min` length text2) in
  findOverlap_loop text1 text2 maxOverlap.

(** [chunks.sort((a, b) => a.index - b.index)]: the sort of an array is
    stable, so the result is the stable ordering by [index]. *)
Fixpoint insert_by_index (c : TextChunk) (l : list TextChunk) : list TextChunk :=
  match l with
  | [] => [c]
  | d :: l' => if index c <=? index d then c :: l else d :: insert_by_index c l'
  end.

Definition sort_by_index (chunks : list TextChunk) : list TextChunk :=
  foldr insert_by_index [] chunks.

(** The [for (let i = 1; ...)] loop of [reconstructText]: [previousChunk]
    is [sortedChunks[i - 1]] and the list holds [sortedChunks[i..]]. *)
Fixpoint reconstruct_loop (previousChunk : TextChunk) (rest : list TextChunk)
    (result : jsstring) : jsstring :=
  match rest with
  | [] => result
  | currentChunk :: rest' =>
      let overlap := findOverlap (content previousChunk) (content currentChunk) in
      let cleanContent := substring_from (content currentChunk) overlap in
      reconstruct_loop currentChunk rest' (result ++ cleanContent)
  end.

Definition reconstructText (chunks : list TextChunk) : jsstring :=
  match chunks with
  | [] => []
  | [c] => content c
  | _ =>
      match sort_by_index chunks with
      | [] => []
      | first :: rest => reconstruct_loop first rest (content first)
      end
  end.

End TextChunker.

Module SubtitleChunker.

(** [subtitles.split(/\n\n|\r\n\r\n/)]: at each position the first
    alternative is tried before the second; a unit that starts no separator
    joins the piece that the rest of the text begins with. *)
Definition push (c : N) (pieces : list jsstring) : list jsstring :=
  match pieces with
  | piece :: pieces' => (c :: piece) :: pieces'
  | [] => [[c]]
  end.

Fixpoint split_blocks (s : jsstring) : list jsstring :=
  match s with
  | [] => [[]]
  | c :: s1 =>
      match s1 with
      | [] => [[c]]
      | d :: s2 =>
          if ((c =? LF) && (d =? LF))%N then [] :: split_blocks s2
          else
            match s2 with
            | e :: f :: s4 =>
                if ((c =? CR) && (d =? LF) && (e =? CR) && (f =? LF))%N
                then [] :: split_blocks s4
                else push c (split_blocks s1)
            | _ => push c (split_blocks s1)
            end
      end
  end.

Definition subtitle_chunk (text : jsstring) (chunkIndex originalLength : nat)
    : TextChunk :=
  {| id := lit "subtitle-chunk-" ++ of_number chunkIndex;
     content := trim text;
     index := chunkIndex;
     totalChunks := 0;
     originalLength := originalLength |}.

(** The state of the [for (const line of lines)] loop:
    [(chunks, currentChunk, chunkIndex)]. *)
Definition loop_state : Type := list TextChunk * jsstring * nat.

Definition line_step (maxChunkSize originalLength : nat)
    (st : loop_state) (line : jsstring) : loop_state :=
  let '(chunks, currentChunk, chunkIndex) := st in
  if (maxChunkSize <? length currentChunk + length line)
     && (0 <? length currentChunk)
  then
    (chunks ++ [subtitle_chunk currentChunk chunkIndex originalLength],
     line, S chunkIndex)
  else
    (chunks,
     currentChunk ++ (if truthy currentChunk then [LF; LF] else []) ++ line,
     chunkIndex).

Definition chunkSubtitles (subtitles : jsstring) (maxChunkSize : nat)
    : list TextChunk :=
  let lines := split_blocks subtitles in
  let '(chunks, currentChunk, chunkIndex) :=
    foldl (line_step maxChunkSize (length subtitles)) ([], [], 0) lines in
  let chunks :=
    if truthy (trim currentChunk)
    then chunks ++ [subtitle_chunk currentChunk chunkIndex (length subtitles)]
    else chunks in
  update_totalChunks chunks.

End SubtitleChunker.

(** ** utils/logger.ts *)

Module TranslationLogger.

Inductive Status : Type := started | completed | failed | timeout.

Record TranslationMetrics : Type := mkMetrics {
  requestId : jsstring;
  startTime : Z;
  endTime : option Z;
  duration : option Z;
  textLength : nat;
  chunkCount : option nat;
  model : jsstring;
  status : Status;
  error : option jsstring
}.

(** [startTranslation] at clock reading [now]; console output is not
    modelled. *)
Definition startTranslation (requestId : jsstring) (textLength : nat)
    (model : jsstring) (now : Z)
    (metrics : gmap jsstring TranslationMetrics)
    : gmap jsstring TranslationMetrics :=
  <[requestId :=
      {| requestId := requestId; startTime := now; endTime := None;
         duration := None; textLength := textLength; chunkCount := None;
         model := model; status := started; error := None |}]> metrics.

(** The update [completeTranslation] makes to an entry it has found. *)
Definition complete_entry (chunkCount : option nat) (now : Z)
    (m : TranslationMetrics) : TranslationMetrics :=
  {| requestId := requestId m; startTime := startTime m;
     endTime := Some now; duration := Some (now - startTime m)%Z;
     textLength := textLength m; chunkCount := chunkCount;
     model := model m; status := completed; error := error m |}.

(** The update [failTranslation] makes to an entry it has found. *)
Definition fail_entry (err : jsstring) (now : Z)
    (m : TranslationMetrics) : TranslationMetrics :=
  {| requestId := requestId m; startTime := startTime m;
     endTime := Some now; duration := Some (now - startTime m)%Z;
     textLength := textLength m; chunkCount := chunkCount m;
     model := model m; status := failed; error := Some err |}.

End TranslationLogger.

(** ** ChatHandler: data *)

Inductive ContentPart : Type :=
  | ImageUrlPart (url : jsstring) (detail : option jsstring)
  | OtherPart (type : jsstring) (text : jsstring).

(** [msg.content]: a string, an array of parts, or anything else. *)
Inductive Content : Type :=
  | ContentString (s : jsstring)
  | ContentParts (parts : list ContentPart)
  | ContentOther.

Module Message.
Record t : Type := mk { role : jsstring; content : Content }.
End Message.

Module ChatCompletionRequest.
Record t : Type := mk {
  messages : option (list Message.t);  (* [None]: missing or not an array *)
  model : option jsstring;
  stream : bool;                       (* truthiness of [stream] *)
  temperature : option float;
  max_tokens : option nat
}.
End ChatCompletionRequest.

(** A value caught by [catch (error)]. *)
Inductive Thrown : Type :=
  | ErrorObject (message : jsstring)
  | OtherValue.

(** [error instanceof Error ? error.message : 'Unknown error']. *)
Definition error_message (error : Thrown) : jsstring :=
  match error with
  | ErrorObject message => message
  | OtherValue => lit "Unknown error"
  end.

(** The arguments of one [apiService.sendChatRequest], with those of the
    request-body builder that precedes it. *)
Record BackendCall : Type := mkBackendCall {
  call_messages : list Message.t;
  call_model : jsstring;
  call_temperature : option float;
  call_max_tokens : option nat;
  call_streaming : bool;
  call_apiKey : option jsstring
}.

(** The fields [transformToOpenAIFormat] reads from the backend's JSON. *)
Record BackendData : Type := mkBackendData {
  resultObject0 : option jsstring;   (* [aiRecord?.aiRecordDetail?.resultObject?.[0]] *)
  data_content : option jsstring;    (* [data.content] *)
  usage_prompt_tokens : option nat;
  usage_completion_tokens : option nat;
  usage_total_tokens : option nat
}.

(** One result of [reader.read()] before the end of the source. *)
Inductive ReadEvent : Type :=
  | Piece (value : list Byte.byte)
  | ReadFails (error : Thrown).

(** The backend's response object: what [response.json()] gives and what
    [response.body?.getReader()] delivers before [done]. *)
Record BackendResponse : Type := mkBackendResponse {
  response_json : Thrown + BackendData;
  response_body : option (list ReadEvent)
}.

Record Usage : Type := mkUsage {
  prompt_tokens : nat;
  completion_tokens : nat;
  total_tokens : nat
}.

(** The [chat.completion] object. *)
Record ChatCompletion : Type := mkChatCompletion {
  completion_id : jsstring;
  completion_object : jsstring;
  completion_created : Z;
  completion_model : jsstring;
  choice_index : nat;
  message_role : jsstring;
  message_content : jsstring;
  choice_finish_reason : jsstring;
  usage : Usage
}.

(** The [chat.completion.chunk] object of one SSE frame. *)
Record CompletionChunk : Type := mkCompletionChunk {
  chunk_id : jsstring;
  chunk_object : jsstring;
  chunk_created : Z;
  chunk_model : jsstring;
  chunk_choice_index : nat;
  delta_content : option jsstring;     (* [None]: the empty delta [{}] *)
  finish_reason : option jsstring      (* [None]: [null] *)
}.

Inductive Payload : Type :=
  | ErrorPayload (message : jsstring)
  | CompletionPayload (c : ChatCompletion).

Module Response.
Inductive t : Type :=
  | Json (status : nat) (payload : Payload)
  | EventStream (headers : list (jsstring * jsstring)).

Definition status (r : t) : nat :=
  match r with Json s _ => s | EventStream _ => 200 end.

(** [response.ok]: the status is in the range 200-299. *)
Definition ok (r : t) : bool := (200 <=? status r) && (status r <=? 299).
End Response.

(** The writable end of the [TransformStream]. *)
Record Sink : Type := mkSink {
  written : list (list Byte.byte);
  closed : bool;
  aborted : option Thrown
}.

(** Everything the handler reads or changes outside its arguments. *)
Record World : Type := mkWorld {
  metrics : gmap jsstring TranslationLogger.TranslationMetrics;
  clock_reads : nat;               (* calls of [Date.now()] so far *)
  uuid_reads : nat;                (* calls of [generateUUID()] so far *)
  backend_calls : list BackendCall;(* requests sent, oldest first *)
  delays : list nat;               (* [setTimeout] waits, oldest first *)
  sink : Sink                      (* the stream of the current request *)
}.

(** What lies outside the repository or outside [src/]: the clock, the
    UUID source, the backend service, the codecs and the constants. *)
Class Platform : Type := {
  Date_now : nat → Z;
  generateUUID : nat → jsstring;
  sendChatRequest : nat → BackendCall → Thrown + BackendResponse;
  writer_write : nat → list Byte.byte → option Thrown;
  TextDecoder_decode : list Byte.byte → jsstring;
  TextEncoder_encode : jsstring → list Byte.byte;
  JSON_stringify : CompletionChunk → jsstring;
  extractImageFromContent : list ContentPart → option jsstring;
  ALL_ONE_MIN_AVAILABLE_MODELS : list jsstring;
  DEFAULT_MODEL : jsstring;
  default_error_status : nat;
  type_error_message : jsstring
}.

(** ** ChatHandler: effects

    A computation takes the world to an outcome and a new world: it returns,
    throws (a rejected promise included), or never returns. *)

Inductive Outcome (A : Type) : Type :=
  | Returns (a : A)
  | Throws (error : Thrown)
  | Hangs.
Arguments Returns {A} a.
Arguments Throws {A} error.
Arguments Hangs {A}.

Definition M (A : Type) : Type := World → Outcome A * World.

#[global] Instance M_ret : MRet M := λ A a w, (Returns a, w).

#[global] Instance M_bind : MBind M := λ A B f m w,
  match m w with
  | (Returns a, w') => f a w'
  | (Throws e, w') => (Throws e, w')
  | (Hangs, w') => (Hangs, w')
  end.

Definition throw {A} (error : Thrown) : M A := λ w, (Throws error, w).

Definition hang {A} : M A := λ w, (Hangs, w).

(** [try { body } catch (error) { handler }]. *)
Definition try_catch {A} (body : M A) (handler : Thrown → M A) : M A := λ w,
  match body w with
  | (Throws e, w') => handler e w'
  | r => r
  end.

Definition get_metrics : M (gmap jsstring TranslationLogger.TranslationMetrics) :=
  λ w, (Returns (metrics w), w).

Definition set_metrics (m : gmap jsstring TranslationLogger.TranslationMetrics)
    : M unit := λ w,
  (Returns (), mkWorld m (clock_reads w) (uuid_reads w) (backend_calls w)
                       (delays w) (sink w)).

Definition set_sink (s : Sink) : M unit := λ w,
  (Returns (), mkWorld (metrics w) (clock_reads w) (uuid_reads w)
                       (backend_calls w) (delays w) s).

Definition get_sink : M Sink := λ w, (Returns (sink w), w).

(** [setTimeout(resolve, ms)], awaited. *)
Definition sleep (ms : nat) : M unit := λ w,
  (Returns (), mkWorld (metrics w) (clock_reads w) (uuid_reads w)
                       (backend_calls w) (delays w ++ [ms]) (sink w)).

Section Handler.

Context `{Platform}.

Definition date_now : M Z := λ w,
  (Returns (Date_now (clock_reads w)),
   mkWorld (metrics w) (S (clock_reads w)) (uuid_reads w) (backend_calls w)
           (delays w) (sink w)).

Definition new_uuid : M jsstring := λ w,
  (Returns (generateUUID (uuid_reads w)),
   mkWorld (metrics w) (clock_reads w) (S (uuid_reads w)) (backend_calls w)
           (delays w) (sink w)).

(** [await this.apiService.sendChatRequest(...)].  The request settles: it
    is answered or it throws.  A request that stays pending for ever is not
    modelled, so that whatever is stated of a run is stated of the runs in
    which every request to the backend settles. *)
Definition send (call : BackendCall) : M BackendResponse := λ w,
  let w' := mkWorld (metrics w) (clock_reads w) (uuid_reads w)
                    (backend_calls w ++ [call]) (delays w) (sink w) in
  match sendChatRequest (length (backend_calls w)) call with
  | inl e => (Throws e, w')
  | inr r => (Returns r, w')
  end.

(** [await writer.write(bytes)]. *)
Definition write (bytes : list Byte.byte) : M unit :=
  s ← get_sink;
  match writer_write (length (written s)) bytes with
  | Some e => throw e
  | None => set_sink (mkSink (written s ++ [bytes]) (closed s) (aborted s))
  end.

(** [await writer.close()]. *)
Definition close : M unit :=
  s ← get_sink; set_sink (mkSink (written s) true (aborted s)).

(** [await writer.abort(error)]. *)
Definition abort (error : Thrown) : M unit :=
  s ← get_sink; set_sink (mkSink (written s) (closed s) (Some error)).

(** [new TransformStream()]. *)
Definition new_TransformStream : M unit := set_sink (mkSink [] false None).

(** *** TranslationLogger, on the world's metrics map *)

Definition startTranslation (requestId : jsstring) (textLength : nat)
    (model : jsstring) : M unit :=
  now ← date_now;
  m ← get_metrics;
  set_metrics (TranslationLogger.startTranslation requestId textLength model now m).

Definition completeTranslation (requestId : jsstring)
    (chunkCount : option nat) : M unit :=
  m ← get_metrics;
  match m !! requestId with
  | Some entry =>
      now ← date_now;
      set_metrics (<[requestId := TranslationLogger.complete_entry chunkCount now entry]> m)
  | None => mret ()
  end.

Definition failTranslation (requestId : jsstring) (error : jsstring) : M unit :=
  m ← get_metrics;
  match m !! requestId with
  | Some entry =>
      now ← date_now;
      set_metrics (<[requestId := TranslationLogger.fail_entry error now entry]> m)
  | None => mret ()
  end.

(** [if (requestId) { ... }] on a parameter that may be [undefined]. *)
Definition when_requestId (requestId : option jsstring)
    (action : jsstring → M unit) : M unit :=
  match requestId with
  | Some r => if truthy r then action r else mret ()
  | None => mret ()
  end.

(** *** Responses *)

(** Modelled from the spec: [createErrorResponse] of [utils/response] is
    not under [src/]; it wraps the message into a JSON error response with
    the given status, and the status it uses when none is given is a
    constant of the platform. *)
Definition createErrorResponse (message : jsstring) (status : option nat)
    : Response.t :=
  Response.Json (default default_error_status status) (ErrorPayload message).

(** Modelled from the spec: [createSuccessResponse] of [utils/response] is
    not under [src/]; it wraps the object into a JSON response with
    status 200. *)
Definition createSuccessResponse (c : ChatCompletion) : Response.t :=
  Response.Json 200 (CompletionPayload c).

(** *** ChatHandler *)

Definition processMessages (messages : list Message.t) : list Message.t :=
  (λ message,
     match Message.content message with
     | ContentParts parts =>
         match extractImageFromContent parts with
         | Some imageUrl =>
             if truthy imageUrl then
               Message.mk (Message.role message)
                 (ContentParts
                    ((λ item, match item with
                              | ImageUrlPart url _ => ImageUrlPart url None
                              | OtherPart _ _ => item
                              end) <$> parts))
             else message
         | None => message
         end
     | _ => message
     end) <$> messages.

Definition transformToOpenAIFormat (data : BackendData) (model : jsstring)
    : M ChatCompletion :=
  uuid ← new_uuid;
  now ← date_now;
  mret {| completion_id := lit "chatcmpl-" ++ uuid;
          completion_object := lit "chat.completion";
          completion_created := (now / 1000)%Z;
          completion_model := model;
          choice_index := 0;
          message_role := lit "assistant";
          message_content :=
            or_else (resultObject0 data)
              (or_else (data_content data) (lit "No response generated"));
          choice_finish_reason := lit "stop";
          usage := {| prompt_tokens := default 0 (usage_prompt_tokens data);
                      completion_tokens := default 0 (usage_completion_tokens data);
                      total_tokens := default 0 (usage_total_tokens data) |} |}.

Definition handleNonStreamingChat (messages : list Message.t)
    (model : jsstring) (temperature : option float) (maxTokens : option nat)
    (apiKey requestId : option jsstring) : M Response.t :=
  let requestBody := mkBackendCall messages model temperature maxTokens false apiKey in
  try_catch
    (response ← send requestBody;
     data ← match response_json response with
            | inl e => throw e
            | inr d => mret d
            end;
     openAIResponse ← transformToOpenAIFormat data model;
     when_requestId requestId (λ r, completeTranslation r None);;
     mret (createSuccessResponse openAIResponse))
    (λ error,
       when_requestId requestId (λ r, failTranslation r (error_message error));;
       mret (createErrorResponse (lit "Failed to process chat completion") (Some 500))).

(** The frame written for one piece of the source. *)
Definition returnChunk (uuid : jsstring) (now : Z) (model chunk : jsstring)
    : CompletionChunk :=
  {| chunk_id := lit "chatcmpl-" ++ uuid;
     chunk_object := lit "chat.completion.chunk";
     chunk_created := (now / 1000)%Z;
     chunk_model := model;
     chunk_choice_index := 0;
     delta_content := Some chunk;
     finish_reason := None |}.

Definition finalChunk (uuid : jsstring) (now : Z) (model : jsstring)
    : CompletionChunk :=
  {| chunk_id := lit "chatcmpl-" ++ uuid;
     chunk_object := lit "chat.completion.chunk";
     chunk_created := (now / 1000)%Z;
     chunk_model := model;
     chunk_choice_index := 0;
     delta_content := None;
     finish_reason := Some (lit "stop") |}.

(** [`data: ${JSON.stringify(frame)}\n\n`], encoded. *)
Definition sse_frame (frame : CompletionChunk) : list Byte.byte :=
  TextEncoder_encode (lit "data: " ++ JSON_stringify frame ++ [LF; LF]).

Definition sse_done : list Byte.byte :=
  TextEncoder_encode (lit "data: [DONE]" ++ [LF; LF]).

(** The [while (true)] loop of the transcoder; the list holds what the
    reader delivers before [done]. *)
Fixpoint pump (model : jsstring) (source : list ReadEvent) : M unit :=
  match source with
  | [] => mret ()
  | ReadFails e :: _ => throw e
  | Piece value :: source' =>
      let chunk := TextDecoder_decode value in
      uuid ← new_uuid;
      now ← date_now;
      write (sse_frame (returnChunk uuid now model chunk));;
      pump model source'
  end.

Definition event_stream_headers_short : list (jsstring * jsstring) :=
  [(lit "Content-Type", lit "text/event-stream");
   (lit "Cache-Control", lit "no-cache");
   (lit "Connection", lit "keep-alive");
   (lit "Access-Control-Allow-Origin", lit "*")].

Definition event_stream_headers : list (jsstring * jsstring) :=
  event_stream_headers_short ++
  [(lit "Access-Control-Allow-Methods", lit "GET, POST, PUT, DELETE, OPTIONS");
   (lit "Access-Control-Allow-Headers", lit "Content-Type, Authorization")].

(** The detached task of [handleStreamingChat]. *)
Definition transcode (model : jsstring) (source : list ReadEvent)
    (requestId : option jsstring) : M unit :=
  try_catch
    (pump model source;;
     uuid ← new_uuid;
     now ← date_now;
     write (sse_frame (finalChunk uuid now model));;
     write sse_done;;
     close;;
     when_requestId requestId (λ r, completeTranslation r None))
    (λ error,
       when_requestId requestId (λ r, failTranslation r (error_message error));;
       abort error).

(** The task started by [handleStreamingChat] runs detached; here it is
    run to its end before the response is returned, which leaves the
    world as it is once the task has ended. *)
Definition handleStreamingChat (messages : list Message.t)
    (model : jsstring) (temperature : option float) (maxTokens : option nat)
    (apiKey requestId : option jsstring) : M Response.t :=
  let requestBody := mkBackendCall messages model temperature maxTokens true apiKey in
  try_catch
    (response ← send requestBody;
     new_TransformStream;;
     match response_body response with
     | None =>
         close;;
         mret (Response.EventStream event_stream_headers_short)
     | Some source =>
         transcode model source requestId;;
         mret (Response.EventStream event_stream_headers)
     end)
    (λ error,
       when_requestId requestId (λ r, failTranslation r (error_message error));;
       mret (createErrorResponse
               (lit "Failed to process streaming chat completion") (Some 500))).

End Handler.

(** *** detectSubtitles

    The five patterns, each searched anywhere in the text. *)

Module SubtitlePatterns.

Definition is_digit (c : N) : bool := ((48 <=? c) && (c <=? 57))%N.

(** [\w]. *)
Definition is_word (c : N) : bool :=
  (is_digit c || ((65 <=? c) && (c <=? 90)) || ((97 <=? c) && (c <=? 122))
   || (c =? 95))%N.

(** The line terminators at which [^] and [$] match under the [m] flag. *)
Definition is_line_terminator (c : N) : bool :=
  existsb (N.eqb c) [10; 13; 0x2028; 0x2029]%N.

Inductive Atom : Type :=
  | Digit
  | Char (c : N)
  | OneOf (l : list N).

Definition atom_matches (a : Atom) (c : N) : bool :=
  match a with
  | Digit => is_digit c
  | Char d => (c =? d)%N
  | OneOf l => existsb (N.eqb c) l
  end.

(** A sequence of one-unit atoms matched at the head of [s]. *)
Fixpoint matches_here (pattern : list Atom) (s : jsstring) : bool :=
  match pattern, s with
  | [], _ => true
  | _ :: _, [] => false
  | a :: pattern', c :: s' =>
      if atom_matches a c then matches_here pattern' s' else false
  end.

(** A match starting at some position of [s]. *)
Fixpoint search (matcher : jsstring → bool) (s : jsstring) : bool :=
  if matcher s then true
  else match s with [] => false | _ :: s' => search matcher s' end.

(** [/\d{2}:\d{2}:\d{2}[,.]\d{3}/]. *)
Definition timestamp (text : jsstring) : bool :=
  search (matches_here
            [Digit; Digit; Char 58; Digit; Digit; Char 58; Digit; Digit;
             OneOf [44; 46]%N; Digit; Digit; Digit]) text.

(** The lines of [s], cut at the line terminators. *)
Fixpoint lines (s : jsstring) : list jsstring :=
  match s with
  | [] => [[]]
  | c :: s' =>
      if is_line_terminator c then [] :: lines s'
      else match lines s' with
           | line :: rest => (c :: line) :: rest
           | [] => [[c]]
           end
  end.

(** [/^\d+$/m]: some line is a non-empty run of digits. *)
Definition sequence_number (text : jsstring) : bool :=
  existsb (λ line, if truthy line then forallb is_digit line else false)
          (lines text).

(** [/-->/]. *)
Definition arrow (text : jsstring) : bool :=
  search (matches_here [Char 45; Char 45; Char 62]) text.

(** [/<[^>]+>/]: a [<], at least one unit other than [>], then a [>]. *)
Definition tag (text : jsstring) : bool :=
  search (λ s, match s with
               | c :: d :: rest =>
                   if ((c =? 60) && negb (d =? 62))%N
                   then existsb (N.eqb 62%N) rest else false
               | _ => false
               end) text.

(** [/\[\w+\]/]. *)
Definition bracket (text : jsstring) : bool :=
  search (λ s, match s with
               | c :: rest =>
                   if (c =? 91)%N then
                     let word := takeWhile is_word rest in
                     if truthy word then
                       match drop (length word) rest with
                       | e :: _ => (e =? 93)%N
                       | [] => false
                       end
                     else false
                   else false
               | [] => false
               end) text.

End SubtitlePatterns.

Definition detectSubtitles (text : jsstring) : bool :=
  SubtitlePatterns.timestamp text
  || SubtitlePatterns.sequence_number text
  || SubtitlePatterns.arrow text
  || SubtitlePatterns.tag text
  || SubtitlePatterns.bracket text.

Section ChunkedHandler.

Context `{Platform}.

(** [msg => typeof msg.content === 'string' ? msg.content : ''] *)
Definition string_content (msg : Message.t) : jsstring :=
  match Message.content msg with
  | ContentString s => s
  | _ => []
  end.

(** [chunkResult.choices?.[0]?.message?.content || ''] on the parsed body
    of a response. *)
Definition first_choice_content (response : Response.t) : jsstring :=
  match response with
  | Response.Json _ (CompletionPayload c) => or_else (Some (message_content c)) []
  | _ => []
  end.

(** The [for (let i = 0; i < chunks.length; i++)] loop of
    [handleChunkedTranslation]; [rest] holds [chunks[i..]] and [total] is
    [chunks.length]. *)
Fixpoint process_chunks (requestBody : ChatCompletionRequest.t)
    (model apiKey : jsstring) (total i : nat) (rest : list TextChunk)
    (translatedChunks : list jsstring) : M (list jsstring) :=
  match rest with
  | [] => mret translatedChunks
  | chunk :: rest' =>
      let chunkRequest_messages :=
        [Message.mk (lit "user") (ContentString (content chunk))] in
      let chunkMessages := processMessages chunkRequest_messages in
      response ← handleNonStreamingChat chunkMessages model
                   (ChatCompletionRequest.temperature requestBody)
                   (ChatCompletionRequest.max_tokens requestBody)
                   (Some apiKey) None;
      if negb (Response.ok response) then
        throw (ErrorObject (lit "Chunk " ++ of_number (i + 1)
                            ++ lit " failed with status "
                            ++ of_number (Response.status response)))
      else
        let translatedText := first_choice_content response in
        (if i <? total - 1 then sleep 100 else mret ());;
        process_chunks requestBody model apiKey total (S i) rest'
          (translatedChunks ++ [translatedText])
  end.

Definition handleChunkedTranslation (requestBody : ChatCompletionRequest.t)
    (model apiKey requestId : jsstring) : M Response.t :=
  try_catch
    (messages ← match ChatCompletionRequest.messages requestBody with
                | Some messages => mret messages
                | None => throw (ErrorObject type_error_message)
                end;
     let textContent := join (lit " ") (string_content <$> messages) in
     let isSubtitles := detectSubtitles textContent in
     chunks ← (if isSubtitles
               then mret (SubtitleChunker.chunkSubtitles textContent 1500)
               else match TextChunker.chunkText textContent 2000 with
                    | Some chunks => mret chunks
                    | None => hang
                    end);
     translatedChunks ←
       process_chunks requestBody model apiKey (length chunks) 0 chunks [];
     let finalTranslation :=
       join (if isSubtitles then [LF; LF] else lit " ") translatedChunks in
     uuid ← new_uuid;
     now ← date_now;
     let openAIResponse :=
       {| completion_id := lit "chatcmpl-" ++ uuid;
          completion_object := lit "chat.completion";
          completion_created := (now / 1000)%Z;
          completion_model := model;
          choice_index := 0;
          message_role := lit "assistant";
          message_content := finalTranslation;
          choice_finish_reason := lit "stop";
          usage :=
            {| prompt_tokens := length textContent / 4;
               completion_tokens := length finalTranslation / 4;
               total_tokens :=
                 (length textContent + length finalTranslation) / 4 |} |} in
     completeTranslation requestId (Some (length chunks));;
     mret (createSuccessResponse openAIResponse))
    (λ error,
       failTranslation requestId (error_message error);;
       mret (createErrorResponse
               (lit "Failed to process chunked translation") (Some 500))).

(** [ALL_ONE_MIN_AVAILABLE_MODELS.includes(model)]. *)
Definition model_supported (model : jsstring) : bool :=
  existsb (λ known, bool_decide (known = model)) ALL_ONE_MIN_AVAILABLE_MODELS.

(** The handlers called at the end of the [try] block catch every
    exception themselves, so the [catch] of this function only ever sees
    what the code before them throws. *)
Definition handleChatCompletionsWithBody (requestBody : ChatCompletionRequest.t)
    (apiKey : jsstring) : M Response.t :=
  requestId ← new_uuid;
  try_catch
    (match ChatCompletionRequest.messages requestBody with
     | None =>
         mret (createErrorResponse
                 (lit "Messages field is required and must be an array") None)
     | Some messages =>
         let model := or_else (ChatCompletionRequest.model requestBody) DEFAULT_MODEL in
         if negb (model_supported model) then
           mret (createErrorResponse
                   (lit "Model '" ++ model ++ lit "' is not supported") None)
         else
           let totalTextLength :=
             foldl (λ sum len, sum + len) 0
                   ((λ msg, match Message.content msg with
                            | ContentString s => length s
                            | _ => 0
                            end) <$> messages) in
           startTranslation requestId totalTextLength model;;
           let shouldChunk := 2000 <? totalTextLength in
           if shouldChunk then
             handleChunkedTranslation requestBody model apiKey requestId
           else
             let processedMessages := processMessages messages in
             if ChatCompletionRequest.stream requestBody then
               handleStreamingChat processedMessages model
                 (ChatCompletionRequest.temperature requestBody)
                 (ChatCompletionRequest.max_tokens requestBody)
                 (Some apiKey) (Some requestId)
             else
               handleNonStreamingChat processedMessages model
                 (ChatCompletionRequest.temperature requestBody)
                 (ChatCompletionRequest.max_tokens requestBody)
                 (Some apiKey) (Some requestId)
     end)
    (λ error,
       failTranslation requestId (error_message error);;
       mret (createErrorResponse (lit "Internal server error") (Some 500))).


End ChunkedHandler.

(** ** TranslationLogger: queries *)

(** [getMetrics]. *)
Definition getMetrics (requestId : jsstring)
    : M (option TranslationLogger.TranslationMetrics) :=
  m ← get_metrics; mret (m !! requestId).

(** [clearMetrics]. *)
Definition clearMetrics : M unit := set_metrics ∅.

(** ** utils/model-parser.ts and utils/model-validation.ts *)

Module ModelParser.

Record ModelParseResult : Type := mkModelParseResult {
  originalModel : jsstring;
  hasOnlineSuffix : bool;
  isValid : bool;
  error : option jsstring
}.

Record WebSearchConfig : Type := mkWebSearchConfig {
  webSearch : bool;
  numOfSite : float;
  maxWord : float
}.

(** The two variables [getWebSearchConfig] reads from the environment;
    [None] is a variable that is not set. *)
Record Env : Type := mkEnv {
  WEB_SEARCH_NUM_OF_SITE : option jsstring;
  WEB_SEARCH_MAX_WORD : option jsstring
}.

Definition ONLINE_SUFFIX : jsstring := lit ":online".
Definition DEFAULT_NUM_OF_SITE : float := 1%float.
Definition DEFAULT_MAX_WORD : float := 500%float.

(** [s.endsWith(suffix)]. *)
Definition endsWith (s suffix : jsstring) : bool :=
  if length suffix <=? length s
  then bool_decide (drop (length s - length suffix) s = suffix)
  else false.

(** [(s.match(/:/g) || []).length]. *)
Definition colonCount (s : jsstring) : nat :=
  length (filter (λ c, c = 58%N) s).

(** What [parseModelName] and [validateModelAndMessages] take from other
    modules and from the language: the model tables, [parseInt(s, 10)], and
    the helpers of [message-processing] and [model-capabilities]. *)
Class Tables : Type := {
  RETRIEVAL_SUPPORTED_MODELS : list jsstring;
  parseInt : jsstring → float;
  processMessagesWithImageCheck : list Message.t → list Message.t * bool;
  supportsVision : jsstring → bool
}.

Inductive ValidationFailure : Type :=
  | ValidationError (message param code : jsstring)
  | ModelNotFoundError (model : jsstring).

Record ParsedConfig : Type := mkParsedConfig {
  cleanModel : jsstring;
  webSearchConfig : option WebSearchConfig;
  config_error : option jsstring
}.

Record ValidatedModel : Type := mkValidatedModel {
  validated_cleanModel : jsstring;
  validated_webSearchConfig : option WebSearchConfig;
  processedMessages : list Message.t
}.

Section Parser.

Context `{Tables}.

(** [validateModelSupportsWebSearch]. *)
Definition validateModelSupportsWebSearch (model : jsstring) : bool :=
  existsb (λ known, bool_decide (known = model)) RETRIEVAL_SUPPORTED_MODELS.

Definition invalid_format : ModelParseResult :=
  {| originalModel := [];
     hasOnlineSuffix := false;
     isValid := false;
     error := Some (lit "Invalid model name format. Only ':online' suffix is supported") |}.

(** [parseModelName] on a string. *)
Definition parseModelName (modelName : jsstring) : ModelParseResult :=
  if negb (truthy modelName) then
    {| originalModel := [];
       hasOnlineSuffix := false;
       isValid := false;
       error := Some (lit "Model name cannot be empty") |}
  else
    let trimmedModel := trim modelName in
    let colonCount := colonCount trimmedModel in
    if 1 <? colonCount then invalid_format
    else if endsWith trimmedModel ONLINE_SUFFIX then
      let originalModel :=
        take (length trimmedModel - length ONLINE_SUFFIX) trimmedModel in
      if negb (truthy originalModel) then
        {| originalModel := [];
           hasOnlineSuffix := true;
           isValid := false;
           error := Some (lit "Model name cannot be empty") |}
      else if negb (validateModelSupportsWebSearch originalModel) then
        {| originalModel := originalModel;
           hasOnlineSuffix := true;
           isValid := false;
           error := Some (lit "Model '" ++ originalModel
                          ++ lit "' does not support web search functionality") |}
      else
        {| originalModel := originalModel;
           hasOnlineSuffix := true;
           isValid := true;
           error := None |}
    else if includes trimmedModel 58%N then invalid_format
    else
      {| originalModel := trimmedModel;
         hasOnlineSuffix := false;
         isValid := true;
         error := None |}.

(** [Number.isNaN(n) || n <= 0 ? fallback : n]. *)
Definition positive_or (n fallback : float) : float :=
  if PrimFloat.is_nan n || (n <=? 0)%float then fallback else n.

(** [env?.NAME ? parseInt(env.NAME, 10) : fallback]. *)
Definition parsed_or (variable : option jsstring) (fallback : float) : float :=
  match variable with
  | Some s => if truthy s then parseInt s else fallback
  | None => fallback
  end.

(** [getWebSearchConfig]; [None] is a call without [env]. *)
Definition getWebSearchConfig (env : option Env) : WebSearchConfig :=
  let numOfSite :=
    parsed_or (env ≫= WEB_SEARCH_NUM_OF_SITE) DEFAULT_NUM_OF_SITE in
  let maxWord :=
    parsed_or (env ≫= WEB_SEARCH_MAX_WORD) DEFAULT_MAX_WORD in
  {| webSearch := true;
     numOfSite := positive_or numOfSite DEFAULT_NUM_OF_SITE;
     maxWord := positive_or maxWord DEFAULT_MAX_WORD |}.

(** [parseAndGetConfig]. *)
Definition parseAndGetConfig (modelName : jsstring) (env : option Env)
    : ParsedConfig :=
  let parseResult := parseModelName modelName in
  if negb (isValid parseResult) then
    {| cleanModel := [];
       webSearchConfig := None;
       config_error := error parseResult |}
  else if hasOnlineSuffix parseResult then
    {| cleanModel := originalModel parseResult;
       webSearchConfig := Some (getWebSearchConfig env);
       config_error := None |}
  else
    {| cleanModel := originalModel parseResult;
       webSearchConfig := None;
       config_error := None |}.

(** [validateModelAndMessages]: the left summand is what it throws.  The
    test [if (parseResult.error)] passes for an error that is a non-empty
    string. *)
Definition validateModelAndMessages `{Platform} (rawModel : jsstring)
    (messages : list Message.t) (env : Env)
    : ValidationFailure + ValidatedModel :=
  let parseResult := parseAndGetConfig rawModel (Some env) in
  if truthy (or_else (config_error parseResult) []) then
    inl (ValidationError (or_else (config_error parseResult) [])
           (lit "model") (lit "model_not_found"))
  else
    let cleanModel := cleanModel parseResult in
    let webSearchConfig := webSearchConfig parseResult in
    if negb (model_supported cleanModel) then
      inl (ModelNotFoundError cleanModel)
    else
      let '(processedMessages, hasImages) :=
        processMessagesWithImageCheck messages in
      if hasImages && negb (supportsVision cleanModel) then
        inl (ValidationError
               (lit "Model '" ++ cleanModel
                ++ lit "' does not support image inputs")
               (lit "model") (lit "model_not_supported"))
      else inr (mkValidatedModel cleanModel webSearchConfig processedMessages).

End Parser.

End ModelParser.

(** * Properties *)

(** ** Auxiliary notions used in the statements *)

(** The end of the window that [chunkText] opens at [startIndex]. *)
Definition window_end (text : jsstring) (maxChunkSize startIndex : nat) : nat :=
  let nominal := (startIndex + maxChunkSize) `min` length text in
  if nominal <? length text then
    let sentenceEnd := TextChunker.findSentenceBreak text startIndex nominal in
    if TextChunker.beyond_threshold sentenceEnd startIndex maxChunkSize
    then sentenceEnd else nominal
  else nominal.

(** The segments cut from [startIndex] on, before [totalChunks] is set:
    one per window, each window starting where the previous one ends. *)
Inductive windows (text : jsstring) (maxChunkSize : nat)
    : nat → nat → list TextChunk → Prop :=
  | windows_done startIndex chunkIndex :
      length text ≤ startIndex →
      windows text maxChunkSize startIndex chunkIndex []
  | windows_next startIndex chunkIndex chunks :
      startIndex < length text →
      windows text maxChunkSize (window_end text maxChunkSize startIndex)
              (S chunkIndex) chunks →
      windows text maxChunkSize startIndex chunkIndex
        ({| id := lit "chunk-" ++ of_number chunkIndex;
            content := substring text startIndex
                         (window_end text maxChunkSize startIndex);
            index := chunkIndex;
            totalChunks := 0;
            originalLength := length text |} :: chunks).

(** [contents] are consecutive slices of [text]: the first starts at
    [start], each next one starts where the previous one ends, and the
    last one ends with the text. *)
Fixpoint adjacent_slices (text : jsstring) (start : nat)
    (contents : list jsstring) : Prop :=
  match contents with
  | [] => start = length text
  | s :: contents' =>
      ∃ stop, start ≤ stop ≤ length text
              ∧ s = substring text start stop
              ∧ adjacent_slices text stop contents'
  end.

(** The reassembly the specification describes: the overlap is looked for
    between the text assembled so far and the next segment. *)
Fixpoint reassemble_against_result (result : jsstring) (rest : list TextChunk)
    : jsstring :=
  match rest with
  | [] => result
  | next :: rest' =>
      let overlap := TextChunker.findOverlap result (content next) in
      reassemble_against_result (result ++ drop overlap (content next)) rest'
  end.

Definition reassemble_as_specified (chunks : list TextChunk) : jsstring :=
  match TextChunker.sort_by_index chunks with
  | [] => []
  | first :: rest => reassemble_against_result (content first) rest
  end.

(** What [reconstructText] appends for each segment after the first: the
    segment without its overlap with the segment before it. *)
Fixpoint remainders (previous : TextChunk) (rest : list TextChunk)
    : list jsstring :=
  match rest with
  | [] => []
  | current :: rest' =>
      drop (TextChunker.findOverlap (content previous) (content current))
           (content current)
      :: remainders current rest'
  end.

(** No segment of [rest] begins with what the segment before it ends
    with, [previous] being the segment before the first. *)
Fixpoint overlap_free (previous : TextChunk) (rest : list TextChunk) : Prop :=
  match rest with
  | [] => True
  | current :: rest' =>
      TextChunker.findOverlap (content previous) (content current) = 0
      ∧ overlap_free current rest'
  end.

(** A block of subtitle text with something left after [trim]. *)
Definition visible (block : jsstring) : bool :=
  existsb (λ c, negb (is_trim_space c)) block.

(** What holds of the loop state after any number of lines. *)
Definition loop_invariant (originalLength0 : nat)
    (st : SubtitleChunker.loop_state) : Prop :=
  let '(chunks, currentChunk, chunkIndex) := st in
  chunkIndex = length chunks
  ∧ index <$> chunks = seq 0 (length chunks)
  ∧ Forall (λ c, originalLength c = originalLength0) chunks.

(** The same, when every block read so far has a visible character: no
    segment is empty and the buffer is empty or visible. *)
Definition visible_invariant (st : SubtitleChunker.loop_state) : Prop :=
  let '(chunks, currentChunk, _) := st in
  Forall (λ c, content c ≠ []) chunks
  ∧ (currentChunk = [] ∨ visible currentChunk = true).

(** *** Notions for the effects *)

(** A computation that returns from every world. *)
Definition returns_always {A} (m : M A) : Prop :=
  ∀ w, ∃ a w', m w = (Returns a, w').

(** A computation that, from every world, returns or throws. *)
Definition no_hang {A} (m : M A) : Prop :=
  ∀ w, ∃ w', (∃ a, m w = (Returns a, w')) ∨ (∃ e, m w = (Throws e, w')).

(** *** Notions for the handler *)

Section HandlerNotions.

Context `{Platform}.

(** The request [handleChunkedTranslation] sends for one segment. *)
Definition segment_call (requestBody : ChatCompletionRequest.t)
    (model apiKey : jsstring) (chunk : TextChunk) : BackendCall :=
  mkBackendCall [Message.mk (lit "user") (ContentString (content chunk))]
    model
    (ChatCompletionRequest.temperature requestBody)
    (ChatCompletionRequest.max_tokens requestBody)
    false (Some apiKey).

(** What the [k]-th request to the backend gives a caller that reads the
    body as JSON: the parsed data, or what was thrown on the way. *)
Definition backend_json (k : nat) (call : BackendCall) : Thrown + BackendData :=
  match sendChatRequest k call with
  | inl e => inl e
  | inr response => response_json response
  end.

(** The text each message contributes, joined by single spaces. *)
Definition textContent_of (messages : list Message.t) : jsstring :=
  join (lit " ") (string_content <$> messages).

(** The segments [handleChunkedTranslation] cuts from the text. *)
Definition segments_of (textContent : jsstring) : option (list TextChunk) :=
  if detectSubtitles textContent
  then Some (SubtitleChunker.chunkSubtitles textContent 1500)
  else TextChunker.chunkText textContent 2000.

(** [totalTextLength] of [handleChatCompletionsWithBody]. *)
Definition totalTextLength_of (messages : list Message.t) : nat :=
  foldl (λ sum len, sum + len) 0
        ((λ msg, match Message.content msg with
                 | ContentString s => length s
                 | _ => 0
                 end) <$> messages).

(** The world once [handleChatCompletionsWithBody] has drawn the request
    id and recorded the start of the translation. *)
Definition world_started (w : World) (textLength : nat) (model : jsstring)
    : World :=
  mkWorld
    (TranslationLogger.startTranslation (generateUUID (uuid_reads w))
       textLength model (Date_now (clock_reads w)) (metrics w))
    (S (clock_reads w)) (S (uuid_reads w)) (backend_calls w) (delays w)
    (sink w).

(** The world after [n] segment calls that succeeded, followed or not by
    one that failed: each success reads the clock and draws a UUID once. *)
Definition world_after_calls (w : World) (calls : list BackendCall)
    (n : nat) (waits : list nat) : World :=
  mkWorld (metrics w) (clock_reads w + n) (uuid_reads w + n)
          (backend_calls w ++ calls) (delays w ++ waits) (sink w).

(** The frames written for the pieces of a source, the first UUID being
    the [u]-th and the first clock reading the [c]-th. *)
Fixpoint delta_frames (model : jsstring) (u c : nat)
    (pieces : list (list Byte.byte)) : list (list Byte.byte) :=
  match pieces with
  | [] => []
  | piece :: pieces' =>
      sse_frame (returnChunk (generateUUID u) (Date_now c) model
                             (TextDecoder_decode piece))
      :: delta_frames model (S u) (S c) pieces'
  end.

End HandlerNotions.

(** *** A platform and inputs to run the handler on *)

Definition sample_decode (bytes : list Byte.byte) : jsstring := Byte.to_N <$> bytes.

Definition sample_encode (s : jsstring) : list Byte.byte :=
  (λ c, default Byte.x00 (Byte.of_N c)) <$> s.

Definition sample_stringify (frame : CompletionChunk) : jsstring :=
  chunk_id frame ++ lit "|" ++ default (lit "{}") (delta_content frame)
  ++ lit "|" ++ default (lit "null") (finish_reason frame).

Definition Hola : list Byte.byte := [Byte.x48; Byte.x6f; Byte.x6c; Byte.x61].

(** The third request fails, every other one is answered. *)
Definition sample_platform : Platform := {|
  Date_now := λ k, (1700000000000 + Z.of_nat k)%Z;
  generateUUID := λ k, lit "uuid-" ++ of_number k;
  sendChatRequest := λ k call,
    if k =? 2 then inl (ErrorObject (lit "fetch failed"))
    else inr {| response_json :=
                  inr {| resultObject0 := Some (lit "ok");
                         data_content := None;
                         usage_prompt_tokens := None;
                         usage_completion_tokens := None;
                         usage_total_tokens := None |};
                response_body := Some [Piece Hola] |};
  writer_write := λ _ _, None;
  TextDecoder_decode := sample_decode;
  TextEncoder_encode := sample_encode;
  JSON_stringify := sample_stringify;
  extractImageFromContent := λ _, None;
  ALL_ONE_MIN_AVAILABLE_MODELS := [lit "gpt-4o-mini"];
  DEFAULT_MODEL := lit "gpt-4o-mini";
  default_error_status := 400;
  type_error_message := lit "Cannot read properties of undefined"
|}.

Definition sample_world : World :=
  mkWorld ∅ 0 0 [] [] (mkSink [] false None).

(** A request of 9000 letters, which [chunkText] cuts into five segments. *)
Definition sample_long_request (stream : bool) : ChatCompletionRequest.t :=
  ChatCompletionRequest.mk
    (Some [Message.mk (lit "user") (ContentString (repeat 97%N (9 * 1000)))])
    None stream None None.

Definition sample_segments : list TextChunk :=
  (λ k, mkTextChunk (lit "chunk-" ++ of_number k)
                    (repeat 97%N (if k <? 4 then 2000 else 1000))
                    k 5 (9 * 1000)) <$> seq 0 5.

Definition sample_short_request (stream : bool) : ChatCompletionRequest.t :=
  ChatCompletionRequest.mk
    (Some [Message.mk (lit "user") (ContentString (lit "Hello"))])
    None stream None None.

(** What the scan keeps: the initial state, or a position behind a
    sentence ender with its positive score. *)
Definition scan_kept (searchText : jsstring) (start target : nat)
    (best : nat * nat) : Prop :=
  best = (target, 0)
  ∨ (0 < best.2
     ∧ best.2 = TextChunker.calculateBreakScore best.1 target
     ∧ ∃ i c, best.1 = start + i + 1
              ∧ searchText !! i = Some c
              ∧ includes TextChunker.sentenceEnders c = true).


(** What holds of the sizes in the loop state of [chunkSubtitles]: a
    segment, like the buffer, is a single block of the input or at most
    two code units longer than the maximum. *)
Definition sizes_invariant (lines : list jsstring) (maxChunkSize : nat)
    (st : SubtitleChunker.loop_state) : Prop :=
  let '(chunks, currentChunk, _) := st in
  Forall (λ c, length (content c) ≤ maxChunkSize + 2
               ∨ ∃ block, block ∈ lines ∧ content c = trim block) chunks
  ∧ (currentChunk = [] ∨ currentChunk ∈ lines
     ∨ length currentChunk ≤ maxChunkSize + 2).

(** What [currentChunk += (currentChunk ? '\n\n' : '') + line] makes of
    the buffer. *)
Definition glue (currentChunk line : jsstring) : jsstring :=
  currentChunk ++ (if truthy currentChunk then [LF; LF] else []) ++ line.

(** What holds of the blocks in the loop state of [chunkSubtitles] once
    the blocks [done] are read: they are grouped in their order, every
    segment is the trimmed buffer of one group, and the buffer is that of
    the last group. *)
Definition groups_invariant (done : list jsstring)
    (st : SubtitleChunker.loop_state) : Prop :=
  let '(chunks, currentChunk, _) := st in
  ∃ groups last,
    concat (groups ++ [last]) = done
    ∧ content <$> chunks = (λ group, trim (foldl glue [] group)) <$> groups
    ∧ currentChunk = foldl glue [] last.

(** The text [handleChunkedTranslation] takes from the [k]-th request
    to the backend: the content of the [chat.completion] object that the
    single-segment call builds from the backend's answer. *)
Definition translated_text `{Platform} (k : nat) (call : BackendCall)
    : jsstring :=
  match backend_json k call with
  | inr data =>
      or_else (resultObject0 data)
        (or_else (data_content data) (lit "No response generated"))
  | inl _ => []
  end.

(** A backend whose first answer is a stream that breaks behind its
    first piece, and whose later answers have no body. *)
Definition sample_broken_platform : Platform := {|
  Date_now := λ k, (1700000000000 + Z.of_nat k)%Z;
  generateUUID := λ k, lit "uuid-" ++ of_number k;
  sendChatRequest := λ k call,
    inr {| response_json :=
             inr {| resultObject0 := Some (lit "ok");
                    data_content := None;
                    usage_prompt_tokens := None;
                    usage_completion_tokens := None;
                    usage_total_tokens := None |};
           response_body :=
             if k =? 0
             then Some [Piece Hola;
                        ReadFails (ErrorObject (lit "connection reset"))]
             else None |};
  writer_write := λ _ _, None;
  TextDecoder_decode := sample_decode;
  TextEncoder_encode := sample_encode;
  JSON_stringify := sample_stringify;
  extractImageFromContent := λ _, None;
  ALL_ONE_MIN_AVAILABLE_MODELS := [lit "gpt-4o-mini"];
  DEFAULT_MODEL := lit "gpt-4o-mini";
  default_error_status := 400;
  type_error_message := lit "Cannot read properties of undefined"
|}.

(** A record that was opened for the request id [uuid-0]. *)
Definition sample_entry : TranslationLogger.TranslationMetrics :=
  TranslationLogger.mkMetrics (lit "uuid-0") 1700000000000 None None 5 None
    (lit "gpt-4o-mini") TranslationLogger.started None.

(** A world in which [calls] requests were sent before and the record
    [sample_entry] is open. *)
Definition sample_world_after (calls : nat) : World :=
  mkWorld {[ lit "uuid-0" := sample_entry ]} 1 1
    (repeat (mkBackendCall [] (lit "gpt-4o-mini") None None false None) calls)
    [] (mkSink [] false None).

(** Tables to run the parser on: one model with web search, a
    [parseInt] that reads a run of decimal digits, no images. *)
Definition sample_parseInt (s : jsstring) : float :=
  if truthy s then
    if forallb SubtitlePatterns.is_digit s
    then number (foldl (λ n c, 10 * n + (N.to_nat c - 48)) 0 s)
    else PrimFloat.nan
  else PrimFloat.nan.

Definition sample_tables : ModelParser.Tables := {|
  ModelParser.RETRIEVAL_SUPPORTED_MODELS := [lit "gpt-4o-mini"];
  ModelParser.parseInt := sample_parseInt;
  ModelParser.processMessagesWithImageCheck := λ messages, (messages, false);
  ModelParser.supportsVision := λ _, false
|}.

(** ** Strings *)

Section Strings.

Implicit Types s t : jsstring.

Lemma substring_within s a b :
  a ≤ b → b ≤ length s → substring s a b = take (b - a) (drop a s).
Proof.
  intros Hab Hb. unfold substring.
  replace (a `min` length s) with a by lia.
  replace (b `min` length s) with b by lia.
  replace (a `max` b) with b by lia.
  replace (a `min` b) with a by lia.
  reflexivity.
Qed.

Lemma length_substring s a b :
  length (substring s a b)
  = (a `min` length s) `max` (b `min` length s)
    - (a `min` length s) `min` (b `min` length s).
Proof.
  unfold substring. rewrite length_take, length_drop. lia.
Qed.

Lemma substring_prefix s b : b ≤ length s → substring s 0 b = take b s.
Proof.
  intros Hb. rewrite substring_within by lia.
  rewrite Nat.sub_0_r. reflexivity.
Qed.

Lemma substring_from_within s a : a ≤ length s → substring_from s a = drop a s.
Proof.
  intros Ha. unfold substring_from. replace (a `min` length s) with a by lia.
  reflexivity.
Qed.

Lemma substring_app_drop s a b :
  a ≤ b → b ≤ length s → substring s a b ++ drop b s = drop a s.
Proof.
  intros Hab Hb. rewrite substring_within by lia.
  replace (drop b s) with (drop (b - a) (drop a s)).
  - apply take_drop.
  - rewrite drop_drop. f_equal. lia.
Qed.

Lemma substring_nonempty s a b :
  a < b → b ≤ length s → substring s a b ≠ [].
Proof.
  intros Hab Hb Hnil. apply (f_equal length) in Hnil.
  rewrite length_substring in Hnil. simpl in Hnil. lia.
Qed.

End Strings.

(** ** TextChunker: the windows of [chunkText] *)

Section Windows.

Import TextChunker.

Variable text : jsstring.
Variable maxChunkSize : nat.

Lemma scan_step_range searchText start target best i :
  best.1 = target ∨ start < best.1 ≤ start + length searchText →
  (scan_step searchText start target best i).1 = target
  ∨ start < (scan_step searchText start target best i).1
            ≤ start + length searchText.
Proof.
  intros Hbest. unfold scan_step.
  repeat case_match; try exact Hbest.
  right. simpl.
  match goal with Hc : _ !! _ = Some _ |- _ => apply lookup_lt_Some in Hc end.
  lia.
Qed.

Lemma scan_range searchText start target offsets best :
  best.1 = target ∨ start < best.1 ≤ start + length searchText →
  (foldl (scan_step searchText start target) best offsets).1 = target
  ∨ start < (foldl (scan_step searchText start target) best offsets).1
            ≤ start + length searchText.
Proof.
  revert best. induction offsets as [|i offsets IH]; intros best Hbest.
  - exact Hbest.
  - simpl. apply IH. apply scan_step_range. exact Hbest.
Qed.

(** The break found is the target itself or a position behind a sentence
    ender of the searched text. *)
Lemma findSentenceBreak_range start target :
  findSentenceBreak text start target = target
  ∨ start < findSentenceBreak text start target
            ≤ start + length (substring text start (target + 200)).
Proof.
  unfold findSentenceBreak. apply scan_range. left. reflexivity.
Qed.

Lemma findSentenceBreak_bounds start target :
  start < target → target ≤ length text →
  start < findSentenceBreak text start target
  ∧ findSentenceBreak text start target ≤ length text
  ∧ findSentenceBreak text start target ≤ target + 200.
Proof.
  intros Hst Ht.
  destruct (findSentenceBreak_range start target) as [-> | [Hlo Hhi]];
    [lia|].
  rewrite length_substring in Hhi. lia.
Qed.

Lemma window_end_bounds start :
  0 < maxChunkSize → start < length text →
  start < window_end text maxChunkSize start
  ∧ window_end text maxChunkSize start ≤ length text.
Proof.
  intros Hm Hs. unfold window_end.
  destruct (_ <? length text) eqn:Hnom; [|lia].
  apply Nat.ltb_lt in Hnom.
  destruct (beyond_threshold _ _ _); [|lia].
  pose proof (findSentenceBreak_bounds start
                ((start + maxChunkSize) `min` length text)) as Hb.
  lia.
Qed.

(** One turn of the loop. *)
Lemma chunkText_loop_turn fuel start idx :
  start < length text →
  chunkText_loop (S fuel) text maxChunkSize start idx
  = ({| id := lit "chunk-" ++ of_number idx;
        content := substring text start (window_end text maxChunkSize start);
        index := idx;
        totalChunks := 0;
        originalLength := length text |} ::.)
    <$> chunkText_loop fuel text maxChunkSize
          (window_end text maxChunkSize start) (S idx).
Proof.
  intros Hs. simpl.
  destruct (length text <=? start) eqn:Hle; [apply Nat.leb_le in Hle; lia|].
  fold (window_end text maxChunkSize start).
  replace ((window_end text maxChunkSize start - OVERLAP_SIZE)
             `max` window_end text maxChunkSize start)
    with (window_end text maxChunkSize start) by lia.
  reflexivity.
Qed.

Lemma chunkText_loop_end fuel start idx :
  length text ≤ start →
  chunkText_loop fuel text maxChunkSize start idx = Some [].
Proof.
  intros Hs. destruct fuel; simpl;
    (destruct (length text <=? start) eqn:Hle;
     [reflexivity | apply Nat.leb_gt in Hle; lia]).
Qed.

(** With a positive maximum the loop ends, and it has cut the text
    window by window. *)
Lemma chunkText_loop_windows :
  0 < maxChunkSize →
  ∀ fuel start idx,
    length text - start ≤ fuel →
    ∃ chunks,
      chunkText_loop fuel text maxChunkSize start idx = Some chunks
      ∧ windows text maxChunkSize start idx chunks.
Proof.
  intros Hm fuel. induction fuel as [|fuel IH]; intros start idx Hfuel.
  - exists []. split; [apply chunkText_loop_end; lia|].
    constructor. lia.
  - destruct (decide (length text ≤ start)) as [Hend|Hin].
    + exists []. split; [apply chunkText_loop_end; lia|].
      constructor. lia.
    + assert (start < length text) as Hs by lia.
      destruct (window_end_bounds start Hm Hs) as [Hlo Hhi].
      destruct (IH (window_end text maxChunkSize start) (S idx))
        as (chunks & Hrun & Hwin); [lia|].
      eexists. split.
      * rewrite chunkText_loop_turn by exact Hs. rewrite Hrun. reflexivity.
      * constructor; assumption.
Qed.

(** *** What the windows say about the segments *)

Lemma windows_adjacent start idx chunks :
  0 < maxChunkSize →
  windows text maxChunkSize start idx chunks →
  start ≤ length text →
  adjacent_slices text start (content <$> chunks).
Proof.
  intros Hm Hwin. induction Hwin as [start idx Hend | start idx chunks Hs _ IH];
    intros Hle.
  - simpl. lia.
  - destruct (window_end_bounds start Hm Hs) as [Hlo Hhi].
    simpl. exists (window_end text maxChunkSize start).
    split; [lia|]. split; [reflexivity|]. apply IH. lia.
Qed.

Lemma windows_nonempty start idx chunks :
  0 < maxChunkSize →
  windows text maxChunkSize start idx chunks →
  Forall (λ c, content c ≠ []) chunks.
Proof.
  intros Hm Hwin. induction Hwin as [|start idx chunks Hs _ IH].
  - constructor.
  - destruct (window_end_bounds start Hm Hs) as [Hlo Hhi].
    constructor; [|exact IH]. simpl. apply substring_nonempty; lia.
Qed.

Lemma windows_index start idx chunks :
  windows text maxChunkSize start idx chunks →
  index <$> chunks = seq idx (length chunks).
Proof.
  intros Hwin. induction Hwin as [|start idx chunks Hs _ IH].
  - reflexivity.
  - rewrite fmap_cons, IH. reflexivity.
Qed.

Lemma windows_originalLength start idx chunks :
  windows text maxChunkSize start idx chunks →
  Forall (λ c, originalLength c = length text) chunks.
Proof.
  intros Hwin. induction Hwin as [|start idx chunks Hs _ IH];
    constructor; [reflexivity | exact IH].
Qed.

(** The window of the [k]-th segment starts after the segments before it. *)
Lemma windows_lookup start idx chunks k c :
  0 < maxChunkSize →
  windows text maxChunkSize start idx chunks →
  start ≤ length text →
  chunks !! k = Some c →
  let startIndex := start + length (concat (content <$> take k chunks)) in
  startIndex < length text
  ∧ content c = substring text startIndex
                  (window_end text maxChunkSize startIndex).
Proof.
  intros Hm Hwin. revert k.
  induction Hwin as [|start idx chunks Hs _ IH]; intros k Hle Hk.
  - discriminate.
  - destruct (window_end_bounds start Hm Hs) as [Hlo Hhi].
    destruct k as [|k].
    + injection Hk as <-. simpl. rewrite Nat.add_0_r. split; [lia|reflexivity].
    + rewrite lookup_cons in Hk. rewrite firstn_cons, fmap_cons.
      cbn [concat content]. rewrite length_app, length_substring.
      replace (start + ((start `min` length text)
                        `max` (window_end text maxChunkSize start `min` length text)
                        - (start `min` length text)
                          `min` (window_end text maxChunkSize start `min` length text)
                        + length (concat (content <$> take k chunks))))
        with (window_end text maxChunkSize start
              + length (concat (content <$> take k chunks))) by lia.
      apply IH; [lia | exact Hk].
Qed.

End Windows.

Lemma adjacent_slices_concat text start contents :
  adjacent_slices text start contents →
  start ≤ length text →
  concat contents = drop start text.
Proof.
  revert start. induction contents as [|s contents IH]; intros start Hadj Hle.
  - simpl in *. subst. rewrite drop_all. reflexivity.
  - destruct Hadj as (stop & [Hlo Hhi] & -> & Hrest). simpl.
    rewrite (IH stop Hrest Hhi). apply substring_app_drop; assumption.
Qed.

(** *** [totalChunks] is set last *)

Lemma update_totalChunks_length chunks :
  length (update_totalChunks chunks) = length chunks.
Proof. unfold update_totalChunks. apply length_fmap. Qed.

Lemma update_totalChunks_content chunks :
  content <$> update_totalChunks chunks = content <$> chunks.
Proof.
  unfold update_totalChunks. rewrite <- list_fmap_compose. reflexivity.
Qed.

Lemma update_totalChunks_index chunks :
  index <$> update_totalChunks chunks = index <$> chunks.
Proof.
  unfold update_totalChunks. rewrite <- list_fmap_compose. reflexivity.
Qed.

Lemma update_totalChunks_total chunks :
  Forall (λ c, totalChunks c = length chunks) (update_totalChunks chunks).
Proof.
  unfold update_totalChunks. apply Forall_fmap, Forall_true. reflexivity.
Qed.

Lemma update_totalChunks_originalLength chunks n :
  Forall (λ c, originalLength c = n) chunks →
  Forall (λ c, originalLength c = n) (update_totalChunks chunks).
Proof.
  intros Hall. unfold update_totalChunks. apply Forall_fmap.
  eapply Forall_impl; [exact Hall|]. intros c Hc. exact Hc.
Qed.

Lemma update_totalChunks_lookup chunks k c :
  update_totalChunks chunks !! k = Some c →
  ∃ c0, chunks !! k = Some c0 ∧ content c = content c0 ∧ index c = index c0.
Proof.
  unfold update_totalChunks. rewrite list_lookup_fmap.
  destruct (chunks !! k) as [c0|]; [|discriminate].
  simpl. intros [= <-]. exists c0. auto.
Qed.

(** [chunkText] on a text longer than the maximum. *)
Lemma chunkText_long text maxChunkSize :
  0 < maxChunkSize → maxChunkSize < length text →
  ∃ chunks,
    TextChunker.chunkText text maxChunkSize = Some (update_totalChunks chunks)
    ∧ windows text maxChunkSize 0 0 chunks.
Proof.
  intros Hm Hlong.
  destruct (chunkText_loop_windows text maxChunkSize Hm (length text) 0 0)
    as (chunks & Hrun & Hwin); [lia|].
  exists chunks. split; [|exact Hwin].
  unfold TextChunker.chunkText.
  destruct (length text <=? maxChunkSize) eqn:Hle;
    [apply Nat.leb_le in Hle; lia|].
  rewrite Hrun. reflexivity.
Qed.

Lemma chunkText_short text maxChunkSize :
  length text ≤ maxChunkSize →
  TextChunker.chunkText text maxChunkSize
  = Some [ {| id := lit "chunk-0"; content := text; index := 0;
              totalChunks := 1; originalLength := length text |} ].
Proof.
  intros Hle. unfold TextChunker.chunkText.
  destruct (length text <=? maxChunkSize) eqn:Hb;
    [reflexivity | apply Nat.leb_gt in Hb; lia].
Qed.

(** ** SubtitleChunker *)

Section Subtitles.

Import SubtitleChunker.

Lemma dropWhile_keeps {A} (p : A → bool) (l : list A) x :
  x ∈ l → p x = false → x ∈ dropWhile p l.
Proof.
  intros Hin Hp. induction l as [|y l IH]; [exact Hin|].
  simpl. destruct (p y) eqn:Hy; [|exact Hin].
  apply elem_of_cons in Hin as [-> | Hin]; [congruence|].
  apply IH. exact Hin.
Qed.

Lemma elem_of_rev {A} (l : list A) x : x ∈ l → x ∈ rev l.
Proof. rewrite !list_elem_of_In. apply in_rev. Qed.

Lemma visible_elem block :
  visible block = true ↔ ∃ c, c ∈ block ∧ is_trim_space c = false.
Proof.
  unfold visible. rewrite existsb_exists. split.
  - intros (c & Hin & Hc). exists c. rewrite list_elem_of_In.
    split; [exact Hin|]. destruct (is_trim_space c); [discriminate|reflexivity].
  - intros (c & Hin & Hc). exists c. rewrite <- list_elem_of_In.
    split; [exact Hin|]. rewrite Hc. reflexivity.
Qed.

Lemma trim_visible block : visible block = true → trim block ≠ [].
Proof.
  intros Hvis Hnil. apply visible_elem in Hvis as (c & Hin & Hc).
  unfold trim in Hnil.
  assert (c ∈ rev (dropWhile is_trim_space
                     (rev (dropWhile is_trim_space block)))) as Hc'.
  { apply elem_of_rev, dropWhile_keeps; [|exact Hc].
    apply elem_of_rev, dropWhile_keeps; assumption. }
  rewrite Hnil in Hc'. inversion Hc'.
Qed.

Lemma truthy_nonempty (s : jsstring) : truthy s = true ↔ s ≠ [].
Proof. destruct s; simpl; split; congruence. Qed.

Lemma line_step_invariant maxChunkSize n st line :
  loop_invariant n st → loop_invariant n (line_step maxChunkSize n st line).
Proof.
  destruct st as [[chunks currentChunk] chunkIndex].
  intros (Hidx & Hseq & Hlen). unfold line_step.
  destruct (_ && _); [|repeat split; assumption].
  repeat split.
  - rewrite length_app. simpl. lia.
  - rewrite fmap_app, length_app, seq_app, Hseq. simpl. subst. reflexivity.
  - apply Forall_app. split; [exact Hlen|]. constructor; [reflexivity|constructor].
Qed.

Lemma lines_invariant maxChunkSize n lines st :
  loop_invariant n st →
  loop_invariant n (foldl (line_step maxChunkSize n) st lines).
Proof.
  revert st. induction lines as [|line lines IH]; intros st Hst; [exact Hst|].
  simpl. apply IH, line_step_invariant, Hst.
Qed.

Lemma line_step_visible maxChunkSize n st line :
  visible line = true → visible_invariant st →
  visible_invariant (line_step maxChunkSize n st line).
Proof.
  destruct st as [[chunks currentChunk] chunkIndex].
  intros Hline (Hne & Hcur). unfold line_step.
  destruct (_ && _) eqn:Hflush.
  - apply andb_true_iff in Hflush as [_ Hpos]. apply Nat.ltb_lt in Hpos.
    split; [|right; exact Hline].
    apply Forall_app. split; [exact Hne|].
    constructor; [|constructor]. simpl. apply trim_visible.
    destruct Hcur as [-> | Hvis]; [simpl in Hpos; lia | exact Hvis].
  - split; [exact Hne|]. right.
    apply visible_elem in Hline as (c & Hin & Hc).
    apply visible_elem. exists c. split; [|exact Hc].
    apply elem_of_app. right. apply elem_of_app. right. exact Hin.
Qed.

Lemma lines_visible maxChunkSize n lines st :
  Forall (λ line, visible line = true) lines → visible_invariant st →
  visible_invariant (foldl (line_step maxChunkSize n) st lines).
Proof.
  revert st. induction lines as [|line lines IH]; intros st Hall Hst;
    [exact Hst|].
  inversion Hall; subst. simpl. apply IH; [assumption|].
  apply line_step_visible; assumption.
Qed.

End Subtitles.

(** ** The claims on segmentation *)

(** C5. Small-input identity: a text no longer than the maximum segment
    size is returned as exactly one segment, whose content is the text,
    with [index = 0] and [totalChunks = 1]. *)
Theorem chunkText_small_input (text : jsstring) (maxChunkSize : nat) :
  length text ≤ maxChunkSize →
  TextChunker.chunkText text maxChunkSize
  = Some [ {| id := lit "chunk-0";
              content := text;
              index := 0;
              totalChunks := 1;
              originalLength := length text |} ].
Proof. apply chunkText_short. Qed.

Lemma chunkText_small_input_witness :
  length (lit "Hello.") ≤ 2000
  ∧ TextChunker.chunkText (lit "Hello.") 2000
    = Some [ {| id := lit "chunk-0";
                content := lit "Hello.";
                index := 0;
                totalChunks := 1;
                originalLength := length (lit "Hello.") |} ].
Proof.
  split; [vm_compute; lia|].
  apply (chunkText_small_input (lit "Hello.") 2000). vm_compute. lia.
Defined.

(** C4. Segment run invariants: for either strategy the segments carry the
    indices 0, 1, ..., n-1 in this order, where n is the number of segments
    returned, every segment has [totalChunks = n], and every segment has
    [originalLength] equal to the length of the input. *)
Theorem segment_run_invariants :
  (∀ (text : jsstring) (maxChunkSize : nat),
     0 < maxChunkSize →
     ∃ chunks,
       TextChunker.chunkText text maxChunkSize = Some chunks
       ∧ index <$> chunks = seq 0 (length chunks)
       ∧ Forall (λ c, totalChunks c = length chunks
                      ∧ originalLength c = length text) chunks)
  ∧ (∀ (subtitles : jsstring) (maxChunkSize : nat),
       let chunks := SubtitleChunker.chunkSubtitles subtitles maxChunkSize in
       index <$> chunks = seq 0 (length chunks)
       ∧ Forall (λ c, totalChunks c = length chunks
                      ∧ originalLength c = length subtitles) chunks).
Proof.
  split.
  - intros text m Hm.
    destruct (decide (length text ≤ m)) as [Hshort|Hlong].
    + eexists. split; [apply chunkText_short, Hshort|].
      split; [reflexivity|]. repeat constructor.
    + destruct (chunkText_long text m Hm) as (chunks & Hrun & Hwin); [lia|].
      exists (update_totalChunks chunks). split; [exact Hrun|].
      rewrite update_totalChunks_index, update_totalChunks_length.
      split; [eapply windows_index, Hwin|].
      apply Forall_and. split; [apply update_totalChunks_total|].
      apply update_totalChunks_originalLength.
      eapply windows_originalLength, Hwin.
  - intros subtitles m. unfold SubtitleChunker.chunkSubtitles.
    pose proof (lines_invariant m (length subtitles)
                  (SubtitleChunker.split_blocks subtitles) ([], [], 0)) as Hinv.
    destruct (foldl _ _ _) as [[chunks currentChunk] chunkIndex].
    destruct Hinv as (Hidx & Hseq & Hlen);
      [repeat split; constructor|].
    cbv zeta.
    set (final := if truthy (trim currentChunk) then _ else _).
    assert (index <$> final = seq 0 (length final)
            ∧ Forall (λ c, originalLength c = length subtitles) final)
      as [Hseq' Hlen'].
    { subst final. destruct (truthy _); [|split; assumption]. split.
      - rewrite fmap_app, length_app, seq_app, Hseq. simpl. subst. reflexivity.
      - apply Forall_app. split; [exact Hlen|].
        constructor; [reflexivity|constructor]. }
    rewrite update_totalChunks_index, update_totalChunks_length.
    split; [exact Hseq'|].
    apply Forall_and. split; [apply update_totalChunks_total|].
    apply update_totalChunks_originalLength, Hlen'.
Qed.

Lemma segment_run_invariants_witness :
  0 < 4
  ∧ ∃ chunks,
      TextChunker.chunkText (lit "One. Two. Three.") 4 = Some chunks
      ∧ index <$> chunks = seq 0 (length chunks)
      ∧ Forall (λ c, totalChunks c = length chunks
                     ∧ originalLength c = length (lit "One. Two. Three."))
               chunks.
Proof.
  split; [lia|].
  apply (proj1 segment_run_invariants (lit "One. Two. Three.") 4). lia.
Defined.

(** C10. The plain-text chunker applies no overlap: the cursor update
    [Math.max(endIndex - OVERLAP_SIZE, endIndex)] is [endIndex], the segments
    are consecutive slices of the input in index order, and their contents
    concatenated give back the input. *)
Theorem chunkText_no_overlap :
  (∀ endIndex : nat,
     (endIndex - TextChunker.OVERLAP_SIZE) `max` endIndex = endIndex)
  ∧ (∀ (text : jsstring) (maxChunkSize : nat),
       0 < maxChunkSize →
       ∃ chunks,
         TextChunker.chunkText text maxChunkSize = Some chunks
         ∧ index <$> chunks = seq 0 (length chunks)
         ∧ adjacent_slices text 0 (content <$> chunks)
         ∧ concat (content <$> chunks) = text).
Proof.
  split; [intros; lia|].
  intros text m Hm.
  destruct (decide (length text ≤ m)) as [Hshort|Hlong].
  - eexists. split; [apply chunkText_short, Hshort|].
    split; [reflexivity|]. simpl. split; [|apply app_nil_r].
    exists (length text). split; [lia|].
    split; [|reflexivity].
    rewrite substring_prefix by lia. rewrite firstn_all. reflexivity.
  - destruct (chunkText_long text m Hm) as (chunks & Hrun & Hwin); [lia|].
    exists (update_totalChunks chunks). split; [exact Hrun|].
    rewrite update_totalChunks_index, update_totalChunks_length,
      update_totalChunks_content.
    assert (adjacent_slices text 0 (content <$> chunks)) as Hadj
      by (eapply windows_adjacent; [exact Hm | exact Hwin | lia]).
    split; [eapply windows_index, Hwin|]. split; [exact Hadj|].
    rewrite (adjacent_slices_concat text 0 _ Hadj) by lia. reflexivity.
Qed.

Lemma chunkText_no_overlap_witness :
  0 < 4
  ∧ ∃ chunks,
      TextChunker.chunkText (lit "One. Two. Three.") 4 = Some chunks
      ∧ index <$> chunks = seq 0 (length chunks)
      ∧ adjacent_slices (lit "One. Two. Three.") 0 (content <$> chunks)
      ∧ concat (content <$> chunks) = lit "One. Two. Three.".
Proof.
  split; [lia|].
  apply (proj2 chunkText_no_overlap (lit "One. Two. Three.") 4). lia.
Defined.

Lemma line_step_empty_block maxChunkSize n st :
  visible_invariant st →
  visible_invariant (SubtitleChunker.line_step maxChunkSize n st []).
Proof.
  destruct st as [[chunks currentChunk] chunkIndex].
  intros (Hne & Hcur). unfold SubtitleChunker.line_step.
  destruct (_ && _) eqn:Hflush.
  - apply andb_true_iff in Hflush as [_ Hpos]. apply Nat.ltb_lt in Hpos.
    split; [|left; reflexivity].
    apply Forall_app. split; [exact Hne|].
    constructor; [|constructor]. simpl. apply trim_visible.
    destruct Hcur as [-> | Hvis]; [simpl in Hpos; lia | exact Hvis].
  - split; [exact Hne|].
    destruct Hcur as [-> | Hvis]; [left; reflexivity | right].
    apply visible_elem in Hvis as (c & Hin & Hc).
    apply visible_elem. exists c. split; [|exact Hc].
    apply elem_of_app. left. exact Hin.
Qed.

Lemma lines_visible_or_empty maxChunkSize n lines st :
  Forall (λ line : jsstring, line = [] ∨ visible line = true) lines →
  visible_invariant st →
  visible_invariant (foldl (SubtitleChunker.line_step maxChunkSize n) st lines).
Proof.
  revert st. induction lines as [|line lines IH]; intros st Hall Hst;
    [exact Hst|].
  inversion Hall as [|? ? Hline Hrest]; subst. cbn [foldl].
  apply IH; [exact Hrest|].
  destruct Hline as [-> | Hline];
    [apply line_step_empty_block | apply line_step_visible]; assumption.
Qed.

(** C9. Segment content non-emptiness, as far as it holds: every segment
    that [chunkText] cuts from a non-empty text is non-empty, and every
    segment that [chunkSubtitles] builds is non-empty when no block of the
    text consists of white space only, a block being empty or holding a
    visible character. *)
Theorem segments_nonempty :
  (∀ (text : jsstring) (maxChunkSize : nat),
     text ≠ [] → 0 < maxChunkSize →
     ∃ chunks,
       TextChunker.chunkText text maxChunkSize = Some chunks
       ∧ Forall (λ c, content c ≠ []) chunks)
  ∧ (∀ (subtitles : jsstring) (maxChunkSize : nat),
       Forall (λ block : jsstring, block = [] ∨ visible block = true)
              (SubtitleChunker.split_blocks subtitles) →
       Forall (λ c, content c ≠ [])
              (SubtitleChunker.chunkSubtitles subtitles maxChunkSize)).
Proof.
  split.
  - intros text m Htext Hm.
    destruct (decide (length text ≤ m)) as [Hshort|Hlong].
    + eexists. split; [apply chunkText_short, Hshort|].
      constructor; [exact Htext|constructor].
    + destruct (chunkText_long text m Hm) as (chunks & Hrun & Hwin); [lia|].
      exists (update_totalChunks chunks). split; [exact Hrun|].
      apply (Forall_fmap content (λ s : jsstring, s ≠ [])).
      rewrite update_totalChunks_content.
      apply (Forall_fmap content (λ s : jsstring, s ≠ [])).
      eapply windows_nonempty; [exact Hm | exact Hwin].
  - intros subtitles m Hall. unfold SubtitleChunker.chunkSubtitles.
    pose proof (lines_visible_or_empty m (length subtitles) _ ([], [], 0) Hall)
      as Hinv.
    destruct (foldl _ _ _) as [[chunks currentChunk] chunkIndex].
    destruct Hinv as [Hne _]; [split; [constructor | left; reflexivity]|].
    cbv zeta.
    apply (Forall_fmap content (λ s : jsstring, s ≠ [])).
    rewrite update_totalChunks_content.
    apply (Forall_fmap content (λ s : jsstring, s ≠ [])).
    destruct (truthy (trim currentChunk)) eqn:Hfinal; [|exact Hne].
    apply Forall_app. split; [exact Hne|].
    constructor; [|constructor]. simpl. apply truthy_nonempty, Hfinal.
Qed.

(** A text with an empty block in the middle and a blank line at its end. *)
Lemma segments_nonempty_witness :
  let subtitles := lit "1" ++ [LF; LF; LF; LF] ++ lit "2" ++ [LF; LF] in
  (lit "One. Two. Three." ≠ [] ∧ 0 < 4
   ∧ ∃ chunks,
       TextChunker.chunkText (lit "One. Two. Three.") 4 = Some chunks
       ∧ Forall (λ c, content c ≠ []) chunks)
  ∧ (SubtitleChunker.split_blocks subtitles = [lit "1"; []; lit "2"; []]
     ∧ Forall (λ c, content c ≠ [])
         (SubtitleChunker.chunkSubtitles subtitles 1500)).
Proof.
  intros subtitles. split.
  - split; [discriminate|]. split; [lia|].
    apply (proj1 segments_nonempty (lit "One. Two. Three.") 4);
      [discriminate | lia].
  - split; [reflexivity|].
    apply (proj2 segments_nonempty subtitles 1500).
    apply (bool_decide_unpack _). vm_compute. reflexivity.
Defined.

(** The empty text is returned as one segment whose content is empty. *)
Lemma chunkText_empty_text_segment :
  ∃ chunks c,
    TextChunker.chunkText [] TextChunker.MAX_CHUNK_SIZE = Some chunks
    ∧ c ∈ chunks
    ∧ content c = [].
Proof.
  eexists _, _. split; [reflexivity|]. split; [apply list_elem_of_here|].
  reflexivity.
Qed.

(** Inside the loop of [chunkSubtitles] a buffer of white space only is
    flushed as a segment with empty content, which the guard of the final
    segment would have held back. *)
Example chunkSubtitles_blank_block :
  content <$> SubtitleChunker.chunkSubtitles
                (lit "  " ++ [LF; LF] ++ repeat 120%N 1500) 1500
  = [ []; repeat 120%N 1500 ].
Proof. vm_compute. reflexivity. Qed.

(** ** The break threshold *)

Lemma beyond_threshold_first_window_of_10 s :
  s ≤ 210 → TextChunker.beyond_threshold s 0 10 = (7 <? s).
Proof.
  intros Hs.
  assert (forallb (λ s, bool_decide
                          (TextChunker.beyond_threshold s 0 10 = (7 <? s)))
                  (seq 0 211) = true) as Hall by (vm_compute; reflexivity).
  rewrite forallb_forall in Hall.
  specialize (Hall s). rewrite in_seq in Hall.
  apply bool_decide_eq_true in Hall; [exact Hall | lia].
Qed.

(** The product is rounded: for [maxChunkSize = 90] it is the double just
    below 63, so that a candidate at 63 passes the test. *)
Example beyond_threshold_rounding :
  TextChunker.beyond_threshold 63 0 90 = true
  ∧ TextChunker.beyond_threshold 7 0 10 = false
  ∧ TextChunker.beyond_threshold 1400 0 2000 = false.
Proof. vm_compute. repeat split. Qed.

Lemma update_totalChunks_take_content chunks k :
  content <$> take k (update_totalChunks chunks) = content <$> take k chunks.
Proof.
  unfold update_totalChunks. rewrite <- fmap_take, <- list_fmap_compose.
  reflexivity.
Qed.

(** C6. The break acceptance rule of [chunkText], as the code has it.  In
    every window that ends before the text does, the candidate returned by
    [findSentenceBreak] is accepted exactly when it is strictly greater than
    [startIndex + maxChunkSize * 0.7] as computed on doubles, otherwise the
    window is cut at [startIndex + maxChunkSize]; a window that reaches the
    end of the text ends there.  With [maxChunkSize = 10], where the
    product is exactly 7, the first window accepts the candidate exactly
    when it lies beyond position 7: a candidate at 7 gives the cut at 10. *)
Theorem break_acceptance_rule :
  (∀ (text : jsstring) (maxChunkSize : nat) chunks k c,
     0 < maxChunkSize → maxChunkSize < length text →
     TextChunker.chunkText text maxChunkSize = Some chunks →
     chunks !! k = Some c →
     let startIndex := length (concat (content <$> take k chunks)) in
     let nominal := startIndex + maxChunkSize in
     let sentenceEnd := TextChunker.findSentenceBreak text startIndex nominal in
     startIndex < length text
     ∧ (nominal < length text →
        content c
        = substring text startIndex
            (if (number startIndex + number maxChunkSize * 0x1.6666666666666p-1
                 <? number sentenceEnd)%float
             then sentenceEnd else nominal))
     ∧ (length text ≤ nominal →
        content c = substring text startIndex (length text)))
  ∧ (∀ text : jsstring,
       10 < length text →
       ∃ chunks c,
         TextChunker.chunkText text 10 = Some chunks
         ∧ chunks !! 0 = Some c
         ∧ content c
           = substring text 0
               (if 7 <? TextChunker.findSentenceBreak text 0 10
                then TextChunker.findSentenceBreak text 0 10 else 10)).
Proof.
  split.
  - intros text m chunks k c Hm Hlong Hrun Hk.
    destruct (chunkText_long text m Hm Hlong) as (chunks0 & Hrun0 & Hwin).
    rewrite Hrun in Hrun0. injection Hrun0 as ->.
    rewrite update_totalChunks_take_content.
    apply update_totalChunks_lookup in Hk as (c0 & Hk & -> & _).
    destruct (windows_lookup text m 0 0 chunks0 k c0 Hm Hwin) as [Hs Hc];
      [lia | exact Hk |].
    simpl in Hs, Hc. cbv zeta. split; [exact Hs|].
    rewrite Hc. unfold window_end. split; intros Hnom.
    + replace ((_ + m) `min` length text)
        with (length (concat (content <$> take k chunks0)) + m) by lia.
      destruct (_ <? length text) eqn:Hlt; [|apply Nat.ltb_ge in Hlt; lia].
      reflexivity.
    + replace ((_ + m) `min` length text) with (length text) by lia.
      rewrite Nat.ltb_irrefl. reflexivity.
  - intros text Hlong.
    destruct (chunkText_long text 10) as (chunks0 & Hrun0 & Hwin); [lia..|].
    inversion Hwin as [? ? Hend | ? ? chunks1 Hs Hrest]; subst; [lia|].
    eexists _, _. split; [exact Hrun0|]. split; [reflexivity|].
    simpl. f_equal. unfold window_end.
    replace ((0 + 10) `min` length text) with 10 by lia.
    destruct (10 <? length text) eqn:Hlt; [|apply Nat.ltb_ge in Hlt; lia].
    rewrite beyond_threshold_first_window_of_10; [reflexivity|].
    pose proof (findSentenceBreak_bounds text 0 10). lia.
Qed.

Lemma break_acceptance_rule_witness :
  let text := lit "aaaaaaa.aaaa" in
  let c := {| id := lit "chunk-0"; content := lit "aaaaaaa."; index := 0;
              totalChunks := 2; originalLength := 12 |} in
  (0 < 10 ∧ 10 < length text
   ∧ 0 < length text
   ∧ (10 < length text →
      content c
      = substring text 0
          (if (number 0 + number 10 * 0x1.6666666666666p-1
               <? number (TextChunker.findSentenceBreak text 0 10))%float
           then TextChunker.findSentenceBreak text 0 10 else 10))
   ∧ (length text ≤ 10 → content c = substring text 0 (length text)))
  ∧ (∃ chunks c',
       TextChunker.chunkText text 10 = Some chunks
       ∧ chunks !! 0 = Some c'
       ∧ content c'
         = substring text 0
             (if 7 <? TextChunker.findSentenceBreak text 0 10
              then TextChunker.findSentenceBreak text 0 10 else 10)).
Proof.
  intros text c.
  assert (10 < length text) as Hlong by (vm_compute; lia).
  split.
  - split; [lia|]. split; [exact Hlong|].
    refine (proj1 break_acceptance_rule text 10 _ 0 c _ _ _ _);
      [lia | exact Hlong | vm_compute; reflexivity | reflexivity].
  - exact (proj2 break_acceptance_rule text Hlong).
Defined.

(** A break lying exactly at 70% of the window is not accepted: the first
    window of this twelve-character text has its sentence break at 7, which
    is [0 + 0.7 * 10], and is cut at 10. *)
Lemma break_at_70_percent_not_accepted :
  let text := lit "aaaaaa.aaaaa" in
  ∃ chunks c,
    TextChunker.chunkText text 10 = Some chunks
    ∧ chunks !! 0 = Some c
    ∧ TextChunker.findSentenceBreak text 0 10 = 7
    ∧ 10 * 7 = 10 * 0 + 7 * 10
    ∧ content c ≠ substring text 0 7
    ∧ content c = substring text 0 10.
Proof.
  eexists _, _. split; [vm_compute; reflexivity|].
  split; [reflexivity|]. split; [vm_compute; reflexivity|].
  split; [reflexivity|]. split; [vm_compute; discriminate|].
  vm_compute. reflexivity.
Qed.

(** ** TextChunker: reassembly *)

Section Reassembly.

Import TextChunker.

Lemma substring_from_drop (s : jsstring) a : substring_from s a = drop a s.
Proof.
  unfold substring_from. destruct (decide (a ≤ length s)) as [Hle|Hgt].
  - replace (a `min` length s) with a by lia. reflexivity.
  - replace (a `min` length s) with (length s) by lia.
    rewrite !drop_ge by lia. reflexivity.
Qed.

(** The scan of [findOverlap] returns the largest candidate, at most
    [i], at which the suffix of [text1] is the prefix of [text2]. *)
Lemma findOverlap_loop_largest text1 text2 i :
  i ≤ length text2 →
  findOverlap_loop text1 text2 i ≤ i
  ∧ drop (length text1 - findOverlap_loop text1 text2 i) text1
    = take (findOverlap_loop text1 text2 i) text2
  ∧ ∀ j, findOverlap_loop text1 text2 i < j → j ≤ i →
         drop (length text1 - j) text1 ≠ take j text2.
Proof.
  induction i as [|i IH]; intros Hi; cbn [findOverlap_loop].
  - split; [lia|]. split; [|intros; lia].
    rewrite Nat.sub_0_r, drop_all. reflexivity.
  - cbv zeta. rewrite substring_from_drop, substring_prefix by lia.
    case_decide as Hcand.
    + split; [lia|]. split; [exact Hcand|]. intros; lia.
    + destruct IH as (Hle & Heq & Hmax); [lia|].
      split; [lia|]. split; [exact Heq|].
      intros j Hj Hji. destruct (decide (j = S i)) as [->|Hne'];
        [exact Hcand | apply Hmax; lia].
Qed.

Lemma reconstruct_loop_remainders previous rest result :
  reconstruct_loop previous rest result
  = result ++ concat (remainders previous rest).
Proof.
  revert previous result.
  induction rest as [|current rest IH]; intros previous result; simpl.
  - rewrite app_nil_r. reflexivity.
  - rewrite IH, substring_from_drop, <- app_assoc. reflexivity.
Qed.

(** [sort_by_index] orders by [index] and keeps every segment. *)
Lemma insert_by_index_perm c l : insert_by_index c l ≡ₚ c :: l.
Proof.
  induction l as [|d l IH]; simpl; [reflexivity|].
  destruct (index c <=? index d); [reflexivity|].
  rewrite IH. apply Permutation_swap.
Qed.

Lemma sort_by_index_perm chunks : sort_by_index chunks ≡ₚ chunks.
Proof.
  induction chunks as [|c chunks IH]; simpl; [reflexivity|].
  rewrite insert_by_index_perm, IH. reflexivity.
Qed.

Lemma insert_by_index_sorted c l :
  Sorted (λ a b, index a ≤ index b) l →
  Sorted (λ a b, index a ≤ index b) (insert_by_index c l).
Proof.
  induction 1 as [|d l Hsorted IH Hhd]; simpl.
  - repeat constructor.
  - destruct (index c <=? index d) eqn:Hle.
    + apply Nat.leb_le in Hle. repeat constructor; assumption.
    + apply Nat.leb_gt in Hle. constructor; [exact IH|].
      destruct Hhd as [|e l' Hde]; simpl.
      * constructor. lia.
      * destruct (index c <=? index e); constructor; [lia | exact Hde].
Qed.

Lemma sort_by_index_sorted chunks :
  Sorted (λ a b, index a ≤ index b) (sort_by_index chunks).
Proof.
  induction chunks as [|c chunks IH]; simpl; [constructor|].
  apply insert_by_index_sorted, IH.
Qed.

(** Segments that are already in index order stay as they are. *)
Lemma sort_by_index_ordered chunks :
  Sorted (λ a b, index a ≤ index b) chunks → sort_by_index chunks = chunks.
Proof.
  induction 1 as [|c chunks Hsorted IH Hhd]; simpl; [reflexivity|].
  rewrite IH. destruct Hhd as [|d l Hcd]; simpl; [reflexivity|].
  destruct (index c <=? index d) eqn:Hle; [reflexivity|].
  apply Nat.leb_gt in Hle. lia.
Qed.

End Reassembly.

(** C7. The overlap rule of [reconstructText], as the code has it.  No
    segment gives the empty text and one segment gives its content.  For
    more segments, taken in index order, the result is the content of the
    first followed, for each next segment, by that segment without its
    overlap with the segment before it.  The overlap of two contents is the
    largest length, at most twice the overlap size and at most the length
    of either, at which the suffix of the first equals the prefix of the
    second; it is 0, and the next segment is appended whole, when there is
    none. *)
Theorem reconstructText_overlap_rule :
  TextChunker.reconstructText [] = []
  ∧ (∀ c, TextChunker.reconstructText [c] = content c)
  ∧ (∀ chunks first rest,
       2 ≤ length chunks →
       TextChunker.sort_by_index chunks = first :: rest →
       TextChunker.reconstructText chunks
       = content first ++ concat (remainders first rest))
  ∧ (∀ text1 text2 : jsstring,
       let overlap := TextChunker.findOverlap text1 text2 in
       overlap ≤ TextChunker.OVERLAP_SIZE * 2
       ∧ overlap ≤ length text1
       ∧ overlap ≤ length text2
       ∧ drop (length text1 - overlap) text1 = take overlap text2
       ∧ (∀ j, overlap < j → j ≤ TextChunker.OVERLAP_SIZE * 2 →
               j ≤ length text1 → j ≤ length text2 →
               drop (length text1 - j) text1 ≠ take j text2)
       ∧ (overlap = 0 → drop overlap text2 = text2)).
Proof.
  split; [reflexivity|]. split; [reflexivity|]. split.
  - intros chunks first rest Hlen Hsort.
    destruct chunks as [|c1 [|c2 chunks]]; [simpl in Hlen; lia..|].
    unfold TextChunker.reconstructText. rewrite Hsort.
    apply reconstruct_loop_remainders.
  - intros text1 text2 overlap. subst overlap. unfold TextChunker.findOverlap.
    set (maxOverlap := _ `min` (_ `min` _)).
    destruct (findOverlap_loop_largest text1 text2 maxOverlap)
      as (Hle & Heq & Hmax); [subst maxOverlap; lia|].
    split; [subst maxOverlap; lia|]. split; [subst maxOverlap; lia|].
    split; [subst maxOverlap; lia|]. split; [exact Heq|].
    split; [|intros ->; reflexivity].
    intros j Hj H200 H1 H2. apply Hmax; [exact Hj | subst maxOverlap; lia].
Qed.

Lemma reconstructText_overlap_rule_witness :
  let c0 := mkTextChunk (lit "chunk-0") (lit "One two") 0 2 12 in
  let c1 := mkTextChunk (lit "chunk-1") (lit "two three") 1 2 12 in
  (2 ≤ length [c1; c0]
   ∧ TextChunker.sort_by_index [c1; c0] = [c0; c1]
   ∧ TextChunker.reconstructText [c1; c0]
     = content c0 ++ concat (remainders c0 [c1]))
  ∧ (TextChunker.findOverlap (lit "One two") (lit "two three") = 3
     ∧ drop (length (lit "One two") - 4) (lit "One two")
       ≠ take 4 (lit "two three")).
Proof.
  intros c0 c1. split.
  - split; [simpl; lia|]. split; [reflexivity|].
    apply (proj1 (proj2 (proj2 reconstructText_overlap_rule)) [c1; c0] c0 [c1]);
      [simpl; lia | reflexivity].
  - split; [reflexivity|].
    pose proof (proj2 (proj2 (proj2 reconstructText_overlap_rule))
                  (lit "One two") (lit "two three")) as Hrule.
    apply (proj1 (proj2 (proj2 (proj2 (proj2 Hrule)))) 4);
      vm_compute; lia.
Defined.

(** With three segments the code and the description part ways: the code
    looks for the overlap in the content of the previous segment, the
    description in the text assembled so far. *)
Lemma reconstructText_overlap_with_previous_segment :
  let chunks := [ mkTextChunk (lit "chunk-0") (lit "ab") 0 3 5;
                  mkTextChunk (lit "chunk-1") (lit "b") 1 3 5;
                  mkTextChunk (lit "chunk-2") (lit "abX") 2 3 5 ] in
  TextChunker.reconstructText chunks = lit "ababX"
  ∧ reassemble_as_specified chunks = lit "abX"
  ∧ TextChunker.reconstructText chunks ≠ reassemble_as_specified chunks.
Proof.
  split; [vm_compute; reflexivity|]. split; [vm_compute; reflexivity|].
  vm_compute. discriminate.
Qed.

Lemma remainders_overlap_free previous rest :
  overlap_free previous rest → remainders previous rest = content <$> rest.
Proof.
  revert previous. induction rest as [|current rest IH]; intros previous Hfree;
    [reflexivity|].
  destruct Hfree as [Hzero Hfree]. cbn [remainders]. rewrite Hzero, (IH _ Hfree).
  reflexivity.
Qed.

Lemma seq_indices_sorted chunks i :
  index <$> chunks = seq i (length chunks) →
  Sorted (λ a b, index a ≤ index b) chunks.
Proof.
  revert i. induction chunks as [|c chunks IH]; intros i Hseq; [constructor|].
  rewrite fmap_cons in Hseq. cbn [length seq] in Hseq.
  injection Hseq as Hc Hrest. constructor; [apply (IH (S i)), Hrest|].
  destruct chunks as [|d chunks]; constructor.
  rewrite fmap_cons in Hrest. cbn [length seq] in Hrest.
  injection Hrest as Hd _. lia.
Qed.

(** Where no two neighbouring segments share an end and a start, the
    round trip gives back the text. *)
Lemma reconstructText_chunkText_overlap_free (text : jsstring) maxChunkSize
    first rest :
  0 < maxChunkSize →
  TextChunker.chunkText text maxChunkSize = Some (first :: rest) →
  overlap_free first rest →
  TextChunker.reconstructText (first :: rest) = text.
Proof.
  intros Hm Hrun Hfree.
  assert (index <$> first :: rest = seq 0 (length (first :: rest))
          ∧ concat (content <$> first :: rest) = text) as [Hseq Hconcat].
  { destruct (decide (length text ≤ maxChunkSize)) as [Hshort|Hlong].
    - rewrite chunkText_short in Hrun by exact Hshort.
      injection Hrun as <- <-. split; [reflexivity|apply app_nil_r].
    - destruct (chunkText_long text maxChunkSize Hm) as (chunks & Hrun' & Hwin);
        [lia|].
      rewrite Hrun in Hrun'. injection Hrun' as Hchunks. rewrite Hchunks.
      rewrite update_totalChunks_index, update_totalChunks_length,
        update_totalChunks_content.
      split; [eapply windows_index, Hwin|].
      rewrite (adjacent_slices_concat text 0) by
        (lia || (eapply windows_adjacent; [exact Hm | exact Hwin | lia])).
      reflexivity. }
  destruct rest as [|second rest].
  - cbn in Hconcat. rewrite app_nil_r in Hconcat. exact Hconcat.
  - unfold TextChunker.reconstructText.
    rewrite (sort_by_index_ordered _ (seq_indices_sorted _ 0 Hseq)).
    rewrite reconstruct_loop_remainders, (remainders_overlap_free _ _ Hfree).
    exact Hconcat.
Qed.

(** C1. Segmenting and reassembling does not give back every text: the
    chunker cuts without overlap, and the reassembler still removes what
    the end of one segment and the start of the next have in common.  For
    2500 times the letter a the result is 200 letters short, for 4500 times
    it is 400 letters short. *)
Theorem reconstructText_chunkText_loses_text :
  (∃ chunks,
     TextChunker.chunkText (repeat 97%N 2500) TextChunker.MAX_CHUNK_SIZE
     = Some chunks
     ∧ TextChunker.reconstructText chunks = repeat 97%N 2300
     ∧ TextChunker.reconstructText chunks ≠ repeat 97%N 2500)
  ∧ (∃ chunks,
       TextChunker.chunkText (repeat 97%N 4500) TextChunker.MAX_CHUNK_SIZE
       = Some chunks
       ∧ TextChunker.reconstructText chunks = repeat 97%N 4100).
Proof.
  split.
  - eexists. split; [vm_compute; reflexivity|].
    split; [vm_compute; reflexivity|].
    intros Heq. apply (f_equal length) in Heq. vm_compute in Heq. discriminate.
  - eexists. split; [vm_compute; reflexivity|]. vm_compute. reflexivity.
Qed.

(** ** The handler *)

Section HandlerFacts.

Context `{Platform}.

Lemma try_catch_returns {A} (body : M A) handler w a w' :
  body w = (Returns a, w') → try_catch body handler w = (Returns a, w').
Proof. intros Hbody. unfold try_catch. rewrite Hbody. reflexivity. Qed.

Lemma try_catch_throws {A} (body : M A) handler w e w' :
  body w = (Throws e, w') → try_catch body handler w = handler e w'.
Proof. intros Hbody. unfold try_catch. rewrite Hbody. reflexivity. Qed.

Lemma bind_returns {A B} (m : M A) (k : A → M B) w a w' :
  m w = (Returns a, w') → (m ≫= k) w = k a w'.
Proof. intros Hm. unfold mbind, M_bind. rewrite Hm. reflexivity. Qed.

Lemma bind_throws {A B} (m : M A) (k : A → M B) w e w' :
  m w = (Throws e, w') → (m ≫= k) w = (Throws e, w').
Proof. intros Hm. unfold mbind, M_bind. rewrite Hm. reflexivity. Qed.

(** A segment call that the backend answers. *)
Lemma handleNonStreamingChat_answered messages model temperature maxTokens
    apiKey w data :
  backend_json (length (backend_calls w))
    (mkBackendCall messages model temperature maxTokens false apiKey)
  = inr data →
  handleNonStreamingChat messages model temperature maxTokens apiKey None w
  = (Returns
       (Response.Json 200
          (CompletionPayload
             {| completion_id := lit "chatcmpl-" ++ generateUUID (uuid_reads w);
                completion_object := lit "chat.completion";
                completion_created := (Date_now (clock_reads w) / 1000)%Z;
                completion_model := model;
                choice_index := 0;
                message_role := lit "assistant";
                message_content :=
                  or_else (resultObject0 data)
                    (or_else (data_content data) (lit "No response generated"));
                choice_finish_reason := lit "stop";
                usage := {| prompt_tokens := default 0 (usage_prompt_tokens data);
                            completion_tokens :=
                              default 0 (usage_completion_tokens data);
                            total_tokens := default 0 (usage_total_tokens data) |}
             |})),
     world_after_calls w
       [mkBackendCall messages model temperature maxTokens false apiKey] 1 []).
Proof.
  unfold backend_json. intros Hjson.
  unfold handleNonStreamingChat, try_catch, send, world_after_calls.
  unfold mbind, M_bind.
  destruct (sendChatRequest _ _) as [e|response]; [discriminate|].
  rewrite Hjson. cbn.
  rewrite app_nil_r, !Nat.add_1_r. reflexivity.
Qed.

(** A segment call that fails: the request throws, or reading its body
    does. *)
Lemma handleNonStreamingChat_failed messages model temperature maxTokens
    apiKey w e :
  backend_json (length (backend_calls w))
    (mkBackendCall messages model temperature maxTokens false apiKey)
  = inl e →
  handleNonStreamingChat messages model temperature maxTokens apiKey None w
  = (Returns (Response.Json 500
                (ErrorPayload (lit "Failed to process chat completion"))),
     world_after_calls w
       [mkBackendCall messages model temperature maxTokens false apiKey] 0 []).
Proof.
  unfold backend_json. intros Hjson.
  unfold handleNonStreamingChat, try_catch, send, world_after_calls.
  unfold mbind, M_bind.
  destruct (sendChatRequest _ _) as [e'|response].
  - cbn. rewrite app_nil_r, !Nat.add_0_r. reflexivity.
  - rewrite Hjson. cbn. rewrite app_nil_r, !Nat.add_0_r. reflexivity.
Qed.

(** *** The loop over the segments *)

Variable requestBody : ChatCompletionRequest.t.
Variables model apiKey : jsstring.

Lemma process_chunks_turn total i chunk rest acc :
  process_chunks requestBody model apiKey total i (chunk :: rest) acc
  = (handleNonStreamingChat
       [Message.mk (lit "user") (ContentString (content chunk))] model
       (ChatCompletionRequest.temperature requestBody)
       (ChatCompletionRequest.max_tokens requestBody) (Some apiKey) None
     ≫= λ response,
       if negb (Response.ok response) then
         throw (ErrorObject (lit "Chunk " ++ of_number (i + 1)
                             ++ lit " failed with status "
                             ++ of_number (Response.status response)))
       else
         (if i <? total - 1 then sleep 100 else mret ());;
         process_chunks requestBody model apiKey total (S i) rest
           (acc ++ [first_choice_content response])).
Proof. reflexivity. Qed.

Lemma world_after_calls_nothing w : world_after_calls w [] 0 [] = w.
Proof.
  destruct w. unfold world_after_calls.
  cbn [metrics clock_reads uuid_reads backend_calls delays sink].
  rewrite !app_nil_r. rewrite !Nat.add_0_r. reflexivity.
Qed.

Lemma world_after_calls_more w calls n waits calls' n' waits' :
  world_after_calls (world_after_calls w calls n waits) calls' n' waits'
  = world_after_calls w (calls ++ calls') (n + n') (waits ++ waits').
Proof.
  unfold world_after_calls.
  cbn [metrics clock_reads uuid_reads backend_calls delays sink].
  rewrite <- !app_assoc. rewrite !Nat.add_assoc. reflexivity.
Qed.

Lemma sleep_world ms w : sleep ms w = (Returns (), world_after_calls w [] 0 [ms]).
Proof.
  unfold sleep, world_after_calls. rewrite !app_nil_r. rewrite !Nat.add_0_r.
  reflexivity.
Qed.

Lemma answered_later w call n waits j c :
  (∃ data, backend_json (length (backend_calls w) + S j)
             (segment_call requestBody model apiKey c) = inr data) →
  ∃ data, backend_json
            (length (backend_calls (world_after_calls w [call] n waits)) + j)
            (segment_call requestBody model apiKey c) = inr data.
Proof.
  intros [d Hd]. exists d.
  cbn [world_after_calls backend_calls]. rewrite length_app. cbn [length].
  replace (length (backend_calls w) + 1 + j)
    with (length (backend_calls w) + S j) by lia.
  exact Hd.
Qed.

Lemma failed_later w call n waits j c :
  (∃ e, backend_json (length (backend_calls w) + S j)
          (segment_call requestBody model apiKey c) = inl e) →
  ∃ e, backend_json
         (length (backend_calls (world_after_calls w [call] n waits)) + j)
         (segment_call requestBody model apiKey c) = inl e.
Proof.
  intros [e He]. exists e.
  cbn [world_after_calls backend_calls]. rewrite length_app. cbn [length].
  replace (length (backend_calls w) + 1 + j)
    with (length (backend_calls w) + S j) by lia.
  exact He.
Qed.

(** While the backend answers, the loop goes on: one request per segment,
    in order, and a wait of 100 ms after each segment but the last. *)
Lemma process_chunks_answered total rest :
  ∀ i acc w,
    i + length rest = total →
    (∀ j c, rest !! j = Some c →
            ∃ data, backend_json (length (backend_calls w) + j)
                      (segment_call requestBody model apiKey c) = inr data) →
    ∃ texts,
      process_chunks requestBody model apiKey total i rest acc w
      = (Returns (acc ++ texts),
         world_after_calls w (segment_call requestBody model apiKey <$> rest)
           (length rest) (repeat 100 (length rest - 1)))
      ∧ length texts = length rest.
Proof.
  induction rest as [|chunk rest IH]; intros i acc w Htotal Hok.
  - exists []. split; [|reflexivity].
    cbn [process_chunks fmap list_fmap length repeat Nat.sub].
    rewrite world_after_calls_nothing, app_nil_r. reflexivity.
  - destruct (Hok 0 chunk eq_refl) as [data Hdata].
    rewrite Nat.add_0_r in Hdata.
    rewrite process_chunks_turn.
    erewrite bind_returns by (apply handleNonStreamingChat_answered, Hdata).
    cbn [Response.ok Response.status negb Nat.leb andb].
    set (text := first_choice_content _).
    destruct rest as [|chunk' rest'].
    + exists [text]. split; [|reflexivity].
      replace (i <? total - 1) with false
        by (symmetry; apply Nat.ltb_ge; simpl in Htotal; lia).
      erewrite bind_returns by reflexivity.
      reflexivity.
    + replace (i <? total - 1) with true
        by (symmetry; apply Nat.ltb_lt; simpl in Htotal; lia).
      erewrite bind_returns by apply sleep_world.
      rewrite world_after_calls_more.
      edestruct (IH (S i) (acc ++ [text])) as (texts & Hrun & Hlen);
        [ | | rewrite Hrun].
      * simpl in *. lia.
      * intros j c Hj. apply answered_later. apply (Hok (S j) c Hj).
      * exists (text :: texts). split; [|cbn [length] in *; lia].
        rewrite world_after_calls_more, <- app_assoc.
        cbn [length Nat.sub]. rewrite Nat.sub_0_r. reflexivity.
Qed.

(** The first segment call that fails ends the loop: the requests sent are
    those of the segments up to it, and the error names the segment. *)
Lemma process_chunks_failed total k :
  ∀ rest i acc w chunk,
    i + length rest = total →
    rest !! k = Some chunk →
    (∀ j c, j < k → rest !! j = Some c →
            ∃ data, backend_json (length (backend_calls w) + j)
                      (segment_call requestBody model apiKey c) = inr data) →
    (∃ e, backend_json (length (backend_calls w) + k)
            (segment_call requestBody model apiKey chunk) = inl e) →
    process_chunks requestBody model apiKey total i rest acc w
    = (Throws (ErrorObject (lit "Chunk " ++ of_number (i + k + 1)
                            ++ lit " failed with status " ++ of_number 500)),
       world_after_calls w
         (segment_call requestBody model apiKey <$> take (S k) rest)
         k (repeat 100 k)).
Proof.
  induction k as [|k IH]; intros rest i acc w chunk Htotal Hk Hok [e He].
  - destruct rest as [|c rest]; [discriminate|]. injection Hk as ->.
    rewrite Nat.add_0_r in He.
    rewrite process_chunks_turn.
    erewrite bind_returns by (eapply handleNonStreamingChat_failed, He).
    rewrite Nat.add_0_r. reflexivity.
  - destruct rest as [|c rest]; [discriminate|]. rewrite lookup_cons in Hk.
    destruct (Hok 0 c) as [data Hdata]; [lia | reflexivity |].
    rewrite Nat.add_0_r in Hdata.
    rewrite process_chunks_turn.
    erewrite bind_returns by (apply handleNonStreamingChat_answered, Hdata).
    cbn [Response.ok Response.status negb Nat.leb andb].
    set (text := first_choice_content _).
    apply lookup_lt_Some in Hk as Hlen.
    replace (i <? total - 1) with true
      by (symmetry; apply Nat.ltb_lt; simpl in Htotal; lia).
    erewrite bind_returns by apply sleep_world.
    rewrite world_after_calls_more.
    erewrite (IH rest (S i) (acc ++ [text]) _ chunk).
    + rewrite world_after_calls_more.
      replace (S i + k + 1) with (i + S k + 1) by lia. reflexivity.
    + simpl in Htotal. lia.
    + exact Hk.
    + intros j c' Hj Hc'. apply answered_later. apply (Hok (S j) c'); [lia|exact Hc'].
    + apply failed_later. exists e. exact He.
Qed.

End HandlerFacts.

Section ChunkedFacts.

Context `{Platform}.

Lemma chunkText_returns (text : jsstring) maxChunkSize :
  0 < maxChunkSize → ∃ chunks, TextChunker.chunkText text maxChunkSize = Some chunks.
Proof.
  intros Hm. destruct (decide (length text ≤ maxChunkSize)) as [Hshort|Hlong].
  - eexists. apply chunkText_short, Hshort.
  - destruct (chunkText_long text maxChunkSize Hm) as (chunks & Hrun & _);
      [lia|]. eexists. exact Hrun.
Qed.

Lemma segments_of_returns textContent :
  ∃ chunks, segments_of textContent = Some chunks.
Proof.
  unfold segments_of. destruct (detectSubtitles textContent); [eauto|].
  apply chunkText_returns. lia.
Qed.

(** [handleChunkedTranslation] once the messages and the segments are
    known. *)
Lemma handleChunkedTranslation_segments requestBody model apiKey requestId
    messages chunks w :
  ChatCompletionRequest.messages requestBody = Some messages →
  segments_of (textContent_of messages) = Some chunks →
  handleChunkedTranslation requestBody model apiKey requestId w
  = try_catch
      (translatedChunks ←
         process_chunks requestBody model apiKey (length chunks) 0 chunks [];
       let finalTranslation :=
         join (if detectSubtitles (textContent_of messages)
               then [LF; LF] else lit " ") translatedChunks in
       uuid ← new_uuid;
       now ← date_now;
       completeTranslation requestId (Some (length chunks));;
       mret (createSuccessResponse
               {| completion_id := lit "chatcmpl-" ++ uuid;
                  completion_object := lit "chat.completion";
                  completion_created := (now / 1000)%Z;
                  completion_model := model;
                  choice_index := 0;
                  message_role := lit "assistant";
                  message_content := finalTranslation;
                  choice_finish_reason := lit "stop";
                  usage :=
                    {| prompt_tokens := length (textContent_of messages) / 4;
                       completion_tokens := length finalTranslation / 4;
                       total_tokens :=
                         (length (textContent_of messages)
                          + length finalTranslation) / 4 |} |}))
      (λ error,
         failTranslation requestId (error_message error);;
         mret (createErrorResponse
                 (lit "Failed to process chunked translation") (Some 500)))
      w.
Proof.
  intros Hmessages Hsegments.
  unfold handleChunkedTranslation. rewrite Hmessages.
  unfold segments_of, textContent_of in *.
  unfold try_catch. f_equal.
  unfold mbind at 1. unfold M_bind at 1. cbn [mret M_ret].
  destruct (detectSubtitles (join (lit " ") (string_content <$> messages))).
  - injection Hsegments as <-. reflexivity.
  - unfold mbind at 1. unfold M_bind at 1. rewrite Hsegments. reflexivity.
Qed.

Lemma failTranslation_recorded requestId error w entry :
  metrics w !! requestId = Some entry →
  failTranslation requestId error w
  = (Returns (),
     mkWorld (<[requestId := TranslationLogger.fail_entry error
                               (Date_now (clock_reads w)) entry]> (metrics w))
             (S (clock_reads w)) (uuid_reads w) (backend_calls w) (delays w)
             (sink w)).
Proof.
  intros Hentry. unfold failTranslation, get_metrics, mbind, M_bind.
  rewrite Hentry. reflexivity.
Qed.

(** The response of a single-segment call has a status that is not a
    success exactly when the request, or the reading of its body, throws:
    the status of the backend's own response is not looked at. *)
Lemma single_segment_call_fails_iff messages model temperature maxTokens
    apiKey w :
  ∃ response w',
    handleNonStreamingChat messages model temperature maxTokens apiKey None w
    = (Returns response, w')
    ∧ (Response.ok response = false
       ↔ ∃ e, backend_json (length (backend_calls w))
                (mkBackendCall messages model temperature maxTokens false
                   apiKey) = inl e).
Proof.
  destruct (backend_json (length (backend_calls w))
              (mkBackendCall messages model temperature maxTokens false apiKey))
    as [e|data] eqn:Hjson.
  - eexists _, _. split; [eapply handleNonStreamingChat_failed, Hjson|].
    split; [eauto | reflexivity].
  - eexists _, _. split; [apply handleNonStreamingChat_answered, Hjson|].
    split; [discriminate | intros [e He]; discriminate].
Qed.

End ChunkedFacts.

(** C2. All-or-nothing chunked failure.  When the call for segment [i]
    fails (the request or the reading of its body throws [e], which the
    single-segment call turns into a response with status 500) after the
    calls for the segments before it were answered,
    [handleChunkedTranslation] stops at once: the requests sent are exactly
    those of segments 0 to [i], the caller gets the error response with
    status 500 and no translated text, and the entry of the request id is
    marked failed.  The error it then carries is the message that the loop
    builds from the number of the segment and the status, whatever [e] was:
    the error of the backend is not carried. *)
Theorem chunked_failure_is_all_or_nothing `{Platform}
    (requestBody : ChatCompletionRequest.t) (model apiKey requestId : jsstring)
    (w : World) messages chunks i chunk (e : Thrown) entry :
  ChatCompletionRequest.messages requestBody = Some messages →
  segments_of (textContent_of messages) = Some chunks →
  chunks !! i = Some chunk →
  (∀ j c, j < i → chunks !! j = Some c →
          ∃ data, backend_json (length (backend_calls w) + j)
                    (segment_call requestBody model apiKey c) = inr data) →
  backend_json (length (backend_calls w) + i)
    (segment_call requestBody model apiKey chunk) = inl e →
  metrics w !! requestId = Some entry →
  ∃ response w',
    handleChunkedTranslation requestBody model apiKey requestId w
    = (Returns response, w')
    ∧ response = Response.Json 500
                   (ErrorPayload (lit "Failed to process chunked translation"))
    ∧ Response.ok response = false
    ∧ backend_calls w'
      = backend_calls w
        ++ (segment_call requestBody model apiKey <$> take (S i) chunks)
    ∧ metrics w'
      = <[requestId :=
            TranslationLogger.fail_entry
              (lit "Chunk " ++ of_number (i + 1) ++ lit " failed with status 500")
              (Date_now (clock_reads w + i)) entry]> (metrics w)
    ∧ (∃ entry', metrics w' !! requestId = Some entry'
                 ∧ TranslationLogger.status entry' = TranslationLogger.failed
                 ∧ TranslationLogger.error entry'
                   = Some (lit "Chunk " ++ of_number (i + 1)
                           ++ lit " failed with status 500")).
Proof.
  intros Hmessages Hsegments Hi Hbefore Hfail Hentry.
  rewrite (handleChunkedTranslation_segments _ _ _ _ _ _ _ Hmessages Hsegments).
  erewrite try_catch_throws.
  2: { erewrite bind_throws; [reflexivity|].
       apply (process_chunks_failed requestBody model apiKey (length chunks) i
                chunks 0 [] w chunk);
         [reflexivity | assumption | assumption | exists e; exact Hfail]. }
  erewrite bind_returns
    by (apply failTranslation_recorded; exact Hentry).
  eexists _, _. split; [reflexivity|].
  split; [reflexivity|]. split; [reflexivity|]. split; [reflexivity|].
  split; [reflexivity|].
  eexists. split; [apply lookup_insert_eq|]. split; reflexivity.
Qed.

Section ReturnFacts.

Context `{Platform}.




(** *** Computations that return, and computations that do not hang *)

Lemma returns_always_ret {A} (a : A) : returns_always (mret a).
Proof. intros w. eexists _, _. reflexivity. Qed.

Lemma returns_always_bind {A B} (m : M A) (k : A → M B) :
  returns_always m → (∀ a, returns_always (k a)) → returns_always (m ≫= k).
Proof.
  intros Hm Hk w. destruct (Hm w) as (a & w1 & Hrun).
  erewrite bind_returns by exact Hrun. apply Hk.
Qed.

Lemma no_hang_returns {A} (m : M A) : returns_always m → no_hang m.
Proof.
  intros Hm w. destruct (Hm w) as (a & w1 & Hrun).
  exists w1. left. exists a. exact Hrun.
Qed.

Lemma no_hang_throw {A} (e : Thrown) : no_hang (throw (A:=A) e).
Proof. intros w. exists w. right. exists e. reflexivity. Qed.

Lemma no_hang_bind {A B} (m : M A) (k : A → M B) :
  no_hang m → (∀ a, no_hang (k a)) → no_hang (m ≫= k).
Proof.
  intros Hm Hk w. destruct (Hm w) as (w1 & [[a Hrun] | [e Hrun]]).
  - erewrite bind_returns by exact Hrun. apply Hk.
  - exists w1. right. exists e. apply bind_throws, Hrun.
Qed.

Lemma returns_always_try_catch {A} (body : M A) handler :
  no_hang body → (∀ e, returns_always (handler e)) →
  returns_always (try_catch body handler).
Proof.
  intros Hbody Hhandler w. destruct (Hbody w) as (w1 & [[a Hrun] | [e Hrun]]).
  - eexists _, _. apply try_catch_returns, Hrun.
  - erewrite try_catch_throws by exact Hrun. apply Hhandler.
Qed.

Lemma returns_always_get_metrics : returns_always get_metrics.
Proof. intros w. eexists _, _. reflexivity. Qed.

Lemma returns_always_set_metrics m : returns_always (set_metrics m).
Proof. intros w. eexists _, _. reflexivity. Qed.



Lemma returns_always_date_now : returns_always date_now.
Proof. intros w. eexists _, _. reflexivity. Qed.

Lemma returns_always_new_uuid : returns_always new_uuid.
Proof. intros w. eexists _, _. reflexivity. Qed.

Lemma returns_always_sleep ms : returns_always (sleep ms).
Proof. intros w. eexists _, _. reflexivity. Qed.

Lemma no_hang_send call : no_hang (send call).
Proof.
  intros w. unfold send. destruct (sendChatRequest _ _) as [e|response];
    eexists; [right|left]; eexists; reflexivity.
Qed.




Lemma returns_always_completeTranslation requestId chunkCount :
  returns_always (completeTranslation requestId chunkCount).
Proof.
  unfold completeTranslation.
  apply returns_always_bind; [apply returns_always_get_metrics|]. intros m.
  destruct (m !! requestId); [|apply returns_always_ret].
  apply returns_always_bind; [apply returns_always_date_now|]. intros now.
  apply returns_always_set_metrics.
Qed.

Lemma returns_always_failTranslation requestId error :
  returns_always (failTranslation requestId error).
Proof.
  unfold failTranslation.
  apply returns_always_bind; [apply returns_always_get_metrics|]. intros m.
  destruct (m !! requestId); [|apply returns_always_ret].
  apply returns_always_bind; [apply returns_always_date_now|]. intros now.
  apply returns_always_set_metrics.
Qed.

Lemma returns_always_when_requestId requestId action :
  (∀ r, returns_always (action r)) →
  returns_always (when_requestId requestId action).
Proof.
  intros Haction. unfold when_requestId.
  destruct requestId as [r|]; [|apply returns_always_ret].
  destruct (truthy r); [apply Haction | apply returns_always_ret].
Qed.

Lemma returns_always_transformToOpenAIFormat data model :
  returns_always (transformToOpenAIFormat data model).
Proof.
  unfold transformToOpenAIFormat.
  apply returns_always_bind; [apply returns_always_new_uuid|]. intros uuid.
  apply returns_always_bind; [apply returns_always_date_now|]. intros now.
  apply returns_always_ret.
Qed.

(** [handleNonStreamingChat] catches whatever is thrown: it always returns
    a response. *)
Lemma handleNonStreamingChat_returns messages model temperature maxTokens
    apiKey requestId :
  returns_always
    (handleNonStreamingChat messages model temperature maxTokens apiKey
       requestId).
Proof.
  unfold handleNonStreamingChat. apply returns_always_try_catch.
  - apply no_hang_bind; [apply no_hang_send|]. intros response.
    apply no_hang_bind.
    { destruct (response_json response);
        [apply no_hang_throw | apply no_hang_returns, returns_always_ret]. }
    intros data. apply no_hang_returns.
    apply returns_always_bind; [apply returns_always_transformToOpenAIFormat|].
    intros openAIResponse.
    apply returns_always_bind; [|intros; apply returns_always_ret].
    apply returns_always_when_requestId. intros r.
    apply returns_always_completeTranslation.
  - intros e.
    apply returns_always_bind; [|intros; apply returns_always_ret].
    apply returns_always_when_requestId. intros r.
    apply returns_always_failTranslation.
Qed.








End ReturnFacts.

Section Trigger.

Context `{Platform}.

Lemma startTranslation_world requestId textLength model w :
  startTranslation requestId textLength model w
  = (Returns (),
     mkWorld (TranslationLogger.startTranslation requestId textLength model
                (Date_now (clock_reads w)) (metrics w))
             (S (clock_reads w)) (uuid_reads w) (backend_calls w) (delays w)
             (sink w)).
Proof. reflexivity. Qed.

(** [handleChatCompletionsWithBody] on a request that passes validation:
    it hands over to one of the three handlers, in the world in which the
    start of the translation is recorded. *)
Lemma handleChatCompletionsWithBody_dispatch messages model0 stream
    temperature max_tokens apiKey w (handler : M Response.t) :
  let requestBody :=
    ChatCompletionRequest.mk (Some messages) model0 stream temperature
      max_tokens in
  let model := or_else model0 DEFAULT_MODEL in
  let requestId := generateUUID (uuid_reads w) in
  model_supported model = true →
  handler
  = (if 2000 <? totalTextLength_of messages then
       handleChunkedTranslation requestBody model apiKey requestId
     else if stream then
       handleStreamingChat (processMessages messages) model temperature
         max_tokens (Some apiKey) (Some requestId)
     else
       handleNonStreamingChat (processMessages messages) model temperature
         max_tokens (Some apiKey) (Some requestId)) →
  returns_always handler →
  handleChatCompletionsWithBody requestBody apiKey w
  = handler (world_started w (totalTextLength_of messages) model).
Proof.
  intros requestBody model requestId Hmodel Hhandler Hreturns.
  destruct (Hreturns (world_started w (totalTextLength_of messages) model))
    as (response & w' & Hrun).
  subst requestBody model requestId.
  rewrite Hrun.
  unfold handleChatCompletionsWithBody.
  erewrite bind_returns by reflexivity.
  apply try_catch_returns.
  cbn [ChatCompletionRequest.messages ChatCompletionRequest.model
       ChatCompletionRequest.stream ChatCompletionRequest.temperature
       ChatCompletionRequest.max_tokens].
  rewrite Hmodel. cbn [negb].
  fold (totalTextLength_of messages).
  erewrite bind_returns by apply startTranslation_world.
  cbv zeta. rewrite <- Hrun. rewrite Hhandler. reflexivity.
Qed.

End Trigger.


(** ** The streaming transcoder *)

Section Transcoder.

Context `{Platform}.

Hypothesis writer_accepts : ∀ k bytes, writer_write k bytes = None.

Lemma write_accepted bytes w :
  write bytes w
  = (Returns (),
     mkWorld (metrics w) (clock_reads w) (uuid_reads w) (backend_calls w)
             (delays w)
             (mkSink (written (sink w) ++ [bytes]) (closed (sink w))
                     (aborted (sink w)))).
Proof using writer_accepts.
  unfold write, get_sink, set_sink, mbind, M_bind.
  rewrite writer_accepts. reflexivity.
Qed.

(** The loop writes one frame per piece, in order. *)
Lemma pump_pieces model pieces :
  ∀ w,
    pump model (Piece <$> pieces) w
    = (Returns (),
       mkWorld (metrics w) (clock_reads w + length pieces)
               (uuid_reads w + length pieces) (backend_calls w) (delays w)
               (mkSink (written (sink w)
                        ++ delta_frames model (uuid_reads w) (clock_reads w)
                             pieces)
                       (closed (sink w)) (aborted (sink w)))).
Proof using writer_accepts.
  induction pieces as [|piece pieces IH]; intros w.
  - cbn [fmap list_fmap pump delta_frames length].
    rewrite app_nil_r, !Nat.add_0_r. destruct w as [? ? ? ? ? []]. reflexivity.
  - cbn [fmap list_fmap pump delta_frames length].
    erewrite bind_returns by reflexivity.
    erewrite bind_returns by reflexivity.
    erewrite bind_returns by apply write_accepted.
    unfold fmap in IH. rewrite IH.
    cbn [metrics clock_reads uuid_reads backend_calls delays sink written
         closed aborted].
    rewrite <- app_assoc, <- !Nat.add_succ_comm. reflexivity.
Qed.

Lemma delta_frames_imap model u c pieces :
  delta_frames model u c pieces
  = imap (λ k piece,
            sse_frame (returnChunk (generateUUID (u + k)) (Date_now (c + k))
                                   model (TextDecoder_decode piece)))
         pieces.
Proof.
  revert u c. induction pieces as [|piece pieces IH]; intros u c;
    [reflexivity|].
  cbn [delta_frames imap]. rewrite !Nat.add_0_r. f_equal.
  rewrite IH. apply imap_ext. intros k p _. cbn.
  rewrite <- !Nat.add_succ_comm. reflexivity.
Qed.

End Transcoder.

Section TranscoderRun.

Context `{Platform}.

Lemma completeTranslation_keeps_sink requestId chunkCount w :
  ∃ w', completeTranslation requestId chunkCount w = (Returns (), w')
        ∧ sink w' = sink w.
Proof.
  unfold completeTranslation, get_metrics, mbind, M_bind.
  destruct (metrics w !! requestId); eexists; split; reflexivity.
Qed.

Lemma when_requestId_complete_keeps_sink requestId w :
  ∃ w', when_requestId requestId (λ r, completeTranslation r None) w
        = (Returns (), w')
        ∧ sink w' = sink w.
Proof.
  unfold when_requestId. destruct requestId as [r|];
    [|eexists; split; reflexivity].
  destruct (truthy r); [apply completeTranslation_keeps_sink|].
  eexists; split; reflexivity.
Qed.

Lemma send_answered call w response :
  sendChatRequest (length (backend_calls w)) call = inr response →
  send call w
  = (Returns response,
     mkWorld (metrics w) (clock_reads w) (uuid_reads w)
             (backend_calls w ++ [call]) (delays w) (sink w)).
Proof. intros Hsend. unfold send. rewrite Hsend. reflexivity. Qed.

(** The transcoder on a fresh stream, a source that delivers [pieces] and
    ends, and a sink that takes every write. *)
Lemma transcode_pieces model pieces requestId w :
  (∀ k bytes, writer_write k bytes = None) →
  sink w = mkSink [] false None →
  ∃ w',
    transcode model (Piece <$> pieces) requestId w = (Returns (), w')
    ∧ sink w'
      = mkSink
          (delta_frames model (uuid_reads w) (clock_reads w) pieces
           ++ [sse_frame (finalChunk (generateUUID (uuid_reads w + length pieces))
                            (Date_now (clock_reads w + length pieces)) model);
               sse_done])
          true None.
Proof.
  intros Haccepts Hfresh.
  set (w1 := mkWorld (metrics w) (clock_reads w + length pieces)
               (uuid_reads w + length pieces) (backend_calls w) (delays w)
               (mkSink (delta_frames model (uuid_reads w) (clock_reads w) pieces)
                       false None)).
  set (final := sse_frame (finalChunk (generateUUID (uuid_reads w + length pieces))
                             (Date_now (clock_reads w + length pieces)) model)).
  set (w2 := mkWorld (metrics w) (S (clock_reads w + length pieces))
               (S (uuid_reads w + length pieces)) (backend_calls w) (delays w)
               (mkSink (delta_frames model (uuid_reads w) (clock_reads w) pieces
                        ++ [final; sse_done]) true None)).
  destruct (when_requestId_complete_keeps_sink requestId w2)
    as (w' & Hdone & Hsink).
  exists w'. split; [|rewrite Hsink; reflexivity].
  unfold transcode. apply try_catch_returns.
  erewrite bind_returns.
  2: { rewrite (pump_pieces Haccepts). rewrite Hfresh. reflexivity. }
  fold w1.
  erewrite bind_returns by reflexivity.
  erewrite bind_returns by reflexivity.
  erewrite bind_returns by apply (write_accepted Haccepts).
  erewrite bind_returns by apply (write_accepted Haccepts).
  erewrite bind_returns by reflexivity.
  cbn [metrics clock_reads uuid_reads backend_calls delays sink written closed
       aborted w1].
  rewrite <- app_assoc. exact Hdone.
Qed.

End TranscoderRun.

(** C8. Streaming transcoder frame sequence.  When the backend answers
    the streaming request with a body that delivers the pieces p1..pn and
    then ends, and the sink takes every write, the sink receives one delta
    frame per piece, in order, each a [chat.completion.chunk] whose delta
    content is the decoded piece and whose finish reason is null, then one
    terminal frame with the empty delta and the finish reason "stop", then
    the literal [data: [DONE]] followed by two line feeds, and is then
    closed. *)
Theorem transcoder_frame_sequence `{Platform}
    (messages : list Message.t) (model : jsstring)
    (temperature : option float) (maxTokens : option nat)
    (apiKey requestId : option jsstring) (w : World)
    (response : BackendResponse) (pieces : list (list Byte.byte)) :
  sendChatRequest (length (backend_calls w))
    (mkBackendCall messages model temperature maxTokens true apiKey)
  = inr response →
  response_body response = Some (Piece <$> pieces) →
  (∀ k bytes, writer_write k bytes = None) →
  ∃ w',
    handleStreamingChat messages model temperature maxTokens apiKey requestId w
    = (Returns (Response.EventStream event_stream_headers), w')
    ∧ sink w'
      = {| written :=
             imap (λ k piece,
                     TextEncoder_encode
                       (lit "data: "
                        ++ JSON_stringify
                             {| chunk_id :=
                                  lit "chatcmpl-"
                                  ++ generateUUID (uuid_reads w + k);
                                chunk_object := lit "chat.completion.chunk";
                                chunk_created :=
                                  (Date_now (clock_reads w + k) / 1000)%Z;
                                chunk_model := model;
                                chunk_choice_index := 0;
                                delta_content := Some (TextDecoder_decode piece);
                                finish_reason := None |}
                        ++ [LF; LF]))
                  pieces
             ++ [ TextEncoder_encode
                    (lit "data: "
                     ++ JSON_stringify
                          {| chunk_id :=
                               lit "chatcmpl-"
                               ++ generateUUID (uuid_reads w + length pieces);
                             chunk_object := lit "chat.completion.chunk";
                             chunk_created :=
                               (Date_now (clock_reads w + length pieces) / 1000)%Z;
                             chunk_model := model;
                             chunk_choice_index := 0;
                             delta_content := None;
                             finish_reason := Some (lit "stop") |}
                     ++ [LF; LF]);
                  TextEncoder_encode (lit "data: [DONE]" ++ [LF; LF]) ];
           closed := true;
           aborted := None |}.
Proof.
  intros Hsend Hbody Haccepts.
  destruct (transcode_pieces model pieces requestId
              (mkWorld (metrics w) (clock_reads w) (uuid_reads w)
                 (backend_calls w
                  ++ [mkBackendCall messages model temperature maxTokens true
                        apiKey])
                 (delays w) (mkSink [] false None)) Haccepts eq_refl)
    as (w' & Hrun & Hsink).
  exists w'. split.
  - unfold handleStreamingChat. apply try_catch_returns.
    erewrite bind_returns by (apply send_answered, Hsend).
    erewrite bind_returns by reflexivity.
    rewrite Hbody.
    erewrite bind_returns by exact Hrun. reflexivity.
  - rewrite Hsink. rewrite delta_frames_imap. reflexivity.
Qed.


(** * Further properties *)

(** ** TextChunker: where a window ends *)

Section SentenceBreak.

Import TextChunker.

Lemma substring_lookup (s : jsstring) a b i c :
  a ≤ b → substring s a b !! i = Some c → s !! (a + i) = Some c.
Proof.
  intros Hab Hi. unfold substring in Hi. cbv zeta in Hi.
  apply lookup_take_Some in Hi as [Hi _]. rewrite lookup_drop in Hi.
  apply lookup_lt_Some in Hi as Hlt.
  replace ((a `min` length s) `min` (b `min` length s)) with a in Hi by lia.
  exact Hi.
Qed.

Lemma substring_lookup_inv (s : jsstring) a b i c :
  a + i < b → s !! (a + i) = Some c → substring s a b !! i = Some c.
Proof.
  unfold jsstring in *. intros Hlt Hi. apply lookup_lt_Some in Hi as Hlen.
  unfold substring. cbv zeta.
  replace ((a `min` length s) `min` (b `min` length s)) with a by lia.
  replace ((a `min` length s) `max` (b `min` length s)) with (b `min` length s)
    by lia.
  rewrite lookup_take_lt by lia. rewrite lookup_drop. exact Hi.
Qed.

Lemma calculateBreakScore_positive position target :
  0 < calculateBreakScore position target →
  position ≤ target + 99 ∧ target ≤ position + 99.
Proof. unfold calculateBreakScore. lia. Qed.

Lemma scan_step_kept searchText start target best i :
  scan_kept searchText start target best →
  scan_kept searchText start target (scan_step searchText start target best i).
Proof.
  intros Hbest. unfold scan_step.
  destruct (searchText !! i) as [c|] eqn:Hc; [|exact Hbest].
  destruct (includes sentenceEnders c) eqn:Hender; [|exact Hbest].
  destruct (best.2 <? _) eqn:Hscore; [|exact Hbest].
  apply Nat.ltb_lt in Hscore. right. cbn [fst snd].
  split; [lia|]. split; [reflexivity|]. exists i, c. auto.
Qed.

Lemma scan_kept_all searchText start target offsets best :
  scan_kept searchText start target best →
  scan_kept searchText start target
    (foldl (scan_step searchText start target) best offsets).
Proof.
  revert best. induction offsets as [|i offsets IH]; intros best Hbest;
    [exact Hbest|].
  cbn [foldl]. apply IH, scan_step_kept, Hbest.
Qed.

Lemma scan_step_score searchText start target best i :
  best.2 ≤ (scan_step searchText start target best i).2.
Proof.
  unfold scan_step. repeat case_match; cbn [snd]; try lia.
  match goal with Hlt : (_ <? _) = true |- _ => apply Nat.ltb_lt in Hlt end.
  lia.
Qed.

Lemma scan_score_grows searchText start target offsets best :
  best.2 ≤ (foldl (scan_step searchText start target) best offsets).2.
Proof.
  revert best. induction offsets as [|i offsets IH]; intros best; [done|].
  cbn [foldl]. etrans; [apply scan_step_score | apply IH].
Qed.

(** No offset that was scanned has a better score than the one kept. *)
Lemma scan_best searchText start target offsets best i c :
  i ∈ offsets →
  searchText !! i = Some c → includes sentenceEnders c = true →
  calculateBreakScore (start + i + 1) target
  ≤ (foldl (scan_step searchText start target) best offsets).2.
Proof.
  revert best. induction offsets as [|j offsets IH]; intros best Hin Hc Hender.
  - inversion Hin.
  - cbn [foldl]. apply elem_of_cons in Hin as [-> | Hin].
    + etrans; [|apply scan_score_grows].
      unfold scan_step. rewrite Hc, Hender.
      destruct (best.2 <? _) eqn:Hscore; cbn [snd]; [lia|].
      apply Nat.ltb_ge in Hscore. exact Hscore.
    + apply IH; assumption.
Qed.

Lemma findSentenceBreak_kept text start target :
  let searchText := substring text start (target + 200) in
  let lowest := target - start - 200 in
  let best := foldl (scan_step searchText start target) (target, 0)
                (rev (seq lowest (length searchText - lowest))) in
  scan_kept searchText start target best
  ∧ findSentenceBreak text start target = best.1.
Proof.
  cbv zeta. split; [|reflexivity]. apply scan_kept_all. left. reflexivity.
Qed.

Lemma findSentenceBreak_near text start target :
  findSentenceBreak text start target = target
  ∨ (start < findSentenceBreak text start target ≤ length text
     ∧ findSentenceBreak text start target ≤ target + 99
     ∧ target ≤ findSentenceBreak text start target + 99
     ∧ ∃ c, text !! (findSentenceBreak text start target - 1) = Some c
            ∧ includes sentenceEnders c = true).
Proof.
  destruct (findSentenceBreak_kept text start target) as [Hkept ->].
  set (best := foldl _ _ _) in *.
  destruct Hkept as [-> | (Hpos & Hscore & i & c & Hat & Hc & Hender)];
    [left; reflexivity | right].
  rewrite Hscore in Hpos. apply calculateBreakScore_positive in Hpos.
  apply substring_lookup in Hc; [|lia].
  apply lookup_lt_Some in Hc as Hlen.
  repeat split; try lia.
  exists c. split; [|exact Hender].
  replace (best.1 - 1) with (start + i) by lia. exact Hc.
Qed.

(** X1. The position [findSentenceBreak] returns is the target itself
    or a position right behind a sentence ender of the text, behind the
    start, and less than 100 code units away from the target. *)
Theorem findSentenceBreak_behind_sentence_ender text start target :
  findSentenceBreak text start target = target
  ∨ (start < findSentenceBreak text start target ≤ length text
     ∧ findSentenceBreak text start target ≤ target + 99
     ∧ target ≤ findSentenceBreak text start target + 99
     ∧ ∃ c, text !! (findSentenceBreak text start target - 1) = Some c
            ∧ includes sentenceEnders c = true).
Proof. apply findSentenceBreak_near. Qed.

(** X2. When some sentence ender behind the start lies less than 100
    code units from the target, [findSentenceBreak] returns a position
    right behind a sentence ender, and no such position is closer to the
    target than the one returned. *)
Theorem findSentenceBreak_closest text start target p c :
  start < p →
  text !! (p - 1) = Some c → includes sentenceEnders c = true →
  p ≤ target + 99 → target ≤ p + 99 →
  (∃ c', text !! (findSentenceBreak text start target - 1) = Some c'
         ∧ includes sentenceEnders c' = true)
  ∧ (findSentenceBreak text start target - target)
    + (target - findSentenceBreak text start target)
    ≤ (p - target) + (target - p).
Proof.
  intros Hstart Hc Hender Hhi Hlo.
  apply lookup_lt_Some in Hc as Hlen.
  set (searchText := substring text start (target + 200)).
  set (i := p - start - 1).
  assert (Hi : searchText !! i = Some c).
  { apply substring_lookup_inv; [lia|].
    replace (start + i) with (p - 1) by lia. exact Hc. }
  apply lookup_lt_Some in Hi as Hilen.
  assert (Hin : i ∈ rev (seq (target - start - 200)
                           (length searchText - (target - start - 200)))).
  { apply elem_of_rev, elem_of_seq. lia. }
  pose proof (scan_best searchText start target _ (target, 0) i c
                Hin Hi Hender) as Hbest.
  replace (start + i + 1) with p in Hbest by lia.
  destruct (findSentenceBreak_kept text start target) as [Hkept Hr].
  fold searchText in Hkept, Hr. rewrite Hr.
  set (best := foldl _ _ _) in *.
  assert (Hp : 0 < calculateBreakScore p target)
    by (unfold calculateBreakScore; lia).
  destruct Hkept as [Hinit | (Hpos & Hscore & j & c' & Hat & Hc' & Hender')].
  - rewrite Hinit in Hbest. cbn [fst snd] in Hbest. lia.
  - rewrite Hscore in Hbest, Hpos.
    apply calculateBreakScore_positive in Hpos as Hnear.
    apply substring_lookup in Hc'; [|lia].
    split.
    + exists c'. split; [|exact Hender'].
      replace (best.1 - 1) with (start + j) by lia. exact Hc'.
    + unfold calculateBreakScore in Hbest. lia.
Qed.

End SentenceBreak.

Section SegmentLengths.

Variable text : jsstring.
Variable maxChunkSize : nat.

Lemma window_end_span start :
  0 < maxChunkSize → start < length text →
  window_end text maxChunkSize start ≤ start + maxChunkSize + 99
  ∧ (window_end text maxChunkSize start < length text →
     start + maxChunkSize ≤ window_end text maxChunkSize start + 99).
Proof.
  intros Hm Hs. unfold window_end.
  destruct (_ <? length text) eqn:Hnom; [|apply Nat.ltb_ge in Hnom; lia].
  apply Nat.ltb_lt in Hnom.
  destruct (TextChunker.beyond_threshold _ _ _); [|lia].
  destruct (findSentenceBreak_near text start
              ((start + maxChunkSize) `min` length text))
    as [-> | (_ & Hhi & Hlo & _)]; lia.
Qed.

Lemma windows_lengths start idx chunks :
  0 < maxChunkSize →
  windows text maxChunkSize start idx chunks →
  ∀ k c, chunks !! k = Some c →
    0 < length (content c) ≤ maxChunkSize + 99
    ∧ (S k < length chunks → maxChunkSize ≤ length (content c) + 99).
Proof.
  intros Hm Hwin.
  induction Hwin as [|start idx chunks Hs Hrest IH]; intros k c Hk;
    [discriminate|].
  destruct (window_end_bounds text maxChunkSize start Hm Hs) as [Hlo Hhi].
  destruct (window_end_span start Hm Hs) as [Hmax Hmin].
  destruct k as [|k].
  - injection Hk as <-. cbn [content length].
    rewrite length_substring. split; [lia|].
    intros Hmore. inversion Hrest; subst; cbn [length] in Hmore; lia.
  - cbn [lookup list_lookup] in Hk. destruct (IH k c Hk) as [Hlen Hnext].
    split; [exact Hlen|]. intros Hmore. apply Hnext.
    cbn [length] in Hmore. lia.
Qed.

(** X3. Segment sizes of [chunkText]: every segment is non-empty and at
    most [maxChunkSize + 99] code units long, and every segment but the
    last is at least [maxChunkSize - 99] long. *)
Theorem chunkText_segment_lengths chunks :
  0 < maxChunkSize →
  0 < length text →
  TextChunker.chunkText text maxChunkSize = Some chunks →
  ∀ k c, chunks !! k = Some c →
    0 < length (content c) ≤ maxChunkSize + 99
    ∧ (S k < length chunks → maxChunkSize ≤ length (content c) + 99).
Proof.
  intros Hm Htext Hrun k c Hk.
  destruct (decide (length text ≤ maxChunkSize)) as [Hshort|Hlong].
  - rewrite chunkText_short in Hrun by exact Hshort.
    injection Hrun as <-. destruct k; [|discriminate].
    injection Hk as <-. cbn [content length]. lia.
  - destruct (chunkText_long text maxChunkSize Hm) as (raw & Hraw & Hwin);
      [lia|].
    rewrite Hraw in Hrun. injection Hrun as <-.
    rewrite update_totalChunks_length.
    apply update_totalChunks_lookup in Hk as (c0 & Hk0 & Hc & _).
    rewrite Hc.
    apply (windows_lengths 0 0 raw Hm Hwin k c0 Hk0).
Qed.

Lemma window_end_cut start :
  0 < maxChunkSize → start < length text →
  window_end text maxChunkSize start = (start + maxChunkSize) `min` length text
  ∨ ∃ ch, last (substring text start (window_end text maxChunkSize start))
          = Some ch
          ∧ includes TextChunker.sentenceEnders ch = true.
Proof.
  intros Hm Hs.
  destruct (window_end_bounds text maxChunkSize start Hm Hs) as [Hlo Hhi].
  revert Hlo Hhi. unfold window_end.
  destruct (_ <? length text) eqn:Hnom; [|left; reflexivity].
  destruct (TextChunker.beyond_threshold _ _ _); [|left; reflexivity].
  intros Hlo Hhi.
  destruct (findSentenceBreak_near text start
              ((start + maxChunkSize) `min` length text))
    as [Htarget | (_ & _ & _ & ch & Hch & Hender)]; [left; exact Htarget|].
  right. exists ch. split; [|exact Hender].
  rewrite last_lookup, length_substring.
  apply substring_lookup_inv; [lia|].
  rewrite <- Hch. f_equal. lia.
Qed.

Lemma windows_cuts start idx chunks :
  0 < maxChunkSize →
  windows text maxChunkSize start idx chunks →
  ∀ k c, chunks !! k = Some c → S k < length chunks →
    length (content c) = maxChunkSize
    ∨ ∃ ch, last (content c) = Some ch
            ∧ includes TextChunker.sentenceEnders ch = true.
Proof.
  intros Hm Hwin.
  induction Hwin as [|start idx chunks Hs Hrest IH]; intros k c Hk Hmore;
    [discriminate|].
  destruct k as [|k].
  - injection Hk as <-. cbn [content].
    destruct (window_end_cut start Hm Hs) as [Hnominal | Hender];
      [left | right; exact Hender].
    assert (window_end text maxChunkSize start < length text) as Hinside
      by (inversion Hrest; subst; cbn [length] in Hmore; lia).
    rewrite length_substring. lia.
  - cbn [lookup list_lookup] in Hk. apply (IH k c Hk).
    cbn [length] in Hmore. lia.
Qed.

(** X4. Where [chunkText] cuts: every segment but the last is exactly
    [maxChunkSize] code units long or ends with a sentence ender. *)
Theorem chunkText_cut_points chunks :
  0 < maxChunkSize →
  TextChunker.chunkText text maxChunkSize = Some chunks →
  ∀ k c, chunks !! k = Some c → S k < length chunks →
    length (content c) = maxChunkSize
    ∨ ∃ ch, last (content c) = Some ch
            ∧ includes TextChunker.sentenceEnders ch = true.
Proof.
  intros Hm Hrun k c Hk Hmore.
  destruct (decide (length text ≤ maxChunkSize)) as [Hshort|Hlong].
  - rewrite chunkText_short in Hrun by exact Hshort.
    injection Hrun as <-. cbn [length] in Hmore. lia.
  - destruct (chunkText_long text maxChunkSize Hm) as (raw & Hraw & Hwin);
      [lia|].
    rewrite Hraw in Hrun. injection Hrun as <-.
    rewrite update_totalChunks_length in Hmore.
    apply update_totalChunks_lookup in Hk as (c0 & Hk0 & Hc & _).
    rewrite Hc.
    apply (windows_cuts 0 0 raw Hm Hwin k c0 Hk0 Hmore).
Qed.

End SegmentLengths.

Lemma findSentenceBreak_closest_witness :
  (∃ c', lit "One. Two. Three" !! (TextChunker.findSentenceBreak
                                     (lit "One. Two. Three") 0 7 - 1) = Some c'
         ∧ includes TextChunker.sentenceEnders c' = true)
  ∧ (TextChunker.findSentenceBreak (lit "One. Two. Three") 0 7 - 7)
    + (7 - TextChunker.findSentenceBreak (lit "One. Two. Three") 0 7)
    ≤ (4 - 7) + (7 - 4).
Proof.
  apply (findSentenceBreak_closest (lit "One. Two. Three") 0 7 4 46%N);
    [lia | reflexivity | reflexivity | lia | lia].
Defined.

Lemma chunkText_cut_points_witness :
  ∃ chunks,
    TextChunker.chunkText (lit "One. Two. Three.") 4 = Some chunks
    ∧ ∀ k c, chunks !! k = Some c → S k < length chunks →
        length (content c) = 4
        ∨ ∃ ch, last (content c) = Some ch
                ∧ includes TextChunker.sentenceEnders ch = true.
Proof.
  eexists. split; [vm_compute; reflexivity|].
  apply (chunkText_cut_points (lit "One. Two. Three.") 4);
    [lia | vm_compute; reflexivity].
Defined.

Lemma chunkText_segment_lengths_witness :
  ∃ chunks,
    TextChunker.chunkText (lit "One. Two. Three.") 4 = Some chunks
    ∧ ∀ k c, chunks !! k = Some c →
        0 < length (content c) ≤ 4 + 99
        ∧ (S k < length chunks → 4 ≤ length (content c) + 99).
Proof.
  eexists. split; [vm_compute; reflexivity|].
  apply (chunkText_segment_lengths (lit "One. Two. Three.") 4);
    [lia | vm_compute; lia | vm_compute; reflexivity].
Defined.

(** ** TextChunker: more on reassembly *)

Section ReassemblyFacts.

Import TextChunker.

Lemma index_determines chunks c d :
  NoDup (index <$> chunks) → c ∈ chunks → d ∈ chunks →
  index c = index d → c = d.
Proof.
  intros Hnd Hc Hd Heq.
  apply list_elem_of_lookup in Hc as [i Hi].
  apply list_elem_of_lookup in Hd as [j Hj].
  assert (i = j) as ->.
  { apply (NoDup_lookup (index <$> chunks) i j (index c) Hnd).
    - rewrite list_lookup_fmap, Hi. reflexivity.
    - rewrite list_lookup_fmap, Hj, Heq. reflexivity. }
  congruence.
Qed.

Lemma sort_by_index_permuted chunks chunks' :
  chunks ≡ₚ chunks' → NoDup (index <$> chunks) →
  sort_by_index chunks = sort_by_index chunks'.
Proof.
  intros Hperm Hnd.
  assert (Transitive (λ a b : TextChunk, index a ≤ index b))
    by (intros a b c; lia).
  apply (Sorted_unique_strong (λ a b, index a ≤ index b));
    try apply sort_by_index_sorted.
  - intros c d Hc Hd Hcd Hdc.
    rewrite sort_by_index_perm in Hc. rewrite sort_by_index_perm in Hd.
    rewrite <- Hperm in Hd.
    apply (index_determines chunks c d Hnd Hc Hd). lia.
  - rewrite !sort_by_index_perm. exact Hperm.
Qed.

(** X5. Reassembly does not depend on the order in which the segments
    are passed, as long as no two of them carry the same index. *)
Theorem reconstructText_order_independent chunks chunks' :
  chunks ≡ₚ chunks' → NoDup (index <$> chunks) →
  reconstructText chunks = reconstructText chunks'.
Proof.
  intros Hperm Hnd.
  pose proof (sort_by_index_permuted chunks chunks' Hperm Hnd) as Hsort.
  pose proof (Permutation_length Hperm) as Hlen.
  destruct chunks as [|c [|d chunks]].
  - apply Permutation_nil_l in Hperm as <-. reflexivity.
  - apply Permutation_singleton_l in Hperm as <-. reflexivity.
  - destruct chunks' as [|c' [|d' chunks']]; try discriminate.
    unfold reconstructText. rewrite Hsort. reflexivity.
Qed.

Lemma findOverlap_bounds text1 text2 :
  findOverlap text1 text2 ≤ 2 * OVERLAP_SIZE
  ∧ findOverlap text1 text2 ≤ length text2.
Proof.
  unfold findOverlap. cbv zeta.
  destruct (findOverlap_loop_largest text1 text2
              ((OVERLAP_SIZE * 2) `min` (length text1 `min` length text2)))
    as [Hle _]; lia.
Qed.

Lemma remainders_length previous rest :
  sum_list_with (length ∘ content) rest - 2 * OVERLAP_SIZE * length rest
  ≤ length (concat (remainders previous rest))
  ≤ sum_list_with (length ∘ content) rest.
Proof.
  revert previous. induction rest as [|current rest IH]; intros previous;
    [cbn; lia|].
  cbn [remainders concat sum_list_with length]. rewrite length_app, length_drop.
  destruct (findOverlap_bounds (content previous) (content current)).
  specialize (IH current). unfold compose at 1 3. lia.
Qed.

(** X6. What reassembly drops: the text that [reconstructText] returns
    is never longer than the segments together, and shorter by at most
    [2 * OVERLAP_SIZE] code units for each seam between two segments. *)
Theorem reconstructText_length chunks :
  sum_list_with (length ∘ content) chunks
    - 2 * OVERLAP_SIZE * (length chunks - 1)
  ≤ length (reconstructText chunks)
  ≤ sum_list_with (length ∘ content) chunks.
Proof.
  destruct chunks as [|c [|d chunks]]; [cbn; lia | cbn; lia |].
  unfold reconstructText.
  rewrite <- (sum_list_with_Permutation_proper _ _ _
                (sort_by_index_perm (c :: d :: chunks))).
  rewrite <- (Permutation_length (sort_by_index_perm (c :: d :: chunks))).
  destruct (sort_by_index (c :: d :: chunks)) as [|first rest]; [cbn; lia|].
  rewrite reconstruct_loop_remainders, length_app.
  pose proof (remainders_length first rest) as Hrest.
  cbn [sum_list_with length]. unfold compose at 1 3.
  lia.
Qed.

End ReassemblyFacts.

Lemma remainders_complete previous rest :
  length (concat (remainders previous rest))
  ≤ length (concat (content <$> rest))
  ∧ (length (concat (remainders previous rest))
     = length (concat (content <$> rest)) →
     overlap_free previous rest).
Proof.
  revert previous. induction rest as [|current rest IH]; intros previous;
    [split; [reflexivity | intros _; exact I]|].
  rewrite fmap_cons. cbn [remainders overlap_free concat].
  rewrite !length_app, length_drop.
  destruct (IH current) as [Hle Hfree].
  split; [lia|]. intros Hlen.
  destruct (findOverlap_bounds (content previous) (content current))
    as [_ Hbound].
  split; [lia|]. apply Hfree. lia.
Qed.

(** X7. When the round trip gives back the text: reassembling the
    segments of [chunkText] returns the text exactly when no segment
    begins with what the segment before it ends with. *)
Theorem reconstructText_chunkText_round_trip (text : jsstring) maxChunkSize
    first rest :
  0 < maxChunkSize →
  TextChunker.chunkText text maxChunkSize = Some (first :: rest) →
  TextChunker.reconstructText (first :: rest) = text
  ↔ overlap_free first rest.
Proof.
  intros Hm Hrun. split;
    [|apply (reconstructText_chunkText_overlap_free text maxChunkSize);
      assumption].
  assert (index <$> first :: rest = seq 0 (length (first :: rest))
          ∧ concat (content <$> first :: rest) = text) as [Hseq Hconcat].
  { destruct (decide (length text ≤ maxChunkSize)) as [Hshort|Hlong].
    - rewrite chunkText_short in Hrun by exact Hshort.
      injection Hrun as <- <-. split; [reflexivity|apply app_nil_r].
    - destruct (chunkText_long text maxChunkSize Hm) as (chunks & Hrun' & Hwin);
        [lia|].
      rewrite Hrun in Hrun'. injection Hrun' as Hchunks. rewrite Hchunks.
      rewrite update_totalChunks_index, update_totalChunks_length,
        update_totalChunks_content.
      split; [eapply windows_index, Hwin|].
      rewrite (adjacent_slices_concat text 0) by
        (lia || (eapply windows_adjacent; [exact Hm | exact Hwin | lia])).
      reflexivity. }
  destruct rest as [|second rest]; [intros _; exact I|].
  unfold TextChunker.reconstructText.
  rewrite (sort_by_index_ordered _ (seq_indices_sorted _ 0 Hseq)).
  rewrite reconstruct_loop_remainders. rewrite <- Hconcat at 1.
  rewrite fmap_cons. cbn [concat]. intros Hsame.
  apply app_inv_head in Hsame.
  apply (remainders_complete first (second :: rest)).
  apply (f_equal length) in Hsame. exact Hsame.
Qed.

Lemma reconstructText_order_independent_witness :
  let a := {| id := lit "chunk-0"; content := lit "One. "; index := 0;
              totalChunks := 2; originalLength := 9 |} in
  let b := {| id := lit "chunk-1"; content := lit "Two."; index := 1;
              totalChunks := 2; originalLength := 9 |} in
  TextChunker.reconstructText [b; a] = TextChunker.reconstructText [a; b].
Proof.
  intros a b.
  apply (reconstructText_order_independent [b; a] [a; b]).
  - apply Permutation_swap.
  - cbn. apply NoDup_cons. split; [|apply NoDup_singleton].
    intros Hin. apply list_elem_of_singleton in Hin. discriminate.
Defined.

Lemma reconstructText_chunkText_round_trip_witness :
  ∃ first rest,
    TextChunker.chunkText (lit "One. Two. Three.") 4 = Some (first :: rest)
    ∧ (TextChunker.reconstructText (first :: rest) = lit "One. Two. Three."
       ↔ overlap_free first rest).
Proof.
  eexists _, _. split; [vm_compute; reflexivity|].
  apply (reconstructText_chunkText_round_trip (lit "One. Two. Three.") 4);
    [lia | vm_compute; reflexivity].
Defined.

(** ** SubtitleChunker: sizes and small inputs *)

Section SubtitleFacts.

Import SubtitleChunker.

Lemma length_dropWhile {A} (p : A → bool) (l : list A) :
  length (dropWhile p l) ≤ length l.
Proof.
  induction l as [|x l IH]; [reflexivity|].
  cbn [dropWhile]. destruct (p x); cbn [length]; lia.
Qed.

Lemma length_trim (s : jsstring) : length (trim s) ≤ length s.
Proof.
  unfold trim. rewrite length_rev.
  etrans; [apply length_dropWhile|]. rewrite length_rev.
  apply length_dropWhile.
Qed.

Lemma line_step_sizes lines maxChunkSize n st line :
  line ∈ lines →
  sizes_invariant lines maxChunkSize st →
  sizes_invariant lines maxChunkSize (line_step maxChunkSize n st line).
Proof.
  destruct st as [[chunks currentChunk] chunkIndex].
  intros Hline [Hchunks Hcur]. unfold line_step.
  destruct (_ && _) eqn:Hflush.
  - split; [|right; left; exact Hline].
    apply Forall_app. split; [exact Hchunks|].
    constructor; [|constructor]. cbn [subtitle_chunk content].
    destruct Hcur as [-> | [Hblock | Hlen]].
    + left. cbn. lia.
    + right. exists currentChunk. split; [exact Hblock|reflexivity].
    + left. pose proof (length_trim currentChunk). lia.
  - split; [exact Hchunks|].
    apply andb_false_iff in Hflush.
    destruct currentChunk as [|c currentChunk].
    + right. left. exact Hline.
    + right. right. destruct Hflush as [Hfits | Hempty].
      * apply Nat.ltb_ge in Hfits. cbn [truthy].
        rewrite !length_app. cbn [length] in *. lia.
      * apply Nat.ltb_ge in Hempty. cbn [length] in Hempty. lia.
Qed.

Lemma lines_sizes lines maxChunkSize n rest st :
  rest ⊆ lines →
  sizes_invariant lines maxChunkSize st →
  sizes_invariant lines maxChunkSize (foldl (line_step maxChunkSize n) st rest).
Proof.
  revert st. induction rest as [|line rest IH]; intros st Hsub Hst;
    [exact Hst|].
  cbn [foldl]. apply IH.
  - intros x Hx. apply Hsub. apply elem_of_cons. right. exact Hx.
  - apply line_step_sizes; [|exact Hst]. apply Hsub, elem_of_cons. left.
    reflexivity.
Qed.

(** Every segment is a single block of the input, trimmed, or at most
    [maxChunkSize + 2] code units long. *)
Lemma chunkSubtitles_sizes subtitles maxChunkSize :
  Forall (λ c, length (content c) ≤ maxChunkSize + 2
               ∨ ∃ block, block ∈ split_blocks subtitles
                          ∧ content c = trim block)
         (chunkSubtitles subtitles maxChunkSize).
Proof.
  unfold chunkSubtitles. cbv zeta.
  pose proof (lines_sizes (split_blocks subtitles) maxChunkSize
                (length subtitles) (split_blocks subtitles) ([], [], 0))
    as Hinv.
  destruct (foldl _ _ _) as [[chunks currentChunk] chunkIndex].
  destruct Hinv as [Hchunks Hcur].
  { intros x Hx. exact Hx. }
  { split; [constructor | left; reflexivity]. }
  assert (Hall : Forall (λ c, length (content c) ≤ maxChunkSize + 2
                              ∨ ∃ block, block ∈ split_blocks subtitles
                                         ∧ content c = trim block)
                   (if truthy (trim currentChunk)
                    then chunks ++ [subtitle_chunk currentChunk chunkIndex
                                      (length subtitles)]
                    else chunks)).
  { destruct (truthy (trim currentChunk)) eqn:Hlast; [|exact Hchunks].
    apply Forall_app. split; [exact Hchunks|].
    constructor; [|constructor]. cbn [subtitle_chunk content].
    destruct Hcur as [-> | [Hblock | Hlen]].
    - discriminate.
    - right. exists currentChunk. split; [exact Hblock|reflexivity].
    - left. pose proof (length_trim currentChunk). lia. }
  unfold update_totalChunks. apply Forall_fmap.
  eapply Forall_impl; [exact Hall|]. intros c Hc. exact Hc.
Qed.

Lemma split_blocks_nonempty s : split_blocks s ≠ [].
Proof.
  assert (∀ c pieces, push c pieces ≠ []) as Hpush
    by (intros c [|piece pieces]; discriminate).
  destruct s as [|c [|d [|e [|f s4]]]]; cbn [split_blocks];
    try discriminate; repeat case_match; try discriminate; apply Hpush.
Qed.

Lemma split_blocks_no_CR c s1 :
  c ≠ CR →
  split_blocks (c :: s1)
  = match s1 with
    | [] => [[c]]
    | d :: s2 =>
        if ((c =? LF) && (d =? LF))%N then [] :: split_blocks s2
        else push c (split_blocks s1)
    end.
Proof.
  intros Hc. apply N.eqb_neq in Hc.
  destruct s1 as [|d [|e [|f s4]]]; cbn [split_blocks]; try reflexivity.
  rewrite Hc. reflexivity.
Qed.

Lemma join_push sep c pieces :
  pieces ≠ [] → join sep (push c pieces) = c :: join sep pieces.
Proof.
  destruct pieces as [|piece [|piece' pieces]]; [congruence|reflexivity..].
Qed.

Lemma join_cons_nonempty sep piece pieces :
  pieces ≠ [] → join sep (piece :: pieces) = piece ++ sep ++ join sep pieces.
Proof. destruct pieces; [congruence|reflexivity]. Qed.

(** Without carriage returns the blocks are the pieces between blank
    lines: joined by two line feeds they give back the text. *)
Lemma join_split_blocks s : CR ∉ s → join [LF; LF] (split_blocks s) = s.
Proof.
  remember (length s) as n eqn:Hn. revert s Hn.
  induction (lt_wf n) as [n _ IH]. intros s Hn Hcr.
  destruct s as [|c s1]; [reflexivity|].
  assert (c ≠ CR) as Hc
    by (intros ->; apply Hcr, elem_of_cons; left; reflexivity).
  assert (CR ∉ s1) as Hcr1
    by (intros Hin; apply Hcr, elem_of_cons; right; exact Hin).
  rewrite split_blocks_no_CR by exact Hc.
  destruct s1 as [|d s2]; [reflexivity|].
  destruct ((c =? LF) && (d =? LF))%N eqn:Hsep.
  - apply andb_true_iff in Hsep as [Hc' Hd'].
    apply N.eqb_eq in Hc', Hd'. subst c d.
    rewrite join_cons_nonempty by apply split_blocks_nonempty.
    rewrite (IH (length s2)); [reflexivity | cbn [length] in Hn; lia
                              | reflexivity |].
    intros Hin. apply Hcr1, elem_of_cons. right. exact Hin.
  - rewrite join_push by apply split_blocks_nonempty.
    rewrite (IH (length (d :: s2))); [reflexivity | cbn [length] in *; lia
                                     | reflexivity | exact Hcr1].
Qed.

Lemma lines_fit maxChunkSize n lines :
  ∀ chunks currentChunk chunkIndex,
    length currentChunk + sum_list_with (λ line, 2 + length line) lines
    ≤ maxChunkSize + 2 →
    foldl (line_step maxChunkSize n) (chunks, currentChunk, chunkIndex) lines
    = (chunks, foldl glue currentChunk lines, chunkIndex).
Proof.
  induction lines as [|line lines IH]; intros chunks currentChunk chunkIndex
    Hfits; [reflexivity|].
  cbn [foldl sum_list_with] in *. unfold line_step at 2.
  replace (maxChunkSize <? length currentChunk + length line) with false
    by (symmetry; apply Nat.ltb_ge; lia).
  cbn [andb]. apply IH. unfold glue. rewrite !length_app.
  destruct (truthy currentChunk); cbn [length]; lia.
Qed.

Lemma sum_blocks_join lines :
  lines ≠ [] →
  sum_list_with (λ line : jsstring, 2 + length line) lines
  = length (join [LF; LF] lines) + 2.
Proof.
  induction lines as [|line lines IH]; [congruence|]. intros _.
  destruct lines as [|line' lines].
  - cbn. lia.
  - rewrite join_cons_nonempty by discriminate.
    cbn [sum_list_with] in *. rewrite IH by discriminate.
    rewrite !length_app. cbn [length]. lia.
Qed.

Lemma glue_nonempty lines :
  ∀ currentChunk,
    currentChunk ≠ [] →
    foldl glue currentChunk lines = join [LF; LF] (currentChunk :: lines).
Proof.
  induction lines as [|line lines IH]; intros currentChunk Hcur;
    [reflexivity|].
  cbn [foldl]. rewrite IH.
  - unfold glue. apply truthy_nonempty in Hcur. rewrite Hcur.
    destruct lines as [|line' lines]; cbn [join];
      rewrite <- ?app_assoc; reflexivity.
  - unfold glue. destruct currentChunk; [congruence|discriminate].
Qed.

Lemma trim_glue lines :
  trim (foldl glue [] lines) = trim (join [LF; LF] lines).
Proof.
  induction lines as [|line lines IH]; [reflexivity|].
  cbn [foldl]. destruct line as [|c line].
  - change (glue [] []) with (@nil N). rewrite IH.
    destruct lines as [|line' lines]; reflexivity.
  - change (glue [] (c :: line)) with (c :: line).
    rewrite glue_nonempty by discriminate. reflexivity.
Qed.

Lemma line_step_groups maxChunkSize n done st line :
  groups_invariant done st →
  groups_invariant (done ++ [line]) (line_step maxChunkSize n st line).
Proof.
  destruct st as [[chunks currentChunk] chunkIndex].
  intros (groups & last & Hdone & Hcontents & Hcur). unfold line_step.
  destruct (_ && _).
  - exists (groups ++ [last]), [line]. split; [|split].
    + rewrite concat_app, Hdone. cbn [concat]. rewrite app_nil_r. reflexivity.
    + rewrite !fmap_app, Hcontents, Hcur. reflexivity.
    + reflexivity.
  - exists groups, (last ++ [line]). split; [|split].
    + rewrite concat_app in *. cbn [concat] in *. rewrite app_nil_r in *.
      rewrite <- Hdone, !app_assoc. reflexivity.
    + exact Hcontents.
    + rewrite foldl_app, <- Hcur. reflexivity.
Qed.

Lemma lines_groups maxChunkSize n rest :
  ∀ done st,
    groups_invariant done st →
    groups_invariant (done ++ rest) (foldl (line_step maxChunkSize n) st rest).
Proof.
  induction rest as [|line rest IH]; intros done st Hst.
  - rewrite app_nil_r. exact Hst.
  - cbn [foldl]. rewrite cons_middle, app_assoc.
    apply IH, line_step_groups, Hst.
Qed.

(** X8. [chunkSubtitles] never cuts a block, and loses or moves none:
    the blocks of the text fall into consecutive groups, in their order,
    every block in one group, and the segments are the groups, one
    segment per group in the same order, each holding the blocks of its
    group joined by an empty line and trimmed; only the last group gives no
    segment when nothing is left of it after trimming.  The separator is
    not counted against the maximum: a segment is a single block, however
    long, or at most [maxChunkSize + 2] code units long. *)
Theorem chunkSubtitles_keeps_blocks subtitles maxChunkSize :
  ∃ groups last,
    concat (groups ++ [last]) = split_blocks subtitles
    ∧ content <$> chunkSubtitles subtitles maxChunkSize
      = (λ group, trim (join [LF; LF] group))
        <$> (groups ++ (if truthy (trim (join [LF; LF] last))
                        then [last] else []))
    ∧ Forall (λ c, length (content c) ≤ maxChunkSize + 2
                   ∨ ∃ block, block ∈ split_blocks subtitles
                              ∧ content c = trim block)
             (chunkSubtitles subtitles maxChunkSize).
Proof.
  pose proof (chunkSubtitles_sizes subtitles maxChunkSize) as Hsizes.
  revert Hsizes. unfold chunkSubtitles. cbv zeta.
  pose proof (lines_groups maxChunkSize (length subtitles)
                (split_blocks subtitles) [] ([], [], 0)) as Hinv.
  destruct (foldl _ _ _) as [[chunks currentChunk] chunkIndex].
  destruct Hinv as (groups & last & Hdone & Hcontents & Hcur).
  { exists [], []. repeat split. }
  intros Hsizes. exists groups, last.
  split; [exact Hdone|]. split; [|exact Hsizes].
  rewrite update_totalChunks_content, Hcur, trim_glue.
  assert (Hjoin : (λ group, trim (foldl glue [] group)) <$> groups
                  = (λ group, trim (join [LF; LF] group)) <$> groups)
    by (apply list_fmap_ext; intros k group _; apply trim_glue).
  destruct (truthy (trim (join [LF; LF] last))).
  - rewrite !fmap_app, Hcontents, Hjoin. cbn [fmap list_fmap subtitle_chunk
                                                content].
    rewrite trim_glue. reflexivity.
  - rewrite app_nil_r, Hcontents. exact Hjoin.
Qed.

(** X9. Small subtitle input: a text without carriage returns that is
    no longer than the maximum comes back as one segment that holds the
    text trimmed, with index 0 and [totalChunks] 1, and as no segment at
    all when it is blank. *)
Theorem chunkSubtitles_small_input subtitles maxChunkSize :
  CR ∉ subtitles → length subtitles ≤ maxChunkSize →
  chunkSubtitles subtitles maxChunkSize
  = if truthy (trim subtitles)
    then [ {| id := lit "subtitle-chunk-0";
              content := trim subtitles;
              index := 0;
              totalChunks := 1;
              originalLength := length subtitles |} ]
    else [].
Proof.
  intros Hcr Hlen. unfold chunkSubtitles. cbv zeta.
  pose proof (join_split_blocks subtitles Hcr) as Hjoin.
  rewrite lines_fit.
  - rewrite trim_glue, Hjoin.
    destruct (truthy (trim subtitles)); [|reflexivity].
    unfold update_totalChunks, subtitle_chunk. cbn.
    rewrite trim_glue, Hjoin. reflexivity.
  - rewrite sum_blocks_join by apply split_blocks_nonempty.
    rewrite Hjoin. cbn [length]. lia.
Qed.

End SubtitleFacts.

Lemma chunkSubtitles_small_input_witness :
  SubtitleChunker.chunkSubtitles (lit " 1" ++ [LF; LF] ++ lit "2 ") 1500
  = [ {| id := lit "subtitle-chunk-0";
         content := lit "1" ++ [LF; LF] ++ lit "2";
         index := 0;
         totalChunks := 1;
         originalLength := 6 |} ].
Proof.
  apply (chunkSubtitles_small_input (lit " 1" ++ [LF; LF] ++ lit "2 ") 1500).
  - apply (bool_decide_unpack _). vm_compute. reflexivity.
  - vm_compute. lia.
Defined.

(** ** detectSubtitles *)

Section Detection.

Import SubtitlePatterns.

Lemma search_found matcher (before s : jsstring) :
  matcher s = true → search matcher (before ++ s) = true.
Proof.
  intros Hs. induction before as [|c before IH]; cbn [app].
  - destruct s; cbn [search]; rewrite Hs; reflexivity.
  - cbn [search]. rewrite IH.
    destruct (matcher (c :: before ++ s)); reflexivity.
Qed.

Lemma search_nowhere (P : N → Prop) matcher (s : jsstring) :
  matcher [] = false →
  (∀ c rest, P c → matcher (c :: rest) = false) →
  Forall P s → search matcher s = false.
Proof.
  intros Hnil Hhead Hall.
  induction Hall as [|c s Hc _ IH]; cbn [search].
  - rewrite Hnil. reflexivity.
  - rewrite (Hhead c s Hc). exact IH.
Qed.

Lemma lines_Forall (P : N → Prop) (s : jsstring) :
  Forall P s → Forall (Forall P) (lines s).
Proof.
  induction 1 as [|c s Hc _ IH]; cbn [lines].
  - repeat constructor.
  - destruct (is_line_terminator c); [constructor; [constructor|exact IH]|].
    destruct (lines s) as [|line rest].
    + repeat constructor. exact Hc.
    + inversion IH; subst. constructor; [|assumption].
      constructor; assumption.
Qed.

(** X10. Any text that contains the arrow [-->] is taken for
    subtitles, whatever stands around it. *)
Theorem detectSubtitles_arrow (before after : jsstring) :
  detectSubtitles (before ++ lit "-->" ++ after) = true.
Proof.
  unfold detectSubtitles.
  assert (arrow (before ++ lit "-->" ++ after) = true) as ->.
  { unfold arrow. apply search_found. reflexivity. }
  rewrite orb_true_r. reflexivity.
Qed.

(** X11. A text with no digit, no hyphen, no [<] and no [[] is never
    taken for subtitles. *)
Theorem detectSubtitles_plain_text (text : jsstring) :
  Forall (λ c, is_digit c = false ∧ c ≠ 45%N ∧ c ≠ 60%N ∧ c ≠ 91%N) text →
  detectSubtitles text = false.
Proof.
  intros Hplain. unfold detectSubtitles.
  assert (timestamp text = false) as ->.
  { unfold timestamp. eapply search_nowhere; [reflexivity| |exact Hplain].
    intros c rest (Hdigit & _). cbn [matches_here atom_matches].
    rewrite Hdigit. reflexivity. }
  assert (sequence_number text = false) as ->.
  { unfold sequence_number. apply lines_Forall in Hplain.
    induction Hplain as [|line rest Hline _ IH]; [reflexivity|].
    cbn [existsb]. rewrite IH, orb_false_r.
    destruct Hline as [|c line (Hdigit & _) _]; [reflexivity|].
    cbn [truthy forallb]. rewrite Hdigit. reflexivity. }
  assert (arrow text = false) as ->.
  { unfold arrow. eapply search_nowhere; [reflexivity| |exact Hplain].
    intros c rest (_ & Hhyphen & _). cbn [matches_here atom_matches].
    apply N.eqb_neq in Hhyphen. rewrite Hhyphen. reflexivity. }
  assert (tag text = false) as ->.
  { unfold tag. eapply search_nowhere; [reflexivity| |exact Hplain].
    intros c rest (_ & _ & Hless & _). cbv beta.
    apply N.eqb_neq in Hless. rewrite Hless.
    destruct rest; reflexivity. }
  assert (bracket text = false) as ->.
  { unfold bracket. eapply search_nowhere; [reflexivity| |exact Hplain].
    intros c rest (_ & _ & _ & Hbracket). cbv beta.
    apply N.eqb_neq in Hbracket. rewrite Hbracket. reflexivity. }
  reflexivity.
Qed.

End Detection.

Lemma detectSubtitles_plain_text_witness :
  detectSubtitles (lit "Hello, world.") = false.
Proof.
  apply (detectSubtitles_plain_text (lit "Hello, world.")).
  apply (bool_decide_unpack _). vm_compute. reflexivity.
Defined.

(** ** TranslationLogger *)

Section LoggerFacts.

Context `{Platform}.

Lemma completeTranslation_recorded requestId chunkCount w entry :
  metrics w !! requestId = Some entry →
  completeTranslation requestId chunkCount w
  = (Returns (),
     mkWorld (<[requestId := TranslationLogger.complete_entry chunkCount
                               (Date_now (clock_reads w)) entry]> (metrics w))
             (S (clock_reads w)) (uuid_reads w) (backend_calls w) (delays w)
             (sink w)).
Proof.
  intros Hentry. unfold completeTranslation, get_metrics, mbind, M_bind.
  rewrite Hentry. reflexivity.
Qed.

(** X12. A lifecycle event of one request leaves the record of every
    other request as it is; it sends nothing to the backend, waits for
    nothing and does not touch the stream. *)
Theorem logger_events_are_local (requestId other : jsstring)
    (textLength : nat) (model error : jsstring) (chunkCount : option nat)
    (event : M unit) (w : World) :
  requestId ≠ other →
  event = startTranslation requestId textLength model
  ∨ event = completeTranslation requestId chunkCount
  ∨ event = failTranslation requestId error →
  metrics (event w).2 !! other = metrics w !! other
  ∧ backend_calls (event w).2 = backend_calls w
  ∧ delays (event w).2 = delays w
  ∧ sink (event w).2 = sink w.
Proof.
  intros Hother [-> | [-> | ->]].
  - rewrite startTranslation_world. cbn [snd metrics backend_calls delays sink].
    unfold TranslationLogger.startTranslation.
    rewrite lookup_insert_ne by exact Hother. auto.
  - unfold completeTranslation, mbind, M_bind, get_metrics.
    destruct (metrics w !! requestId); cbn; [|auto].
    rewrite lookup_insert_ne by exact Hother. auto.
  - unfold failTranslation, mbind, M_bind, get_metrics.
    destruct (metrics w !! requestId); cbn; [|auto].
    rewrite lookup_insert_ne by exact Hother. auto.
Qed.

(** X13. The life of a record: a request that is started and then
    completed, or started and then failed, is found under its id with the
    two clock readings, their difference as the duration, and the status,
    the segment count or the error of the event that ended it. *)
Theorem logger_lifecycle (requestId : jsstring) (textLength : nat)
    (model error : jsstring) (chunkCount : option nat) (w : World) :
  let t0 := Date_now (clock_reads w) in
  let t1 := Date_now (S (clock_reads w)) in
  ((startTranslation requestId textLength model;;
    completeTranslation requestId chunkCount;;
    getMetrics requestId) w).1
  = Returns (Some {| TranslationLogger.requestId := requestId; TranslationLogger.startTime := t0;
                     TranslationLogger.endTime := Some t1; TranslationLogger.duration := Some (t1 - t0)%Z;
                     TranslationLogger.textLength := textLength;
                     TranslationLogger.chunkCount := chunkCount;
                     TranslationLogger.model := model;
                     TranslationLogger.status := TranslationLogger.completed; TranslationLogger.error := None |})
  ∧ ((startTranslation requestId textLength model;;
      failTranslation requestId error;;
      getMetrics requestId) w).1
    = Returns (Some {| TranslationLogger.requestId := requestId; TranslationLogger.startTime := t0;
                       TranslationLogger.endTime := Some t1; TranslationLogger.duration := Some (t1 - t0)%Z;
                       TranslationLogger.textLength := textLength;
                       TranslationLogger.chunkCount := None;
                       TranslationLogger.model := model;
                       TranslationLogger.status := TranslationLogger.failed;
                       TranslationLogger.error := Some error |}).
Proof.
  intros t0 t1. split.
  - unfold mbind at 1. unfold M_bind at 1.
    rewrite startTranslation_world.
    unfold mbind at 1. unfold M_bind at 1.
    erewrite completeTranslation_recorded by apply lookup_insert_eq.
    unfold getMetrics, mbind, M_bind, get_metrics. cbn [metrics fst mret M_ret].
    rewrite lookup_insert_eq. reflexivity.
  - unfold mbind at 1. unfold M_bind at 1.
    rewrite startTranslation_world.
    unfold mbind at 1. unfold M_bind at 1.
    erewrite failTranslation_recorded by apply lookup_insert_eq.
    unfold getMetrics, mbind, M_bind, get_metrics. cbn [metrics fst mret M_ret].
    rewrite lookup_insert_eq. reflexivity.
Qed.

(** X14. An event for an id that has no record is dropped: nothing is
    recorded and the clock is not read; after [clearMetrics] this is so
    for every id. *)
Theorem logger_unknown_request_ignored (requestId error : jsstring)
    (chunkCount : option nat) (w : World) :
  (metrics w !! requestId = None →
   completeTranslation requestId chunkCount w = (Returns (), w)
   ∧ failTranslation requestId error w = (Returns (), w))
  ∧ (clearMetrics;; completeTranslation requestId chunkCount) w
    = clearMetrics w
  ∧ (clearMetrics;; failTranslation requestId error) w = clearMetrics w
  ∧ ((clearMetrics;; getMetrics requestId) w).1 = Returns None.
Proof.
  split; [|split; [|split]].
  - intros Hnone.
    unfold completeTranslation, failTranslation, mbind, M_bind, get_metrics.
    rewrite Hnone. split; reflexivity.
  - unfold completeTranslation, clearMetrics, mbind, M_bind. cbn.
    rewrite lookup_empty. reflexivity.
  - unfold failTranslation, clearMetrics, mbind, M_bind. cbn.
    rewrite lookup_empty. reflexivity.
  - unfold getMetrics, clearMetrics, mbind, M_bind. cbn.
    rewrite lookup_empty. reflexivity.
Qed.

End LoggerFacts.

(** ** The handler: what is sent on *)

Section Messages.

Context `{Platform}.

(** X15. Messages pass through [processMessages] one by one: their
    number, order and roles are kept, and a message is changed only when
    its content is an array in which [extractImageFromContent] finds an
    image; a request whose contents are strings, or arrays without an
    image, reaches the backend as it came. *)
Theorem processMessages_transparent (messages : list Message.t) :
  length (processMessages messages) = length messages
  ∧ Message.role <$> processMessages messages = Message.role <$> messages
  ∧ (Forall (λ message,
               ∀ parts, Message.content message = ContentParts parts →
                        or_else (extractImageFromContent parts) [] = [])
            messages →
     processMessages messages = messages).
Proof.
  unfold processMessages. split; [apply length_fmap|]. split.
  - rewrite <- list_fmap_compose. apply list_fmap_ext. intros k message _.
    cbn. destruct message as [role [s|parts|]]; cbn; try reflexivity.
    destruct (extractImageFromContent parts) as [imageUrl|]; [|reflexivity].
    destruct (truthy imageUrl); reflexivity.
  - intros Hplain. induction Hplain as [|message messages Hmessage _ IH];
      [reflexivity|].
    rewrite fmap_cons, IH. f_equal.
    destruct message as [role [s|parts|]]; cbn in *; try reflexivity.
    specialize (Hmessage parts eq_refl).
    destruct (extractImageFromContent parts) as [imageUrl|]; [|reflexivity].
    cbn [or_else] in Hmessage.
    destruct (truthy imageUrl) eqn:Himage; [|reflexivity].
    subst imageUrl. discriminate.
Qed.

End Messages.

(** ** The handler: what every request gets *)

Section Answers.

Context `{Platform}.






(** X17. A request without a message array, or for a model that is not
    in the table, is turned down before anything else happens: the answer
    is the error with the default status, no record is opened, the clock
    is not read and the backend is not called; only a request id has been
    drawn.  The model that is looked up is the default model when the
    request names none or names the empty string. *)
Theorem invalid_request_is_rejected
    (requestBody : ChatCompletionRequest.t) (apiKey : jsstring) (w : World) :
  let model := or_else (ChatCompletionRequest.model requestBody) DEFAULT_MODEL in
  ChatCompletionRequest.messages requestBody = None
  ∨ model_supported model = false →
  handleChatCompletionsWithBody requestBody apiKey w
  = (Returns
       (Response.Json default_error_status
          (ErrorPayload
             (match ChatCompletionRequest.messages requestBody with
              | None => lit "Messages field is required and must be an array"
              | Some _ => lit "Model '" ++ model ++ lit "' is not supported"
              end))),
     mkWorld (metrics w) (clock_reads w) (S (uuid_reads w)) (backend_calls w)
             (delays w) (sink w)).
Proof.
  intros model Hinvalid. unfold handleChatCompletionsWithBody.
  erewrite bind_returns by reflexivity.
  apply try_catch_returns.
  destruct (ChatCompletionRequest.messages requestBody) as [messages|];
    [|reflexivity].
  destruct Hinvalid as [Hnone | Hmodel]; [discriminate|].
  cbv zeta. fold model. rewrite Hmodel. reflexivity.
Qed.

(** *** Streaming: the backend fails or answers without a body *)

Lemma send_failed call w e :
  sendChatRequest (length (backend_calls w)) call = inl e →
  send call w
  = (Throws e,
     mkWorld (metrics w) (clock_reads w) (uuid_reads w)
             (backend_calls w ++ [call]) (delays w) (sink w)).
Proof. intros Hsend. unfold send. rewrite Hsend. reflexivity. Qed.

(** X18. A streaming answer without a body: the caller gets an event
    stream that is closed at once and carries no frame, not even the
    [DONE] line, and the record of the request is left as it was, neither
    completed nor failed. *)
Theorem streaming_without_body
    (messages : list Message.t) (model : jsstring)
    (temperature : option float) (maxTokens : option nat)
    (apiKey requestId : option jsstring) (w : World)
    (response : BackendResponse) :
  sendChatRequest (length (backend_calls w))
    (mkBackendCall messages model temperature maxTokens true apiKey)
  = inr response →
  response_body response = None →
  handleStreamingChat messages model temperature maxTokens apiKey requestId w
  = (Returns (Response.EventStream event_stream_headers_short),
     mkWorld (metrics w) (clock_reads w) (uuid_reads w)
       (backend_calls w
        ++ [mkBackendCall messages model temperature maxTokens true apiKey])
       (delays w) (mkSink [] true None)).
Proof.
  intros Hsend Hbody. unfold handleStreamingChat. apply try_catch_returns.
  erewrite bind_returns by (apply send_answered, Hsend).
  erewrite bind_returns by reflexivity.
  rewrite Hbody. reflexivity.
Qed.

(** X19. A streaming request that the backend does not take: the
    caller gets the error with status 500 instead of a stream, no stream
    is opened, and the record of the request is marked failed with the
    message of what was thrown. *)
Theorem streaming_request_fails
    (messages : list Message.t) (model : jsstring)
    (temperature : option float) (maxTokens : option nat)
    (apiKey : option jsstring) (requestId : jsstring) (w : World)
    (e : Thrown) (entry : TranslationLogger.TranslationMetrics) :
  sendChatRequest (length (backend_calls w))
    (mkBackendCall messages model temperature maxTokens true apiKey)
  = inl e →
  truthy requestId = true →
  metrics w !! requestId = Some entry →
  handleStreamingChat messages model temperature maxTokens apiKey
    (Some requestId) w
  = (Returns (Response.Json 500
                (ErrorPayload
                   (lit "Failed to process streaming chat completion"))),
     mkWorld
       (<[requestId := TranslationLogger.fail_entry (error_message e)
                         (Date_now (clock_reads w)) entry]> (metrics w))
       (S (clock_reads w)) (uuid_reads w)
       (backend_calls w
        ++ [mkBackendCall messages model temperature maxTokens true apiKey])
       (delays w) (sink w)).
Proof.
  intros Hsend Hid Hentry. unfold handleStreamingChat.
  erewrite try_catch_throws
    by (erewrite bind_throws; [reflexivity | apply send_failed, Hsend]).
  cbn [when_requestId]. rewrite Hid.
  erewrite bind_returns by (apply failTranslation_recorded; exact Hentry).
  reflexivity.
Qed.

End Answers.

(** ** The handler: single calls *)

Section SingleCall.

Context `{Platform}.

(** [handleNonStreamingChat] for a request that has a record: the answer
    and the record follow what the backend does. *)
Lemma handleNonStreamingChat_logged messages model temperature maxTokens
    apiKey requestId w entry :
  truthy requestId = true →
  metrics w !! requestId = Some entry →
  handleNonStreamingChat messages model temperature maxTokens apiKey
    (Some requestId) w
  = match backend_json (length (backend_calls w))
            (mkBackendCall messages model temperature maxTokens false apiKey)
    with
    | inr data =>
        (Returns
           (Response.Json 200
              (CompletionPayload
                 {| completion_id :=
                      lit "chatcmpl-" ++ generateUUID (uuid_reads w);
                    completion_object := lit "chat.completion";
                    completion_created := (Date_now (clock_reads w) / 1000)%Z;
                    completion_model := model;
                    choice_index := 0;
                    message_role := lit "assistant";
                    message_content :=
                      or_else (resultObject0 data)
                        (or_else (data_content data)
                           (lit "No response generated"));
                    choice_finish_reason := lit "stop";
                    usage :=
                      {| prompt_tokens := default 0 (usage_prompt_tokens data);
                         completion_tokens :=
                           default 0 (usage_completion_tokens data);
                         total_tokens :=
                           default 0 (usage_total_tokens data) |} |})),
         mkWorld
           (<[requestId :=
                TranslationLogger.complete_entry None
                  (Date_now (S (clock_reads w))) entry]> (metrics w))
           (S (S (clock_reads w))) (S (uuid_reads w))
           (backend_calls w
            ++ [mkBackendCall messages model temperature maxTokens false
                  apiKey])
           (delays w) (sink w))
    | inl e =>
        (Returns
           (Response.Json 500
              (ErrorPayload (lit "Failed to process chat completion"))),
         mkWorld
           (<[requestId :=
                TranslationLogger.fail_entry (error_message e)
                  (Date_now (clock_reads w)) entry]> (metrics w))
           (S (clock_reads w)) (uuid_reads w)
           (backend_calls w
            ++ [mkBackendCall messages model temperature maxTokens false
                  apiKey])
           (delays w) (sink w))
    end.
Proof.
  intros Hid Hentry. unfold backend_json.
  unfold handleNonStreamingChat, try_catch, send.
  unfold mbind, M_bind.
  destruct (sendChatRequest _ _) as [e|response].
  - cbn [when_requestId]. rewrite Hid.
    unfold failTranslation, get_metrics, mbind, M_bind. cbn [metrics].
    rewrite Hentry. reflexivity.
  - destruct (response_json response) as [e|data].
    + cbn [throw when_requestId]. rewrite Hid.
      unfold failTranslation, get_metrics, mbind, M_bind. cbn [metrics].
      rewrite Hentry. reflexivity.
    + cbn [mret M_ret when_requestId transformToOpenAIFormat].
      unfold transformToOpenAIFormat, mbind, M_bind. cbn.
      rewrite Hid.
      unfold completeTranslation, get_metrics, mbind, M_bind. cbn [metrics].
      rewrite Hentry. reflexivity.
Qed.

(** X20. A request that is short enough for a single call and is not
    streamed: one request goes to the backend, with the messages, the
    model and the parameters of the caller.  When the backend answers,
    the caller gets the [chat.completion] object with status 200 and the
    record of the request is completed; when the request or the reading
    of its answer throws, the caller gets status 500 and the record is
    failed with the message of what was thrown. *)
Theorem single_call_lifecycle
    (messages : list Message.t) (model0 : option jsstring)
    (temperature : option float) (max_tokens : option nat)
    (apiKey : jsstring) (w : World) :
  let requestBody :=
    ChatCompletionRequest.mk (Some messages) model0 false temperature
      max_tokens in
  let model := or_else model0 DEFAULT_MODEL in
  let requestId := generateUUID (uuid_reads w) in
  let total := totalTextLength_of messages in
  let call :=
    mkBackendCall (processMessages messages) model temperature max_tokens
      false (Some apiKey) in
  let opened :=
    {| TranslationLogger.requestId := requestId;
       TranslationLogger.startTime := Date_now (clock_reads w);
       TranslationLogger.endTime := None;
       TranslationLogger.duration := None;
       TranslationLogger.textLength := total;
       TranslationLogger.chunkCount := None;
       TranslationLogger.model := model;
       TranslationLogger.status := TranslationLogger.started;
       TranslationLogger.error := None |} in
  model_supported model = true →
  total ≤ 2000 →
  truthy requestId = true →
  ∃ response w',
    handleChatCompletionsWithBody requestBody apiKey w = (Returns response, w')
    ∧ backend_calls w' = backend_calls w ++ [call]
    ∧ delays w' = delays w
    ∧ match backend_json (length (backend_calls w)) call with
      | inr data =>
          (∃ c, response = Response.Json 200 (CompletionPayload c)
                ∧ completion_model c = model
                ∧ message_content c
                  = or_else (resultObject0 data)
                      (or_else (data_content data)
                         (lit "No response generated")))
          ∧ metrics w' !! requestId
            = Some (TranslationLogger.complete_entry None
                      (Date_now (clock_reads w + 2)) opened)
      | inl e =>
          response = Response.Json 500
                       (ErrorPayload (lit "Failed to process chat completion"))
          ∧ metrics w' !! requestId
            = Some (TranslationLogger.fail_entry (error_message e)
                      (Date_now (clock_reads w + 1)) opened)
      end.
Proof.
  intros requestBody model requestId total call opened Hmodel Hshort Hid.
  assert (Hrun : handleChatCompletionsWithBody requestBody apiKey w
                 = handleNonStreamingChat (processMessages messages) model
                     temperature max_tokens (Some apiKey) (Some requestId)
                     (world_started w total model)).
  { apply handleChatCompletionsWithBody_dispatch; [exact Hmodel | |].
    - fold total. replace (2000 <? total) with false
        by (symmetry; apply Nat.ltb_ge; exact Hshort).
      reflexivity.
    - apply handleNonStreamingChat_returns. }
  rewrite Hrun.
  rewrite (handleNonStreamingChat_logged _ _ _ _ _ requestId _ opened Hid)
    by apply lookup_insert_eq.
  cbn [world_started backend_calls clock_reads uuid_reads metrics delays sink].
  fold call.
  destruct (backend_json (length (backend_calls w)) call) as [e|data].
  - eexists _, _. split; [reflexivity|].
    split; [reflexivity|]. split; [reflexivity|]. split; [reflexivity|].
    cbn [metrics]. rewrite lookup_insert_eq, Nat.add_1_r. reflexivity.
  - eexists _, _. split; [reflexivity|].
    split; [reflexivity|]. split; [reflexivity|]. split.
    + eexists. split; [reflexivity|]. split; reflexivity.
    + cbn [metrics]. rewrite lookup_insert_eq.
      replace (clock_reads w + 2) with (S (S (clock_reads w))) by lia.
      reflexivity.
Qed.

End SingleCall.

(** ** The handler: the stream breaks *)

Section BrokenStream.

Context `{Platform}.

Hypothesis writer_accepts : ∀ k bytes, writer_write k bytes = None.

Lemma pump_read_fails model pieces e rest :
  ∀ w,
    pump model ((Piece <$> pieces) ++ ReadFails e :: rest) w
    = (Throws e,
       mkWorld (metrics w) (clock_reads w + length pieces)
               (uuid_reads w + length pieces) (backend_calls w) (delays w)
               (mkSink (written (sink w)
                        ++ delta_frames model (uuid_reads w) (clock_reads w)
                             pieces)
                       (closed (sink w)) (aborted (sink w)))).
Proof using writer_accepts.
  induction pieces as [|piece pieces IH]; intros w.
  - cbn [fmap list_fmap app pump delta_frames length].
    rewrite app_nil_r, !Nat.add_0_r. destruct w as [? ? ? ? ? []]. reflexivity.
  - cbn [fmap list_fmap app pump delta_frames length].
    erewrite bind_returns by reflexivity.
    erewrite bind_returns by reflexivity.
    erewrite bind_returns by apply (write_accepted writer_accepts).
    unfold fmap in IH. rewrite IH.
    cbn [metrics clock_reads uuid_reads backend_calls delays sink written
         closed aborted].
    rewrite <- app_assoc, <- !Nat.add_succ_comm. reflexivity.
Qed.

(** X21. The source stream breaks after some pieces: the caller still
    gets the event stream with status 200, since the answer does not wait
    for the transcoder; the sink holds the frames of the pieces that were
    read, no terminal frame and no [DONE] line; it is aborted with what the
    read threw, not closed, and the record of the request is failed with
    the message of it. *)
Theorem streaming_read_failure
    (messages : list Message.t) (model : jsstring)
    (temperature : option float) (maxTokens : option nat)
    (apiKey : option jsstring) (requestId : jsstring) (w : World)
    (response : BackendResponse) (pieces : list (list Byte.byte))
    (e : Thrown) (rest : list ReadEvent)
    (entry : TranslationLogger.TranslationMetrics) :
  sendChatRequest (length (backend_calls w))
    (mkBackendCall messages model temperature maxTokens true apiKey)
  = inr response →
  response_body response = Some ((Piece <$> pieces) ++ ReadFails e :: rest) →
  truthy requestId = true →
  metrics w !! requestId = Some entry →
  ∃ w',
    handleStreamingChat messages model temperature maxTokens apiKey
      (Some requestId) w
    = (Returns (Response.EventStream event_stream_headers), w')
    ∧ Response.status (Response.EventStream event_stream_headers) = 200
    ∧ sink w'
      = {| written := delta_frames model (uuid_reads w) (clock_reads w) pieces;
           closed := false;
           aborted := Some e |}
    ∧ length (written (sink w')) = length pieces
    ∧ metrics w'
      = <[requestId :=
            TranslationLogger.fail_entry (error_message e)
              (Date_now (clock_reads w + length pieces)) entry]> (metrics w).
Proof using writer_accepts.
  intros Hsend Hbody Hid Hentry.
  eexists. split; [|split; [reflexivity|]].
  - unfold handleStreamingChat. apply try_catch_returns.
    erewrite bind_returns by (apply send_answered, Hsend).
    erewrite bind_returns by reflexivity.
    rewrite Hbody.
    erewrite bind_returns; [reflexivity|].
    unfold transcode.
    erewrite try_catch_throws
      by (erewrite bind_throws; [reflexivity | apply pump_read_fails]).
    cbn [when_requestId]. rewrite Hid.
    erewrite bind_returns by (apply failTranslation_recorded; exact Hentry).
    reflexivity.
  - cbn [sink written closed aborted metrics clock_reads uuid_reads app].
    split; [reflexivity|]. split; [|reflexivity].
    rewrite delta_frames_imap, length_imap. reflexivity.
Qed.

End BrokenStream.

(** ** The handler: the run over the segments *)

Section SegmentRun.

Context `{Platform}.

Variable requestBody : ChatCompletionRequest.t.
Variables model apiKey : jsstring.

Lemma or_else_content (s : jsstring) : or_else (Some s) [] = s.
Proof. destruct s; reflexivity. Qed.

Lemma translated_text_later w call n waits j c :
  translated_text (length (backend_calls w) + S j)
    (segment_call requestBody model apiKey c)
  = translated_text
      (length (backend_calls (world_after_calls w [call] n waits)) + j)
      (segment_call requestBody model apiKey c).
Proof.
  cbn [world_after_calls backend_calls]. rewrite length_app. cbn [length].
  f_equal. lia.
Qed.

(** While the backend answers, the texts collected are those of the
    answers, in the order of the segments. *)
Lemma process_chunks_texts total rest :
  ∀ i acc w,
    i + length rest = total →
    (∀ j c, rest !! j = Some c →
            ∃ data, backend_json (length (backend_calls w) + j)
                      (segment_call requestBody model apiKey c) = inr data) →
    process_chunks requestBody model apiKey total i rest acc w
    = (Returns
         (acc ++ imap (λ j c,
                         translated_text (length (backend_calls w) + j)
                           (segment_call requestBody model apiKey c)) rest),
       world_after_calls w (segment_call requestBody model apiKey <$> rest)
         (length rest) (repeat 100 (length rest - 1))).
Proof.
  induction rest as [|chunk rest IH]; intros i acc w Htotal Hok.
  - cbn [process_chunks fmap list_fmap length repeat Nat.sub imap].
    rewrite world_after_calls_nothing, app_nil_r. reflexivity.
  - destruct (Hok 0 chunk eq_refl) as [data Hdata].
    rewrite Nat.add_0_r in Hdata.
    rewrite process_chunks_turn.
    erewrite bind_returns by (apply handleNonStreamingChat_answered, Hdata).
    cbn [Response.ok Response.status negb Nat.leb andb].
    cbn [first_choice_content message_content]. rewrite or_else_content.
    assert (Htext : or_else (resultObject0 data)
                      (or_else (data_content data)
                         (lit "No response generated"))
                    = translated_text (length (backend_calls w) + 0)
                        (segment_call requestBody model apiKey chunk)).
    { unfold translated_text. rewrite Nat.add_0_r, Hdata. reflexivity. }
    rewrite Htext. cbn [imap].
    assert (Hrest : ∀ w1 : World,
              length (backend_calls w1) = S (length (backend_calls w)) →
              imap ((λ j c, translated_text (length (backend_calls w) + j)
                              (segment_call requestBody model apiKey c)) ∘ S)
                rest
              = imap (λ j c, translated_text (length (backend_calls w1) + j)
                               (segment_call requestBody model apiKey c))
                  rest).
    { intros w1 Hw1. apply imap_ext. intros j c _. cbn. rewrite Hw1.
      f_equal. lia. }
    destruct rest as [|chunk' rest'].
    + replace (i <? total - 1) with false
        by (symmetry; apply Nat.ltb_ge; simpl in Htotal; lia).
      erewrite bind_returns by reflexivity.
      reflexivity.
    + replace (i <? total - 1) with true
        by (symmetry; apply Nat.ltb_lt; simpl in Htotal; lia).
      erewrite bind_returns by apply sleep_world.
      rewrite world_after_calls_more.
      rewrite IH.
      * rewrite world_after_calls_more, <- app_assoc.
        rewrite <- Hrest
          by (cbn [world_after_calls backend_calls]; rewrite !length_app;
              cbn; lia).
        cbn [length Nat.sub]. rewrite Nat.sub_0_r. reflexivity.
      * cbn [length] in *. lia.
      * intros j c Hj. apply answered_later. apply (Hok (S j) c Hj).
Qed.

End SegmentRun.

Section ChunkedRun.

Context `{Platform}.

Lemma failTranslation_frame requestId error w :
  ∃ w', failTranslation requestId error w = (Returns (), w')
        ∧ backend_calls w' = backend_calls w
        ∧ delays w' = delays w
        ∧ sink w' = sink w.
Proof.
  unfold failTranslation, get_metrics, mbind, M_bind.
  destruct (metrics w !! requestId); eexists; repeat split; reflexivity.
Qed.

Lemma completeTranslation_frame requestId chunkCount w :
  ∃ w', completeTranslation requestId chunkCount w = (Returns (), w')
        ∧ backend_calls w' = backend_calls w
        ∧ delays w' = delays w
        ∧ sink w' = sink w.
Proof.
  unfold completeTranslation, get_metrics, mbind, M_bind.
  destruct (metrics w !! requestId); eexists; repeat split; reflexivity.
Qed.

(** X22. The chunked run sends the segments one at a time, in their
    order, each once, and stops at the first that fails.  When the backend
    answers the request of every segment, all of them were sent, with a
    wait of 100 ms between two of them, and the answer is a success.  When
    the request of segment [i] is the first that fails, those before it
    being answered, the requests sent are exactly those of segments 0 to
    [i], none after it and none twice, with [i] waits, and the answer is the
    error.  The stream of the request is not touched. *)
Theorem chunked_run_is_sequential
    (messages : list Message.t) (model0 : option jsstring) (stream : bool)
    (temperature : option float) (max_tokens : option nat)
    (model apiKey requestId : jsstring) (w : World) :
  let requestBody :=
    ChatCompletionRequest.mk (Some messages) model0 stream temperature
      max_tokens in
  let answered j c :=
    ∃ data, backend_json (length (backend_calls w) + j)
              (segment_call requestBody model apiKey c) = inr data in
  ∃ chunks,
    segments_of (textContent_of messages) = Some chunks
    ∧ ((∀ j c, chunks !! j = Some c → answered j c) →
       ∃ response w',
         handleChunkedTranslation requestBody model apiKey requestId w
         = (Returns response, w')
         ∧ Response.ok response = true
         ∧ backend_calls w'
           = backend_calls w
             ++ (segment_call requestBody model apiKey <$> chunks)
         ∧ delays w' = delays w ++ repeat 100 (length chunks - 1)
         ∧ sink w' = sink w)
    ∧ (∀ i c e,
         chunks !! i = Some c →
         (∀ j c', j < i → chunks !! j = Some c' → answered j c') →
         backend_json (length (backend_calls w) + i)
           (segment_call requestBody model apiKey c) = inl e →
         ∃ response w',
           handleChunkedTranslation requestBody model apiKey requestId w
           = (Returns response, w')
           ∧ Response.ok response = false
           ∧ backend_calls w'
             = backend_calls w
               ++ (segment_call requestBody model apiKey <$> take (S i) chunks)
           ∧ delays w' = delays w ++ repeat 100 i
           ∧ sink w' = sink w).
Proof.
  intros requestBody answered. subst answered.
  destruct (segments_of_returns (textContent_of messages)) as [chunks Hchunks].
  exists chunks. split; [exact Hchunks|].
  rewrite (handleChunkedTranslation_segments requestBody model apiKey
             requestId messages chunks w eq_refl Hchunks).
  split.
  - intros Hall.
    pose proof (process_chunks_texts requestBody model apiKey (length chunks)
                  chunks 0 [] w eq_refl Hall) as Hrun.
    set (w1 := world_after_calls w
                 (segment_call requestBody model apiKey <$> chunks)
                 (length chunks) (repeat 100 (length chunks - 1))) in *.
    destruct (completeTranslation_frame requestId (Some (length chunks))
                (mkWorld (metrics w1) (S (clock_reads w1)) (S (uuid_reads w1))
                   (backend_calls w1) (delays w1) (sink w1)))
      as (w' & Hdone & Hcalls' & Hdelays' & Hsink').
    eexists _, w'. split.
    { apply try_catch_returns.
      erewrite bind_returns by exact Hrun.
      erewrite bind_returns by reflexivity.
      erewrite bind_returns by reflexivity.
      erewrite bind_returns by exact Hdone. reflexivity. }
    split; [reflexivity|].
    rewrite Hcalls', Hdelays', Hsink'. repeat split.
  - intros i c e Hi Hbefore Hfail.
    pose proof (process_chunks_failed requestBody model apiKey (length chunks) i
                  chunks 0 [] w c eq_refl Hi Hbefore
                  (ex_intro _ e Hfail)) as Hrun.
    set (w1 := world_after_calls w
                 (segment_call requestBody model apiKey <$> take (S i) chunks)
                 i (repeat 100 i)) in *.
    destruct (failTranslation_frame requestId
                (error_message
                   (ErrorObject (lit "Chunk " ++ of_number (0 + i + 1)
                                 ++ lit " failed with status "
                                 ++ of_number 500))) w1)
      as (w' & Hfailed & Hcalls' & Hdelays' & Hsink').
    eexists _, w'. split.
    { erewrite try_catch_throws
        by (erewrite bind_throws; [reflexivity | exact Hrun]).
      erewrite bind_returns by exact Hfailed. reflexivity. }
    split; [reflexivity|].
    rewrite Hcalls', Hdelays', Hsink'. repeat split.
Qed.

(** X23. The chunked run when the backend answers every segment: the
    caller gets one [chat.completion] object with status 200 whose content
    is the texts of the answers, in the order of the segments, joined by a
    space, or by an empty line for subtitles; its token counts are the
    lengths of the source text and of the content divided by four; one
    request per segment was sent, with a wait between two of them, and the
    record of the request is completed with the number of segments. *)
Theorem chunked_translation_succeeds
    (requestBody : ChatCompletionRequest.t) (model apiKey requestId : jsstring)
    (w : World) (messages : list Message.t) (chunks : list TextChunk)
    (entry : TranslationLogger.TranslationMetrics) :
  ChatCompletionRequest.messages requestBody = Some messages →
  segments_of (textContent_of messages) = Some chunks →
  (∀ j c, chunks !! j = Some c →
          ∃ data, backend_json (length (backend_calls w) + j)
                    (segment_call requestBody model apiKey c) = inr data) →
  metrics w !! requestId = Some entry →
  let textContent := textContent_of messages in
  let finalTranslation :=
    join (if detectSubtitles textContent then [LF; LF] else lit " ")
      (imap (λ j c, translated_text (length (backend_calls w) + j)
                      (segment_call requestBody model apiKey c)) chunks) in
  ∃ w',
    handleChunkedTranslation requestBody model apiKey requestId w
    = (Returns
         (Response.Json 200
            (CompletionPayload
               {| completion_id :=
                    lit "chatcmpl-"
                    ++ generateUUID (uuid_reads w + length chunks);
                  completion_object := lit "chat.completion";
                  completion_created :=
                    (Date_now (clock_reads w + length chunks) / 1000)%Z;
                  completion_model := model;
                  choice_index := 0;
                  message_role := lit "assistant";
                  message_content := finalTranslation;
                  choice_finish_reason := lit "stop";
                  usage :=
                    {| prompt_tokens := length textContent / 4;
                       completion_tokens := length finalTranslation / 4;
                       total_tokens :=
                         (length textContent + length finalTranslation) / 4
                    |} |})),
       w')
    ∧ backend_calls w'
      = backend_calls w ++ (segment_call requestBody model apiKey <$> chunks)
    ∧ delays w' = delays w ++ repeat 100 (length chunks - 1)
    ∧ metrics w'
      = <[requestId :=
            TranslationLogger.complete_entry (Some (length chunks))
              (Date_now (clock_reads w + length chunks + 1)) entry]>
          (metrics w).
Proof.
  intros Hmessages Hsegments Hanswered Hentry textContent finalTranslation.
  rewrite (handleChunkedTranslation_segments _ _ _ _ _ _ _ Hmessages Hsegments).
  eexists. split; [|split; [|split]].
  - apply try_catch_returns.
    erewrite bind_returns
      by (apply (process_chunks_texts requestBody model apiKey
                   (length chunks) chunks 0 [] w eq_refl Hanswered)).
    erewrite bind_returns by reflexivity.
    erewrite bind_returns by reflexivity.
    erewrite bind_returns
      by (apply completeTranslation_recorded; exact Hentry).
    reflexivity.
  - reflexivity.
  - reflexivity.
  - cbn [metrics clock_reads world_after_calls].
    rewrite Nat.add_1_r. reflexivity.
Qed.

End ChunkedRun.

(** ** The model name parser *)

Section ParserFacts.

Import ModelParser.

Context `{Tables}.

Lemma endsWith_split (s suffix : jsstring) :
  endsWith s suffix = true →
  s = take (length s - length suffix) s ++ suffix.
Proof.
  unfold endsWith. destruct (length suffix <=? length s); [|discriminate].
  intros Hends. apply bool_decide_eq_true in Hends.
  etrans; [symmetry; apply (take_drop (length s - length suffix))|].
  f_equal. exact Hends.
Qed.

Lemma endsWith_app (base suffix : jsstring) :
  endsWith (base ++ suffix) suffix = true.
Proof.
  unfold endsWith. rewrite length_app.
  replace (length suffix <=? length base + length suffix) with true
    by (symmetry; apply Nat.leb_le; lia).
  apply bool_decide_eq_true.
  replace (length base + length suffix - length suffix) with (length base)
    by lia.
  apply drop_app_length.
Qed.

Lemma colonCount_app (a b : jsstring) :
  colonCount (a ++ b) = colonCount a + colonCount b.
Proof.
  unfold colonCount, jsstring. rewrite filter_app, length_app. reflexivity.
Qed.

Lemma colonCount_zero (s : jsstring) : colonCount s = 0 ↔ 58%N ∉ s.
Proof.
  unfold colonCount, jsstring in *.
  induction s as [|c s IH]; [split; [|reflexivity]|].
  - intros _ Hin. inversion Hin.
  - rewrite filter_cons, not_elem_of_cons. case_decide as Hc.
    + subst c. cbn [length]. split; [lia|]. intros [Hne _]. congruence.
    + rewrite IH. split; [intros Hs; split; [congruence|exact Hs] | tauto].
Qed.

Lemma includes_elem (l : list N) (c : N) : includes l c = true ↔ c ∈ l.
Proof.
  unfold includes. rewrite existsb_exists. split.
  - intros (x & Hin & Hx). apply N.eqb_eq in Hx. subst x.
    apply list_elem_of_In. exact Hin.
  - intros Hin. exists c. split; [apply list_elem_of_In, Hin|apply N.eqb_refl].
Qed.

Lemma parseModelName_valid_result (modelName : jsstring) :
  isValid (parseModelName modelName) = true →
  error (parseModelName modelName) = None
  ∧ modelName ≠ []
  ∧ trim modelName
    = originalModel (parseModelName modelName)
      ++ (if hasOnlineSuffix (parseModelName modelName)
          then ONLINE_SUFFIX else [])
  ∧ (58%N ∉ originalModel (parseModelName modelName))
  ∧ (hasOnlineSuffix (parseModelName modelName) = true →
     originalModel (parseModelName modelName) ≠ []
     ∧ validateModelSupportsWebSearch
         (originalModel (parseModelName modelName)) = true).
Proof.
  unfold parseModelName. cbv zeta.
  destruct modelName as [|c modelName]; [discriminate|].
  cbn [truthy negb]. set (trimmed := trim (c :: modelName)).
  destruct (1 <? colonCount trimmed) eqn:Hcolons; [discriminate|].
  apply Nat.ltb_ge in Hcolons.
  destruct (endsWith trimmed ONLINE_SUFFIX) eqn:Hends.
  - apply endsWith_split in Hends.
    set (base := take (length trimmed - length ONLINE_SUFFIX) trimmed) in *.
    destruct (truthy base) eqn:Hbase; [|discriminate].
    destruct (validateModelSupportsWebSearch base) eqn:Hsupported;
      [|discriminate].
    cbn [negb isValid error originalModel hasOnlineSuffix]. intros _.
    split; [reflexivity|]. split; [discriminate|]. split; [exact Hends|].
    split.
    + apply colonCount_zero. rewrite Hends, colonCount_app in Hcolons.
      change (colonCount ONLINE_SUFFIX) with 1 in Hcolons. lia.
    + intros _. split; [apply truthy_nonempty, Hbase | exact Hsupported].
  - destruct (includes trimmed 58%N) eqn:Hcolon; [discriminate|].
    cbn [isValid error originalModel hasOnlineSuffix]. intros _.
    split; [reflexivity|]. split; [discriminate|].
    split; [rewrite app_nil_r; reflexivity|].
    split; [|discriminate].
    intros Hin. apply includes_elem in Hin. congruence.
Qed.

(** X24. What a valid result of [parseModelName] says about the name:
    no error is set, the trimmed name is the model followed by [:online]
    when the suffix is reported and the model alone otherwise, the model
    holds no colon, and a model reported with the suffix is not empty and
    is in the table of models with web search. *)
Theorem parseModelName_valid (modelName : jsstring) :
  isValid (parseModelName modelName) = true →
  error (parseModelName modelName) = None
  ∧ modelName ≠ []
  ∧ trim modelName
    = originalModel (parseModelName modelName)
      ++ (if hasOnlineSuffix (parseModelName modelName)
          then ONLINE_SUFFIX else [])
  ∧ (58%N ∉ originalModel (parseModelName modelName))
  ∧ (hasOnlineSuffix (parseModelName modelName) = true →
     originalModel (parseModelName modelName) ≠ []
     ∧ validateModelSupportsWebSearch
         (originalModel (parseModelName modelName)) = true).
Proof. apply parseModelName_valid_result. Qed.

(** X25. A name without a colon is taken as it is: trimmed, without
    suffix, valid, whatever the tables hold; so is a name of white space
    only, whose model is then the empty string. *)
Theorem parseModelName_plain (modelName : jsstring) :
  modelName ≠ [] → 58%N ∉ trim modelName →
  parseModelName modelName
  = {| originalModel := trim modelName;
       hasOnlineSuffix := false;
       isValid := true;
       error := None |}.
Proof.
  intros Hname Hcolon. unfold parseModelName. cbv zeta.
  apply truthy_nonempty in Hname. rewrite Hname. cbn [negb].
  assert (colonCount (trim modelName) = 0) as ->
    by (apply colonCount_zero, Hcolon).
  cbn [Nat.ltb Nat.leb].
  destruct (endsWith (trim modelName) ONLINE_SUFFIX) eqn:Hends.
  - exfalso. apply Hcolon. apply endsWith_split in Hends. rewrite Hends.
    apply elem_of_app. right. apply (bool_decide_unpack _). reflexivity.
  - destruct (includes (trim modelName) 58%N) eqn:Hin; [|reflexivity].
    exfalso. apply Hcolon, includes_elem, Hin.
Qed.

(** X26. A name that ends in [:online]: the suffix is cut off and
    reported; the name is valid exactly when the model before the suffix
    is in the table of models with web search, and the error names the
    model otherwise. *)
Theorem parseModelName_online (modelName base : jsstring) :
  trim modelName = base ++ ONLINE_SUFFIX → base ≠ [] → 58%N ∉ base →
  parseModelName modelName
  = {| originalModel := base;
       hasOnlineSuffix := true;
       isValid := validateModelSupportsWebSearch base;
       error :=
         if validateModelSupportsWebSearch base then None
         else Some (lit "Model '" ++ base
                    ++ lit "' does not support web search functionality") |}.
Proof.
  intros Htrim Hbase Hcolon. unfold parseModelName. cbv zeta.
  destruct modelName as [|c modelName].
  { destruct base; discriminate. }
  cbn [truthy negb]. rewrite Htrim.
  rewrite colonCount_app.
  assert (colonCount base = 0) as -> by (apply colonCount_zero, Hcolon).
  change (colonCount ONLINE_SUFFIX) with 1. cbn [Nat.add Nat.ltb Nat.leb].
  rewrite endsWith_app.
  rewrite length_app, Nat.add_sub, take_app_length.
  apply truthy_nonempty in Hbase. rewrite Hbase. cbn [negb].
  destruct (validateModelSupportsWebSearch base); reflexivity.
Qed.

Lemma positive_or_positive (n fallback : float) :
  PrimFloat.is_nan fallback = false → (fallback <=? 0)%float = false →
  PrimFloat.is_nan (positive_or n fallback) = false
  ∧ (positive_or n fallback <=? 0)%float = false.
Proof.
  intros Hnan Hpos. unfold positive_or.
  destruct (PrimFloat.is_nan n) eqn:Hn; [split; assumption|].
  destruct (n <=? 0)%float eqn:Hle; [split; assumption|].
  split; assumption.
Qed.

(** X27. The web search settings are always usable: the switch is on,
    and neither number is NaN, zero or negative, whatever the environment
    holds and whatever [parseInt] makes of it; without an environment, or
    with both variables unset or empty, they are one site and 500 words. *)
Theorem getWebSearchConfig_usable (env : option Env) :
  let config := getWebSearchConfig env in
  webSearch config = true
  ∧ PrimFloat.is_nan (numOfSite config) = false
  ∧ (numOfSite config <=? 0)%float = false
  ∧ PrimFloat.is_nan (maxWord config) = false
  ∧ (maxWord config <=? 0)%float = false
  ∧ (truthy (or_else (env ≫= WEB_SEARCH_NUM_OF_SITE) []) = false →
     numOfSite config = DEFAULT_NUM_OF_SITE)
  ∧ (truthy (or_else (env ≫= WEB_SEARCH_MAX_WORD) []) = false →
     maxWord config = DEFAULT_MAX_WORD).
Proof.
  intros config. subst config. unfold getWebSearchConfig.
  cbn [webSearch numOfSite maxWord].
  split; [reflexivity|].
  destruct (positive_or_positive
              (parsed_or (env ≫= WEB_SEARCH_NUM_OF_SITE) DEFAULT_NUM_OF_SITE)
              DEFAULT_NUM_OF_SITE eq_refl eq_refl) as [Hnan1 Hpos1].
  destruct (positive_or_positive
              (parsed_or (env ≫= WEB_SEARCH_MAX_WORD) DEFAULT_MAX_WORD)
              DEFAULT_MAX_WORD eq_refl eq_refl) as [Hnan2 Hpos2].
  repeat (split; [assumption|]).
  split.
  - unfold parsed_or, or_else.
    destruct (env ≫= WEB_SEARCH_NUM_OF_SITE) as [s|]; [|reflexivity].
    destruct s; [reflexivity|discriminate].
  - unfold parsed_or, or_else.
    destruct (env ≫= WEB_SEARCH_MAX_WORD) as [s|]; [|reflexivity].
    destruct s; [reflexivity|discriminate].
Qed.

Lemma parseAndGetConfig_facts (modelName : jsstring) (env : option Env) :
  let parsed := parseAndGetConfig modelName env in
  (∀ config, webSearchConfig parsed = Some config →
     config = getWebSearchConfig env
     ∧ config_error parsed = None
     ∧ trim modelName = cleanModel parsed ++ ONLINE_SUFFIX
     ∧ validateModelSupportsWebSearch (cleanModel parsed) = true)
  ∧ (∀ message, config_error parsed = Some message →
       message ≠ [] ∧ cleanModel parsed = [] ∧ webSearchConfig parsed = None)
  ∧ (config_error parsed = None ↔ isValid (parseModelName modelName) = true).
Proof.
  intros parsed. subst parsed. unfold parseAndGetConfig. cbv zeta.
  destruct (isValid (parseModelName modelName)) eqn:Hvalid; cbn [negb].
  - destruct (parseModelName_valid_result modelName Hvalid)
      as (Herror & _ & Htrim & _ & Honline).
    destruct (hasOnlineSuffix (parseModelName modelName)) eqn:Hsuffix;
      cbn [webSearchConfig config_error cleanModel].
    + split; [|split; [discriminate | tauto]].
      intros config [= <-]. destruct (Honline eq_refl) as [_ Hsupported].
      auto.
    + split; [discriminate|]. split; [discriminate | tauto].
  - cbn [webSearchConfig config_error cleanModel].
    split; [discriminate|]. split.
    + intros message Hmessage. split; [|split; reflexivity].
      revert Hvalid Hmessage. unfold parseModelName. cbv zeta.
      repeat case_match; cbn [isValid error]; try discriminate;
        intros _ [= <-]; discriminate.
    + split; [|discriminate]. intros Hnone. exfalso.
      revert Hvalid Hnone. unfold parseModelName. cbv zeta.
      repeat case_match; cbn [isValid error]; discriminate.
Qed.

(** X28. [parseAndGetConfig] sets web search only for a name with the
    suffix whose model is in the table of models with web search, and then
    with the settings of [getWebSearchConfig]; an error always comes with a
    message that is not empty, an empty model and no web search. *)
Theorem parseAndGetConfig_web_search (modelName : jsstring) (env : option Env) :
  let parsed := parseAndGetConfig modelName env in
  (∀ config, webSearchConfig parsed = Some config →
     config = getWebSearchConfig env
     ∧ config_error parsed = None
     ∧ trim modelName = cleanModel parsed ++ ONLINE_SUFFIX
     ∧ validateModelSupportsWebSearch (cleanModel parsed) = true)
  ∧ (∀ message, config_error parsed = Some message →
       message ≠ [] ∧ cleanModel parsed = [] ∧ webSearchConfig parsed = None)
  ∧ (config_error parsed = None ↔ isValid (parseModelName modelName) = true).
Proof. apply parseAndGetConfig_facts. Qed.

End ParserFacts.

(** ** Model validation *)

Section ValidationFacts.

Import ModelParser.

Context `{Tables} `{Platform}.

(** X29. What [validateModelAndMessages] lets through: the model it
    returns is in the table of available models and holds no colon; it is
    the trimmed name, without the suffix [:online] when web search is set;
    web search is set only for a model of the table of models with web
    search, with the settings of [getWebSearchConfig]; the messages are
    those that [processMessagesWithImageCheck] returns, and when they hold
    images the model supports vision. *)
Theorem validateModelAndMessages_accepts (rawModel : jsstring)
    (messages : list Message.t) (env : Env) (validated : ValidatedModel) :
  validateModelAndMessages rawModel messages env = inr validated →
  model_supported (validated_cleanModel validated) = true
  ∧ (58%N ∉ validated_cleanModel validated)
  ∧ trim rawModel
    = validated_cleanModel validated
      ++ match validated_webSearchConfig validated with
         | Some _ => ONLINE_SUFFIX
         | None => []
         end
  ∧ (∀ config, validated_webSearchConfig validated = Some config →
       config = getWebSearchConfig (Some env)
       ∧ validateModelSupportsWebSearch (validated_cleanModel validated)
         = true)
  ∧ processedMessages validated = (processMessagesWithImageCheck messages).1
  ∧ ((processMessagesWithImageCheck messages).2 = true →
     supportsVision (validated_cleanModel validated) = true).
Proof.
  unfold validateModelAndMessages. cbv zeta.
  destruct (parseAndGetConfig_facts rawModel (Some env))
    as (Hsearch & Herror & Hvalid).
  cbv zeta in Hsearch, Herror, Hvalid.
  destruct (config_error (parseAndGetConfig rawModel (Some env)))
    as [message|] eqn:Hmessage.
  { destruct (Herror message eq_refl) as (Hne & _).
    apply truthy_nonempty in Hne. cbn [or_else]. rewrite Hne. cbn [truthy].
    rewrite Hne. discriminate. }
  cbn [or_else truthy].
  destruct (model_supported _) eqn:Hmodel; [|discriminate]. cbn [negb].
  destruct (processMessagesWithImageCheck messages)
    as [processed hasImages] eqn:Hprocessed.
  destruct (hasImages && negb (supportsVision _)) eqn:Himages;
    [discriminate|].
  intros [= <-].
  cbn [validated_cleanModel validated_webSearchConfig processedMessages fst
       snd].
  split; [exact Hmodel|].
  pose proof (proj1 Hvalid eq_refl) as Hparse.
  destruct (parseModelName_valid_result rawModel Hparse)
    as (_ & _ & Htrim & Hcolon & _).
  assert (Hshape : cleanModel (parseAndGetConfig rawModel (Some env))
                   = originalModel (parseModelName rawModel)
                   ∧ (hasOnlineSuffix (parseModelName rawModel) = true
                      ↔ ∃ config,
                          webSearchConfig (parseAndGetConfig rawModel (Some env))
                          = Some config)).
  { unfold parseAndGetConfig. cbv zeta. rewrite Hparse. cbn [negb].
    destruct (hasOnlineSuffix (parseModelName rawModel));
      cbn [cleanModel webSearchConfig]; split; try reflexivity.
    - split; [eauto | reflexivity].
    - split; [discriminate | intros [config Hconfig]; discriminate]. }
  destruct Hshape as [Hclean Hsuffix].
  split; [rewrite Hclean; exact Hcolon|].
  split.
  { rewrite Htrim, Hclean. f_equal.
    destruct (hasOnlineSuffix (parseModelName rawModel)).
    - destruct (proj1 Hsuffix eq_refl) as [config ->]. reflexivity.
    - destruct (webSearchConfig _) as [config|]; [|reflexivity].
      assert (false = true) by (apply Hsuffix; eauto). discriminate. }
  split.
  { intros config Hconfig.
    destruct (Hsearch config Hconfig) as (-> & _ & _ & Hsupported). auto. }
  split; [reflexivity|].
  intros ->. cbn [andb] in Himages.
  apply negb_false_iff in Himages. exact Himages.
Qed.

(** X30. What [validateModelAndMessages] throws, and in which order:
    a name that does not parse gives the validation error with the
    message of the parser and the code [model_not_found], whatever the
    tables say about the model; a name that parses to a model outside the
    table of available models gives the model-not-found error for that
    model; only a model of the table is checked against the images. *)
Theorem validateModelAndMessages_rejects (rawModel : jsstring)
    (messages : list Message.t) (env : Env) (failure : ValidationFailure) :
  validateModelAndMessages rawModel messages env = inl failure →
  match failure with
  | ValidationError message param code =>
      param = lit "model"
      ∧ ((code = lit "model_not_found"
          ∧ isValid (parseModelName rawModel) = false
          ∧ error (parseModelName rawModel) = Some message)
         ∨ (code = lit "model_not_supported"
            ∧ isValid (parseModelName rawModel) = true
            ∧ model_supported (originalModel (parseModelName rawModel)) = true
            ∧ (processMessagesWithImageCheck messages).2 = true
            ∧ supportsVision (originalModel (parseModelName rawModel))
              = false))
  | ModelNotFoundError model =>
      isValid (parseModelName rawModel) = true
      ∧ model = originalModel (parseModelName rawModel)
      ∧ model_supported model = false
  end.
Proof.
  unfold validateModelAndMessages. cbv zeta.
  destruct (parseAndGetConfig_facts rawModel (Some env))
    as (_ & Herror & Hvalid).
  cbv zeta in Herror, Hvalid.
  unfold parseAndGetConfig in *. cbv zeta in *.
  destruct (isValid (parseModelName rawModel)) eqn:Hparse; cbn [negb] in *.
  - assert (Hclean :
      ∀ b : bool,
        config_error
          (if b
           then {| cleanModel := originalModel (parseModelName rawModel);
                   webSearchConfig := Some (getWebSearchConfig (Some env));
                   config_error := None |}
           else {| cleanModel := originalModel (parseModelName rawModel);
                   webSearchConfig := None;
                   config_error := None |}) = None
        ∧ cleanModel
            (if b
             then {| cleanModel := originalModel (parseModelName rawModel);
                     webSearchConfig := Some (getWebSearchConfig (Some env));
                     config_error := None |}
             else {| cleanModel := originalModel (parseModelName rawModel);
                     webSearchConfig := None;
                     config_error := None |})
          = originalModel (parseModelName rawModel))
      by (intros []; split; reflexivity).
    destruct (Hclean (hasOnlineSuffix (parseModelName rawModel)))
      as [-> ->].
    cbn [or_else truthy].
    destruct (model_supported _) eqn:Hmodel; cbn [negb].
    + destruct (processMessagesWithImageCheck messages)
        as [processed hasImages].
      destruct hasImages; cbn [andb snd]; [|discriminate].
      destruct (supportsVision _) eqn:Hvision; cbn [negb]; [discriminate|].
      intros [= <-]. split; [reflexivity|]. right. auto.
    + intros [= <-]. auto.
  - cbn [config_error cleanModel] in *.
    destruct (error (parseModelName rawModel)) as [message|] eqn:Hmessage.
    + destruct (Herror message eq_refl) as (Hne & _).
      apply truthy_nonempty in Hne. cbn [or_else]. rewrite Hne. cbn [truthy].
      rewrite Hne. intros [= <-]. split; [reflexivity|]. left. auto.
    + destruct Hvalid as [Hvalid _]. discriminate (Hvalid eq_refl).
Qed.

End ValidationFacts.

(** ** The handler on the sample platform *)

#[local] Existing Instance sample_platform.

Lemma chunked_failure_is_all_or_nothing_witness :
  let requestBody := sample_long_request false in
  let model := lit "gpt-4o-mini" in
  let requestId := lit "uuid-0" in
  let w := world_started sample_world (9 * 1000) model in
  let third := mkTextChunk (lit "chunk-2") (repeat 97%N 2000) 2 5 (9 * 1000) in
  segments_of (textContent_of
                 [Message.mk (lit "user") (ContentString (repeat 97%N (9 * 1000)))])
  = Some sample_segments
  ∧ sample_segments !! 2 = Some third
  ∧ backend_json 2 (segment_call requestBody model (lit "key") third)
    = inl (ErrorObject (lit "fetch failed"))
  ∧ ∃ response w',
      handleChunkedTranslation requestBody model (lit "key") requestId w
      = (Returns response, w')
      ∧ Response.ok response = false
      ∧ backend_calls w'
        = segment_call requestBody model (lit "key") <$> take 3 sample_segments
      ∧ ∃ entry', metrics w' !! requestId = Some entry'
                  ∧ TranslationLogger.status entry' = TranslationLogger.failed
                  ∧ TranslationLogger.error entry'
                    = Some (lit "Chunk 3 failed with status 500").
Proof.
  intros requestBody model requestId w third.
  assert (segments_of
            (textContent_of
               [Message.mk (lit "user") (ContentString (repeat 97%N (9 * 1000)))])
          = Some sample_segments) as Hsegments by (vm_compute; reflexivity).
  split; [exact Hsegments|]. split; [reflexivity|].
  split; [reflexivity|].
  destruct (chunked_failure_is_all_or_nothing requestBody model (lit "key")
              requestId w
              [Message.mk (lit "user") (ContentString (repeat 97%N (9 * 1000)))]
              sample_segments 2 third (ErrorObject (lit "fetch failed"))
              (TranslationLogger.mkMetrics requestId 1700000000000 None None
                 (9 * 1000) None model TranslationLogger.started None))
    as (response & w' & Hrun & Hresponse & Hok & Hcalls & Hmetrics & Hentry).
  - reflexivity.
  - exact Hsegments.
  - reflexivity.
  - intros j c Hj _. destruct j as [|[|j]]; [eexists; reflexivity.. | lia].
  - reflexivity.
  - apply lookup_insert_eq.
  - exists response, w'. split; [exact Hrun|]. split; [exact Hok|].
    split; [exact Hcalls|]. exact Hentry.
Defined.

(** The error of the backend is not what the record carries: the third
    request throws "fetch failed", and the record of the run says
    "Chunk 3 failed with status 500". *)
Lemma chunked_failure_drops_backend_error :
  let requestBody := sample_long_request false in
  let model := lit "gpt-4o-mini" in
  let requestId := lit "uuid-0" in
  let w := world_started sample_world (9 * 1000) model in
  let third := mkTextChunk (lit "chunk-2") (repeat 97%N 2000) 2 5 (9 * 1000) in
  let originating := ErrorObject (lit "fetch failed") in
  sendChatRequest 2 (segment_call requestBody model (lit "key") third)
  = inl originating
  ∧ ∃ response w' entry',
      handleChunkedTranslation requestBody model (lit "key") requestId w
      = (Returns response, w')
      ∧ metrics w' !! requestId = Some entry'
      ∧ TranslationLogger.status entry' = TranslationLogger.failed
      ∧ TranslationLogger.error entry'
        = Some (lit "Chunk 3 failed with status 500")
      ∧ TranslationLogger.error entry' ≠ Some (error_message originating).
Proof.
  intros requestBody model requestId w third originating.
  split; [reflexivity|].
  assert (segments_of
            (textContent_of
               [Message.mk (lit "user") (ContentString (repeat 97%N (9 * 1000)))])
          = Some sample_segments) as Hsegments by (vm_compute; reflexivity).
  rewrite (handleChunkedTranslation_segments requestBody model (lit "key")
             requestId _ sample_segments w eq_refl Hsegments).
  erewrite try_catch_throws.
  2: { erewrite bind_throws; [reflexivity|].
       apply (process_chunks_failed requestBody model (lit "key")
                (length sample_segments) 2 sample_segments 0 [] w third).
       - reflexivity.
       - reflexivity.
       - intros j c Hj _. destruct j as [|[|j]]; [eexists; reflexivity.. | lia].
       - exists originating. reflexivity. }
  erewrite bind_returns
    by (apply failTranslation_recorded; apply lookup_insert_eq).
  eexists _, _, _. split; [reflexivity|].
  split; [apply lookup_insert_eq|]. split; [reflexivity|].
  split; [reflexivity|]. discriminate.
Qed.


(** The scenario of a source that delivers the one piece "Hola": two
    frames and the sentinel. *)
Lemma transcoder_frame_sequence_witness :
  let messages := [Message.mk (lit "user") (ContentString (lit "Hello"))] in
  let model := lit "gpt-4o-mini" in
  (∃ response,
     sendChatRequest 0
       (mkBackendCall messages model None None true (Some (lit "key")))
     = inr response
     ∧ response_body response = Some (Piece <$> [Hola]))
  ∧ ∃ w',
      handleStreamingChat messages model None None (Some (lit "key")) None
        sample_world
      = (Returns (Response.EventStream event_stream_headers), w')
      ∧ sink w'
        = {| written :=
               [ sse_frame (returnChunk (lit "uuid-0") 1700000000000 model
                                        (lit "Hola"));
                 sse_frame (finalChunk (lit "uuid-1") 1700000000001 model);
                 sse_done ];
             closed := true;
             aborted := None |}.
Proof.
  intros messages model. split; [eexists; split; reflexivity|].
  destruct (transcoder_frame_sequence messages model None None
              (Some (lit "key")) None sample_world
              {| response_json :=
                   inr {| resultObject0 := Some (lit "ok");
                          data_content := None;
                          usage_prompt_tokens := None;
                          usage_completion_tokens := None;
                          usage_total_tokens := None |};
                 response_body := Some [Piece Hola] |}
              [Hola])
    as (w' & Hrun & Hsink); [reflexivity.. |].
  exists w'. split; [exact Hrun|]. rewrite Hsink. reflexivity.
Defined.

Lemma logger_events_are_local_witness :
  let w := mkWorld ∅ 0 0 [] [] (mkSink [] false None) in
  let event := startTranslation (lit "uuid-0") 5 (lit "gpt-4o-mini") in
  metrics (event w).2 !! lit "uuid-1" = metrics w !! lit "uuid-1"
  ∧ backend_calls (event w).2 = backend_calls w
  ∧ delays (event w).2 = delays w
  ∧ sink (event w).2 = sink w.
Proof.
  intros w event.
  apply (logger_events_are_local (lit "uuid-0") (lit "uuid-1") 5
           (lit "gpt-4o-mini") (lit "fetch failed") None event w).
  - discriminate.
  - left. reflexivity.
Defined.

Lemma processMessages_transparent_witness :
  let messages :=
    [Message.mk (lit "system") (ContentString (lit "Translate."));
     Message.mk (lit "user")
       (ContentParts [OtherPart (lit "text") (lit "Hello")])] in
  processMessages messages = messages.
Proof.
  intros messages.
  apply (proj2 (proj2 (processMessages_transparent messages))).
  repeat constructor.
Defined.

Lemma invalid_request_is_rejected_witness :
  handleChatCompletionsWithBody
    (ChatCompletionRequest.mk None (Some (lit "gpt-4o-mini")) false None None)
    (lit "key") sample_world
  = (Returns
       (Response.Json 400
          (ErrorPayload
             (lit "Messages field is required and must be an array"))),
     mkWorld ∅ 0 1 [] [] (mkSink [] false None)).
Proof.
  exact (invalid_request_is_rejected
           (ChatCompletionRequest.mk None (Some (lit "gpt-4o-mini")) false
              None None) (lit "key") sample_world (or_introl eq_refl)).
Defined.

Lemma streaming_request_fails_witness :
  let messages := [Message.mk (lit "user") (ContentString (lit "Hello"))] in
  let call :=
    mkBackendCall messages (lit "gpt-4o-mini") None None true
      (Some (lit "key")) in
  ∃ w',
    handleStreamingChat messages (lit "gpt-4o-mini") None None
      (Some (lit "key")) (Some (lit "uuid-0")) (sample_world_after 2)
    = (Returns (Response.Json 500
                  (ErrorPayload
                     (lit "Failed to process streaming chat completion"))),
       w')
    ∧ backend_calls w' = backend_calls (sample_world_after 2) ++ [call]
    ∧ metrics w' !! lit "uuid-0"
      = Some (TranslationLogger.fail_entry (lit "fetch failed")
                1700000000001 sample_entry).
Proof.
  intros messages call. eexists. split.
  - apply (streaming_request_fails messages (lit "gpt-4o-mini") None None
             (Some (lit "key")) (lit "uuid-0") (sample_world_after 2)
             (ErrorObject (lit "fetch failed")) sample_entry);
      [reflexivity | reflexivity | apply lookup_singleton_eq].
  - split; [reflexivity|]. cbn [metrics]. apply lookup_insert_eq.
Defined.

Lemma single_call_lifecycle_witness :
  let messages := [Message.mk (lit "user") (ContentString (lit "Hello"))] in
  ∃ c w',
    handleChatCompletionsWithBody (sample_short_request false) (lit "key")
      sample_world
    = (Returns (Response.Json 200 (CompletionPayload c)), w')
    ∧ message_content c = lit "ok"
    ∧ backend_calls w'
      = [mkBackendCall messages (lit "gpt-4o-mini") None None false
           (Some (lit "key"))]
    ∧ TranslationLogger.status <$> metrics w' !! lit "uuid-0"
      = Some TranslationLogger.completed.
Proof.
  intros messages.
  assert (model_supported (or_else None DEFAULT_MODEL) = true) as Hmodel
    by (vm_compute; reflexivity).
  assert (totalTextLength_of messages ≤ 2000) as Hshort
    by (apply Nat.leb_le; vm_compute; reflexivity).
  assert (truthy (generateUUID (uuid_reads sample_world)) = true) as Hid
    by (vm_compute; reflexivity).
  destruct (single_call_lifecycle messages None None None (lit "key")
              sample_world Hmodel Hshort Hid)
    as (response & w' & Hrun & Hcalls & _ & Hafter).
  change (backend_json _ _)
    with (@inr Thrown BackendData
            {| resultObject0 := Some (lit "ok"); data_content := None;
               usage_prompt_tokens := None; usage_completion_tokens := None;
               usage_total_tokens := None |}) in Hafter.
  destruct Hafter as [(c & -> & _ & Hcontent) Hentry].
  exists c, w'. split; [exact Hrun|]. split; [exact Hcontent|].
  split; [exact Hcalls|].
  change (generateUUID (uuid_reads sample_world)) with (lit "uuid-0") in Hentry.
  rewrite Hentry. reflexivity.
Defined.

Lemma chunked_translation_succeeds_witness :
  let messages :=
    [Message.mk (lit "user") (ContentString (repeat 97%N (9 * 1000)))] in
  let requestBody := sample_long_request false in
  ∃ c w',
    handleChunkedTranslation requestBody (lit "gpt-4o-mini") (lit "key")
      (lit "uuid-0") (sample_world_after 3)
    = (Returns (Response.Json 200 (CompletionPayload c)), w')
    ∧ message_content c = lit "ok ok ok ok ok"
    ∧ length (backend_calls w') = 3 + 5
    ∧ delays w' = [100; 100; 100; 100]
    ∧ TranslationLogger.chunkCount <$> metrics w' !! lit "uuid-0"
      = Some (Some 5).
Proof.
  intros messages requestBody.
  assert (segments_of (textContent_of messages) = Some sample_segments)
    as Hsegments by (vm_compute; reflexivity).
  destruct (chunked_translation_succeeds requestBody (lit "gpt-4o-mini")
              (lit "key") (lit "uuid-0") (sample_world_after 3) messages
              sample_segments sample_entry)
    as (w' & Hrun & Hcalls & Hdelays & Hmetrics).
  - reflexivity.
  - exact Hsegments.
  - intros j c Hj. eexists. reflexivity.
  - apply lookup_singleton_eq.
  - eexists _, w'. split; [exact Hrun|].
    split; [vm_compute; reflexivity|].
    split; [rewrite Hcalls; reflexivity|].
    split; [rewrite Hdelays; reflexivity|].
    rewrite Hmetrics, lookup_insert_eq. reflexivity.
Defined.

Lemma streaming_without_body_witness :
  let messages := [Message.mk (lit "user") (ContentString (lit "Hello"))] in
  let call :=
    mkBackendCall messages (lit "gpt-4o-mini") None None true
      (Some (lit "key")) in
  @handleStreamingChat sample_broken_platform messages (lit "gpt-4o-mini")
    None None (Some (lit "key")) (Some (lit "uuid-0")) (sample_world_after 1)
  = (Returns (Response.EventStream event_stream_headers_short),
     mkWorld {[ lit "uuid-0" := sample_entry ]} 1 1
       (backend_calls (sample_world_after 1) ++ [call]) []
       (mkSink [] true None)).
Proof.
  intros messages call.
  apply (@streaming_without_body sample_broken_platform messages
           (lit "gpt-4o-mini") None None (Some (lit "key"))
           (Some (lit "uuid-0")) (sample_world_after 1)
           {| response_json :=
                inr {| resultObject0 := Some (lit "ok");
                       data_content := None;
                       usage_prompt_tokens := None;
                       usage_completion_tokens := None;
                       usage_total_tokens := None |};
              response_body := None |});
    reflexivity.
Defined.

Lemma streaming_read_failure_witness :
  let messages := [Message.mk (lit "user") (ContentString (lit "Hello"))] in
  ∃ w',
    @handleStreamingChat sample_broken_platform messages (lit "gpt-4o-mini")
      None None (Some (lit "key")) (Some (lit "uuid-0")) (sample_world_after 0)
    = (Returns (Response.EventStream event_stream_headers), w')
    ∧ closed (sink w') = false
    ∧ aborted (sink w') = Some (ErrorObject (lit "connection reset"))
    ∧ length (written (sink w')) = 1
    ∧ TranslationLogger.error <$> metrics w' !! lit "uuid-0"
      = Some (Some (lit "connection reset")).
Proof.
  intros messages.
  destruct (@streaming_read_failure sample_broken_platform
              (λ _ _, eq_refl) messages (lit "gpt-4o-mini") None None
              (Some (lit "key")) (lit "uuid-0") (sample_world_after 0)
              {| response_json :=
                   inr {| resultObject0 := Some (lit "ok");
                          data_content := None;
                          usage_prompt_tokens := None;
                          usage_completion_tokens := None;
                          usage_total_tokens := None |};
                 response_body :=
                   Some [Piece Hola;
                         ReadFails (ErrorObject (lit "connection reset"))] |}
              [Hola] (ErrorObject (lit "connection reset")) [] sample_entry)
    as (w' & Hrun & _ & Hsink & Hlen & Hmetrics);
    [reflexivity | reflexivity | reflexivity | apply lookup_singleton_eq |].
  exists w'. split; [exact Hrun|]. rewrite Hsink.
  split; [reflexivity|]. split; [reflexivity|]. split; [reflexivity|].
  rewrite Hmetrics, lookup_insert_eq. reflexivity.
Defined.

(** The run of five segments whose third request fails: three requests
    and two waits. *)
Lemma chunked_run_is_sequential_witness :
  let messages :=
    [Message.mk (lit "user") (ContentString (repeat 97%N (9 * 1000)))] in
  let requestBody := sample_long_request false in
  let w := world_started sample_world (9 * 1000) (lit "gpt-4o-mini") in
  ∃ response w',
    handleChunkedTranslation requestBody (lit "gpt-4o-mini") (lit "key")
      (lit "uuid-0") w
    = (Returns response, w')
    ∧ Response.ok response = false
    ∧ backend_calls w'
      = segment_call requestBody (lit "gpt-4o-mini") (lit "key")
        <$> take 3 sample_segments
    ∧ delays w' = [100; 100].
Proof.
  intros messages requestBody w.
  assert (segments_of (textContent_of messages) = Some sample_segments)
    as Hsegments by (vm_compute; reflexivity).
  destruct (chunked_run_is_sequential messages None false None None
              (lit "gpt-4o-mini") (lit "key") (lit "uuid-0") w)
    as (chunks & Hchunks & _ & Hfirst).
  rewrite Hsegments in Hchunks. injection Hchunks as <-.
  destruct (Hfirst 2
              (mkTextChunk (lit "chunk-2") (repeat 97%N 2000) 2 5 (9 * 1000))
              (ErrorObject (lit "fetch failed")))
    as (response & w' & Hrun & Hok & Hcalls & Hdelays & _).
  - reflexivity.
  - intros j c Hj _. destruct j as [|[|j]]; [eexists; reflexivity.. | lia].
  - reflexivity.
  - exists response, w'. split; [exact Hrun|]. split; [exact Hok|].
    split; [exact Hcalls | exact Hdelays].
Defined.

(** ** The parser on the sample tables *)

#[local] Existing Instance sample_tables.

Lemma parseModelName_valid_witness :
  let parsed := ModelParser.parseModelName (lit " gpt-4o-mini:online ") in
  ModelParser.error parsed = None
  ∧ lit " gpt-4o-mini:online " ≠ []
  ∧ trim (lit " gpt-4o-mini:online ")
    = ModelParser.originalModel parsed ++ ModelParser.ONLINE_SUFFIX
  ∧ (58%N ∉ ModelParser.originalModel parsed)
  ∧ (ModelParser.hasOnlineSuffix parsed = true →
     ModelParser.originalModel parsed ≠ []
     ∧ ModelParser.validateModelSupportsWebSearch
         (ModelParser.originalModel parsed) = true).
Proof.
  intros parsed.
  assert (ModelParser.isValid parsed = true) as Hvalid
    by (vm_compute; reflexivity).
  exact (parseModelName_valid (lit " gpt-4o-mini:online ") Hvalid).
Defined.

Lemma parseModelName_plain_witness :
  ModelParser.parseModelName (lit " gpt-4o ")
  = {| ModelParser.originalModel := lit "gpt-4o";
       ModelParser.hasOnlineSuffix := false;
       ModelParser.isValid := true;
       ModelParser.error := None |}.
Proof.
  apply (parseModelName_plain (lit " gpt-4o ")).
  - discriminate.
  - apply (bool_decide_unpack _). vm_compute. reflexivity.
Defined.

Lemma parseModelName_online_witness :
  ModelParser.parseModelName (lit "gpt-4o-mini:online")
  = {| ModelParser.originalModel := lit "gpt-4o-mini";
       ModelParser.hasOnlineSuffix := true;
       ModelParser.isValid := true;
       ModelParser.error := None |}.
Proof.
  etrans.
  - apply (parseModelName_online (lit "gpt-4o-mini:online")
             (lit "gpt-4o-mini")).
    + vm_compute. reflexivity.
    + discriminate.
    + apply (bool_decide_unpack _). vm_compute. reflexivity.
  - vm_compute. reflexivity.
Defined.

Lemma validateModelAndMessages_accepts_witness :
  let messages := [Message.mk (lit "user") (ContentString (lit "Hello"))] in
  let env := ModelParser.mkEnv (Some (lit "3")) None in
  ∃ validated,
    ModelParser.validateModelAndMessages (lit "gpt-4o-mini:online") messages
      env = inr validated
    ∧ ModelParser.validated_cleanModel validated = lit "gpt-4o-mini"
    ∧ model_supported (ModelParser.validated_cleanModel validated) = true
    ∧ ModelParser.processedMessages validated = messages
    ∧ ∃ config,
        ModelParser.validated_webSearchConfig validated = Some config
        ∧ ModelParser.numOfSite config = 3%float
        ∧ ModelParser.maxWord config = 500%float.
Proof.
  intros messages env.
  destruct (ModelParser.validateModelAndMessages (lit "gpt-4o-mini:online")
              messages env) as [failure|validated] eqn:Hrun;
    [vm_compute in Hrun; discriminate|].
  exists validated. split; [reflexivity|].
  destruct (validateModelAndMessages_accepts (lit "gpt-4o-mini:online")
              messages env validated Hrun)
    as (Hmodel & _ & _ & _ & Hprocessed & _).
  vm_compute in Hrun. injection Hrun as <-.
  split; [reflexivity|]. split; [exact Hmodel|]. split; [exact Hprocessed|].
  eexists. split; [reflexivity|]. split; reflexivity.
Defined.

Lemma validateModelAndMessages_rejects_witness :
  let messages := [Message.mk (lit "user") (ContentString (lit "Hello"))] in
  let env := ModelParser.mkEnv None None in
  ∃ message,
    ModelParser.validateModelAndMessages (lit "gpt-4o:fast") messages env
    = inl (ModelParser.ValidationError message (lit "model")
             (lit "model_not_found"))
    ∧ ModelParser.isValid (ModelParser.parseModelName (lit "gpt-4o:fast"))
      = false
    ∧ ModelParser.error (ModelParser.parseModelName (lit "gpt-4o:fast"))
      = Some message.
Proof.
  intros messages env.
  destruct (ModelParser.validateModelAndMessages (lit "gpt-4o:fast") messages
              env) as [failure|validated] eqn:Hrun;
    [|vm_compute in Hrun; discriminate].
  pose proof (validateModelAndMessages_rejects (lit "gpt-4o:fast") messages
                env failure Hrun) as Hfailure.
  vm_compute in Hrun. injection Hrun as <-.
  destruct Hfailure as [_ [(_ & Hvalid & Herror) | (Hcode & _)]];
    [|discriminate Hcode].
  eexists. split; [reflexivity|]. split; [exact Hvalid | exact Herror].
Defined.

